(** * Concept-map core of the Socratic tutor: graph merge and force layout

    Shallow embedding of
    - [generateConceptMapUpdate] (src/services/geminiService.ts), the merge of
      a model proposal into the current concept map, and
    - [getNodeDimensions], [getIntersection] and the [useForceLayout] hook
      (src/components/ConceptBuilder.tsx): node seeding and the per-frame
      [simulate] step,
    - the drawing of the links and the mouse handlers of the same component,
    - [parseJSON] (src/services/geminiService.ts), which reads the reply
      that the merge consumes, and
    - the memory bank of [StorageService] (src/unnamed/part_003) as the last
      step of [evaluateExam] fills it.

    Numbers.  A JavaScript number is modelled as an exact rational [Q]:
    rounding, overflow and the special values NaN and Infinity of binary64 are
    not represented.  In exact arithmetic a value that is not finite can only
    come from a quotient with divisor 0 or from the root of a negative number,
    so the operator [/] of the tick and of [getIntersection] is a parameter
    [divide], instantiated by [Qdiv], and so is [Math.sqrt]: a result that is
    the same for every choice of the quotients by 0 and of the roots of
    negative numbers does not depend on such a value.  [Math.cos],
    [Math.sin], [Math.PI] and the draws of [Math.random] are parameters of the
    seeding.

    Strings.  A JavaScript string is modelled as [string]; [===] on strings is
    [String.eqb]; [String.prototype.toLowerCase] is a parameter of the merge,
    instantiated by [asciiLowerCase] where a concrete run is evaluated. *)

From Stdlib Require Import QArith Qabs Lqa ZArith Lia Ascii.
From stdpp Require Import base list strings.

Local Open Scope Q_scope.

(** ** Data model (types.ts) *)

Module ConceptNode.
(** [vx] and [vy] are optional in the interface. *)
Record t := mk {
  id : string;
  label : string;
  x : Q;
  y : Q;
  vx : option Q;
  vy : option Q
}.
End ConceptNode.

Module ConceptLink.
Record t := mk {
  source : string;
  target : string;
  label : option string
}.
End ConceptLink.

Module ConceptMap.
Record t := mk {
  nodes : list ConceptNode.t;
  links : list ConceptLink.t
}.
End ConceptMap.

(** The parsed reply of the model: [{ newNodes: [{label}], newLinks:
    [{source, target, label?}] }]; either array may be missing. *)
Module Update.
Record node := mkNode { label : string }.
Record t := mk {
  newNodes : option (list node);
  newLinks : option (list ConceptLink.t)
}.
End Update.

(** [xs?.forEach(f)] with the state the callback mutates threaded through. *)
Definition forEach {A S : Type} (xs : option (list A)) (f : S -> A -> S) (s : S) : S :=
  match xs with
  | Some l => fold_left f l s
  | None => s
  end.

(** ASCII instance of [toLowerCase]: the letters A-Z are mapped to a-z, every
    other character is kept. *)
Definition asciiLowerChar (c : ascii) : ascii :=
  let n := nat_of_ascii c in
  if (65 <=? n)%nat && (n <=? 90)%nat then ascii_of_nat (n + 32) else c.

Fixpoint asciiLowerCase (s : string) : string :=
  match s with
  | EmptyString => EmptyString
  | String c r => String (asciiLowerChar c) (asciiLowerCase r)
  end.

(** ** GraphModel: [generateConceptMapUpdate] (geminiService.ts, 218-254) *)

Section GraphModel.
Variable toLowerCase : string -> string.

(** [a.toLowerCase() === b.toLowerCase()] *)
Definition sameLabel (a b : string) : bool :=
  String.eqb (toLowerCase a) (toLowerCase b).

(** Body of [data.newNodes?.forEach]: acts on the array [newNodes]. *)
Definition addNode (newNodes : list ConceptNode.t) (n : Update.node) : list ConceptNode.t :=
  match find (fun en => sameLabel (ConceptNode.label en) (Update.label n)) newNodes with
  | Some _ => newNodes
  | None =>
      newNodes ++ [ConceptNode.mk (Update.label n) (Update.label n) 0 0 None None]
  end.

(** Body of [data.newLinks?.forEach]: reads [newNodes], acts on [newLinks]. *)
Definition addLink (newNodes : list ConceptNode.t) (newLinks : list ConceptLink.t)
    (l : ConceptLink.t) : list ConceptLink.t :=
  let sourceNode :=
    find (fun n => sameLabel (ConceptNode.label n) (ConceptLink.source l)) newNodes in
  let targetNode :=
    find (fun n => sameLabel (ConceptNode.label n) (ConceptLink.target l)) newNodes in
  match sourceNode, targetNode with
  | Some sourceNode, Some targetNode =>
      let safeSource := ConceptNode.label sourceNode in
      let safeTarget := ConceptNode.label targetNode in
      match find (fun el => String.eqb (ConceptLink.source el) safeSource
                            && String.eqb (ConceptLink.target el) safeTarget) newLinks with
      | Some _ => newLinks
      | None => newLinks ++ [ConceptLink.mk safeSource safeTarget (ConceptLink.label l)]
      end
  | _, _ => newLinks
  end.

(** The merge proper, from the parsed reply [data] on. *)
Definition generateConceptMapUpdate (data : Update.t) (currentMap : ConceptMap.t)
    : ConceptMap.t :=
  let newNodes := forEach (Update.newNodes data) addNode (ConceptMap.nodes currentMap) in
  let newLinks :=
    forEach (Update.newLinks data) (addLink newNodes) (ConceptMap.links currentMap) in
  ConceptMap.mk newNodes newLinks.

(** The component's state: it starts as [{ nodes: [], links: [] }] and is
    replaced by the result of each merge (ConceptBuilder.tsx, 260 and
    319-320). *)
Definition emptyMap : ConceptMap.t := ConceptMap.mk [] [].

Definition conceptMapAfter (updates : list Update.t) : ConceptMap.t :=
  fold_left (fun m d => generateConceptMapUpdate d m) updates emptyMap.

End GraphModel.

(** ** Numbers *)

(** [a < b] on numbers. *)
Definition Qltb (a b : Q) : bool := negb (Qle_bool b a).

Definition Math_abs (a : Q) : Q := Qabs a.
Definition Math_max (a b : Q) : Q := if Qltb a b then b else a.
Definition Math_min (a b : Q) : Q := if Qltb b a then b else a.

(** [v || 0] on an optional number: a missing or zero value reads as 0. *)
Definition or0 (v : option Q) : Q :=
  match v with
  | Some q => if Qeq_bool q 0 then 0 else q
  | None => 0
  end.

(** [d || 1] on a number. *)
Definition or1 (d : Q) : Q := if Qeq_bool d 0 then 1 else d.

(** [for (let i = lo; i < hi; i++) body(i)] over the state [s]. *)
Definition forRange {S : Type} (lo hi : nat) (body : nat -> S -> S) (s : S) : S :=
  fold_left (fun s i => body i s) (seq lo (hi - lo)) s.

Module Point.
Record t := mk { x : Q; y : Q }.
End Point.

Module Dimensions.
Record t := mk { width : Q; height : Q }.
End Dimensions.

(** ** Node geometry (ConceptBuilder.tsx, 12-57) *)

Definition getNodeDimensions (label : string) : Dimensions.t :=
  let width := Math_max 120 (inject_Z (Z.of_nat (String.length label)) * 9 + 30) in
  let height := 44 in
  Dimensions.mk width height.

Section Intersection.
(** The operator [/]. *)
Variable divide : Q -> Q -> Q.

(** The slope [m] is computed before the side test, as in the source. *)
Definition getIntersection (from target : Point.t) (targetWidth targetHeight : Q)
    : Point.t :=
  let dx := Point.x target - Point.x from in
  let dy := Point.y target - Point.y from in
  let w := targetWidth + 4 in
  let h := targetHeight + 4 in
  if Qltb (Math_abs dx) 1 && Qltb (Math_abs dy) 1 then target
  else
    let m := divide dy dx in
    if Qltb (Math_abs dy * w) (Math_abs dx * h) then
      let ix := if Qltb 0 dx then divide (- w) 2 else divide w 2 in
      let iy := m * ix in
      Point.mk (Point.x target + ix) (Point.y target + iy)
    else
      let iy := if Qltb 0 dy then divide (- h) 2 else divide h 2 in
      let ix := if negb (Qeq_bool dx 0) then divide iy m else 0 in
      Point.mk (Point.x target + ix) (Point.y target + iy).

End Intersection.

(** ** Field updates on a node object *)

Definition setLabel (n : ConceptNode.t) (l : string) : ConceptNode.t :=
  ConceptNode.mk (ConceptNode.id n) l (ConceptNode.x n) (ConceptNode.y n)
    (ConceptNode.vx n) (ConceptNode.vy n).

Definition setX (n : ConceptNode.t) (x : Q) : ConceptNode.t :=
  ConceptNode.mk (ConceptNode.id n) (ConceptNode.label n) x (ConceptNode.y n)
    (ConceptNode.vx n) (ConceptNode.vy n).

Definition setY (n : ConceptNode.t) (y : Q) : ConceptNode.t :=
  ConceptNode.mk (ConceptNode.id n) (ConceptNode.label n) (ConceptNode.x n) y
    (ConceptNode.vx n) (ConceptNode.vy n).

Definition setVx (n : ConceptNode.t) (vx : Q) : ConceptNode.t :=
  ConceptNode.mk (ConceptNode.id n) (ConceptNode.label n) (ConceptNode.x n)
    (ConceptNode.y n) (Some vx) (ConceptNode.vy n).

Definition setVy (n : ConceptNode.t) (vy : Q) : ConceptNode.t :=
  ConceptNode.mk (ConceptNode.id n) (ConceptNode.label n) (ConceptNode.x n)
    (ConceptNode.y n) (ConceptNode.vx n) (Some vy).

(** ** ForceLayoutEngine: seeding of new nodes (ConceptBuilder.tsx, 71-111) *)

Section Seeding.
(** [Math.cos], [Math.sin], [Math.PI], and the successive results of
    [Math.random()]: draw number [i] is [random i]. *)
Variables Math_cos Math_sin : Q -> Q.
Variable Math_PI : Q.
Variable random : nat -> Q.
(** The props the effect closes over. *)
Variable links : list ConceptLink.t.
Variables width height : Q.

(** The variables the [forEach] callback mutates: the array [next], the flag
    [hasChanges], and the number of draws of [Math.random] made so far.
    [alphaRef], which no position depends on, is left out. *)
Record SeedState := mkSeed {
  next : list ConceptNode.t;
  hasChanges : bool;
  draws : nat
}.

Definition touches (label : string) (l : ConceptLink.t) : bool :=
  String.eqb (ConceptLink.target l) label || String.eqb (ConceptLink.source l) label.

(** The initial position of a node that is not yet in [next]; also returns
    the number of draws used. *)
Definition spawnPosition (next : list ConceptNode.t) (draws : nat) (n : ConceptNode.t)
    : Q * Q * nat :=
  let connectedLink := find (touches (ConceptNode.label n)) links in
  let initX := width / 2 in
  let initY := height / 2 in
  match connectedLink with
  | Some connectedLink =>
      let peerLabel :=
        if String.eqb (ConceptLink.source connectedLink) (ConceptNode.label n)
        then ConceptLink.target connectedLink
        else ConceptLink.source connectedLink in
      match find (fun p => String.eqb (ConceptNode.label p) peerLabel) next with
      | Some peer =>
          let angle := random draws * Math_PI * 2 in
          (ConceptNode.x peer + Math_cos angle * 80,
           ConceptNode.y peer + Math_sin angle * 80,
           S draws)
      | None => (initX, initY, draws)
      end
  | None =>
      (width / 2 + (random draws - 0.5) * 100,
       height / 2 + (random (S draws) - 0.5) * 100,
       S (S draws))
  end.

(** Body of [nodes.forEach]. *)
Definition seedNode (st : SeedState) (n : ConceptNode.t) : SeedState :=
  match list_find (fun en => ConceptNode.id en = ConceptNode.id n) (next st) with
  | Some (i, existing) =>
      if negb (String.eqb (ConceptNode.label existing) (ConceptNode.label n))
      then mkSeed (<[i := setLabel existing (ConceptNode.label n)]> (next st)) true (draws st)
      else st
  | None =>
      let '(initX, initY, draws') := spawnPosition (next st) (draws st) n in
      mkSeed
        (next st ++ [ConceptNode.mk (ConceptNode.id n) (ConceptNode.label n)
                       initX initY (Some 0) (Some 0)])
        true draws'
  end.

(** The state updater of the effect: [prev] is the animated node list,
    [nodes] the node list of the concept map.  When nothing changed the
    updater returns [prev], which then has the same content as [next]. *)
Definition seedNodes (prev nodes : list ConceptNode.t) : list ConceptNode.t :=
  let st := fold_left seedNode nodes (mkSeed prev false 0%nat) in
  if hasChanges st then next st else prev.

End Seeding.

(** ** ForceLayoutEngine: one tick (ConceptBuilder.tsx, 113-237) *)

Section Simulate.
(** The operator [/] and [Math.sqrt]. *)
Variable divide : Q -> Q -> Q.
Variable Math_sqrt : Q -> Q.
(** The values the callback closes over. *)
Variable links : list ConceptLink.t.
Variables width height : Q.
Variable draggedNodeId : option string.
Variable dragPos : option Point.t.

Definition k : Q := 250.
Definition center : Point.t := Point.mk (divide width 2) (divide height 2).
Definition padding : Q := 30.
Definition boundaryMargin : Q := 60.
Definition maxV : Q := 8.

(** [n.id === draggedNodeId]; false when no node is dragged. *)
Definition isDragged (n : ConceptNode.t) : bool :=
  match draggedNodeId with
  | Some d => String.eqb (ConceptNode.id n) d
  | None => false
  end.

(** [n.vx = (n.vx || 0) + dvx; n.vy = (n.vy || 0) + dvy] *)
Definition addVelocity (n : ConceptNode.t) (dvx dvy : Q) : ConceptNode.t :=
  setVy (setVx n (or0 (ConceptNode.vx n) + dvx)) (or0 (ConceptNode.vy n) + dvy).

(** *** 1. Repulsion and centering *)

(** The local [distSq] of the inner loop, after [if (distSq === 0) distSq = 1]. *)
Definition repelDistSq (dx dy : Q) : Q :=
  let distSq := dx * dx + dy * dy in
  if Qeq_bool distSq 0 then 1 else distSq.

(** Body of the inner loop for the pair [(i, j)], [i < j]. *)
Definition repelPair (i j : nat) (newNodes : list ConceptNode.t) : list ConceptNode.t :=
  match newNodes !! i, newNodes !! j with
  | Some u, Some v =>
      let dx := ConceptNode.x u - ConceptNode.x v in
      let dy := ConceptNode.y u - ConceptNode.y v in
      let distSq := repelDistSq dx dy in
      let dist := Math_sqrt distSq in
      let force := divide (k * k * 8) distSq in
      let fx := divide dx dist * force in
      let fy := divide dy dist * force in
      let u' := if negb (isDragged u) then addVelocity u (fx * 0.05) (fy * 0.05) else u in
      let v' := if negb (isDragged v) then addVelocity v (- (fx * 0.05)) (- (fy * 0.05)) else v in
      <[j := v']> (<[i := u']> newNodes)
  | _, _ => newNodes
  end.

Definition centerPull (i : nat) (newNodes : list ConceptNode.t) : list ConceptNode.t :=
  match newNodes !! i with
  | Some u =>
      if negb (isDragged u)
      then <[i := addVelocity u ((Point.x center - ConceptNode.x u) * 0.005)
                                ((Point.y center - ConceptNode.y u) * 0.005)]> newNodes
      else newNodes
  | None => newNodes
  end.

Definition repulsion (newNodes : list ConceptNode.t) : list ConceptNode.t :=
  forRange 0 (length newNodes)
    (fun i ns => centerPull i (forRange (i + 1) (length ns) (repelPair i) ns))
    newNodes.

(** *** 2. Attraction along the links *)

(** The local [dist] of the callback: [Math.sqrt(dx * dx + dy * dy) || 1]. *)
Definition springDist (dx dy : Q) : Q := or1 (Math_sqrt (dx * dx + dy * dy)).

(** Body of [links.forEach].  [find] returns the first node with the label;
    the node is kept as its index, and the target is read again after the
    source was written, as both may be one object. *)
Definition springLink (newNodes : list ConceptNode.t) (link : ConceptLink.t)
    : list ConceptNode.t :=
  match list_find (fun n => ConceptNode.label n = ConceptLink.source link) newNodes,
        list_find (fun n => ConceptNode.label n = ConceptLink.target link) newNodes with
  | Some (si, source), Some (ti, target) =>
      let dx := ConceptNode.x target - ConceptNode.x source in
      let dy := ConceptNode.y target - ConceptNode.y source in
      let dist := springDist dx dy in
      let force := (dist - k) * 0.03 in
      let fx := divide dx dist * force in
      let fy := divide dy dist * force in
      let ns1 := if negb (isDragged source)
                 then <[si := addVelocity source fx fy]> newNodes else newNodes in
      match ns1 !! ti with
      | Some target' =>
          if negb (isDragged target')
          then <[ti := addVelocity target' (- fx) (- fy)]> ns1 else ns1
      | None => ns1
      end
  | _, _ => newNodes
  end.

Definition attraction (newNodes : list ConceptNode.t) : list ConceptNode.t :=
  fold_left springLink links newNodes.

(** *** 3. Collision resolution *)

(** Body of the inner loop for the pair [(i, j)], [i < j]. *)
Definition collidePair (i j : nat) (newNodes : list ConceptNode.t) : list ConceptNode.t :=
  match newNodes !! i, newNodes !! j with
  | Some u, Some v =>
      let dimU := getNodeDimensions (ConceptNode.label u) in
      let dimV := getNodeDimensions (ConceptNode.label v) in
      let dx := ConceptNode.x u - ConceptNode.x v in
      let dy := ConceptNode.y u - ConceptNode.y v in
      let minW := divide (Dimensions.width dimU + Dimensions.width dimV) 2 + padding in
      let minH := divide (Dimensions.height dimU + Dimensions.height dimV) 2 + padding in
      if Qltb (Math_abs dx) minW && Qltb (Math_abs dy) minH then
        let overlapX := minW - Math_abs dx in
        let overlapY := minH - Math_abs dy in
        if Qltb overlapX overlapY then
          let sign := if Qltb 0 dx then 1 else -1 in
          let push := divide overlapX 2 in
          let u1 := if negb (isDragged u) then setX u (ConceptNode.x u + sign * push) else u in
          let v1 := if negb (isDragged v) then setX v (ConceptNode.x v - sign * push) else v in
          let u2 := setVx u1 (or0 (ConceptNode.vx u1) * 0.1) in
          let v2 := setVx v1 (or0 (ConceptNode.vx v1) * 0.1) in
          <[j := v2]> (<[i := u2]> newNodes)
        else
          let sign := if Qltb 0 dy then 1 else -1 in
          let push := divide overlapY 2 in
          let u1 := if negb (isDragged u) then setY u (ConceptNode.y u + sign * push) else u in
          let v1 := if negb (isDragged v) then setY v (ConceptNode.y v - sign * push) else v in
          let u2 := setVy u1 (or0 (ConceptNode.vy u1) * 0.1) in
          let v2 := setVy v1 (or0 (ConceptNode.vy v1) * 0.1) in
          <[j := v2]> (<[i := u2]> newNodes)
      else newNodes
  | _, _ => newNodes
  end.

Definition collisionPass (newNodes : list ConceptNode.t) : list ConceptNode.t :=
  forRange 0 (length newNodes)
    (fun i ns => forRange (i + 1) (length ns) (collidePair i) ns)
    newNodes.

Definition collisions (newNodes : list ConceptNode.t) : list ConceptNode.t :=
  forRange 0 3 (fun _ ns => collisionPass ns) newNodes.

(** *** 4. Position update, damping and boundary check *)

(** The branch of the final [map] for a node that is not pinned. *)
Definition integrate (n : ConceptNode.t) : ConceptNode.t :=
  let vx := or0 (ConceptNode.vx n) * 0.65 in
  let vy := or0 (ConceptNode.vy n) * 0.65 in
  let vx := Math_max (- maxV) (Math_min maxV vx) in
  let vy := Math_max (- maxV) (Math_min maxV vy) in
  let vx := if Qltb (Math_abs vx) 0.05 then 0 else vx in
  let vy := if Qltb (Math_abs vy) 0.05 then 0 else vy in
  let x := ConceptNode.x n + vx in
  let y := ConceptNode.y n + vy in
  let x := Math_max boundaryMargin (Math_min (width - boundaryMargin) x) in
  let y := Math_max boundaryMargin (Math_min (height - boundaryMargin) y) in
  ConceptNode.mk (ConceptNode.id n) (ConceptNode.label n) x y (Some vx) (Some vy).

(** Callback of the final [map]. *)
Definition updatePosition (n : ConceptNode.t) : ConceptNode.t :=
  match dragPos with
  | Some p =>
      if isDragged n
      then ConceptNode.mk (ConceptNode.id n) (ConceptNode.label n)
             (Point.x p) (Point.y p) (Some 0) (Some 0)
      else integrate n
  | None => integrate n
  end.

(** The state updater of one tick. *)
Definition simulate (prevNodes : list ConceptNode.t) : list ConceptNode.t :=
  let newNodes := prevNodes in
  let newNodes := repulsion newNodes in
  let newNodes := attraction newNodes in
  let newNodes := collisions newNodes in
  map updatePosition newNodes.

End Simulate.

(** A rational stand-in for [Math.sqrt] used where a tick is evaluated on
    concrete nodes: 0 on an argument that is not positive, else the root
    truncated to six decimals, and at least one millionth. *)
Definition sqrtApprox (q : Q) : Q :=
  if Qle_bool q 0 then 0
  else inject_Z (Z.max 1 (Z.sqrt (Qnum q * 1000000000000 / Z.pos (Qden q)))) / 1000000.

(** ** Drawing of the links (ConceptBuilder.tsx, 425-441) *)

Module LinkLine.
Record t := mk { start : Point.t; finish : Point.t; midX : Q; midY : Q }.
End LinkLine.

(** A node object read as a point. *)
Definition centreOf (n : ConceptNode.t) : Point.t :=
  Point.mk (ConceptNode.x n) (ConceptNode.y n).

Section Drawing.
Variable divide : Q -> Q -> Q.

(** Callback of [conceptMap.links.map]: [None] is the [null] returned when
    an end of the link is not among the animated nodes; [finish] is the
    local [end]. *)
Definition linkLine (animatedNodes : list ConceptNode.t) (link : ConceptLink.t)
    : option LinkLine.t :=
  let source :=
    find (fun n => String.eqb (ConceptNode.label n) (ConceptLink.source link)) animatedNodes in
  let target :=
    find (fun n => String.eqb (ConceptNode.label n) (ConceptLink.target link)) animatedNodes in
  match source, target with
  | Some source, Some target =>
      let sDim := getNodeDimensions (ConceptNode.label source) in
      let tDim := getNodeDimensions (ConceptNode.label target) in
      let start := getIntersection divide (centreOf target) (centreOf source)
                     (Dimensions.width sDim) (Dimensions.height sDim) in
      let finish := getIntersection divide (centreOf source) (centreOf target)
                      (Dimensions.width tDim) (Dimensions.height tDim) in
      let midX := divide (Point.x start + Point.x finish) 2 in
      let midY := divide (Point.y start + Point.y finish) 2 in
      Some (LinkLine.mk start finish midX midY)
  | _, _ => None
  end.

End Drawing.

(** ** Drag state (ConceptBuilder.tsx, 264-265 and 329-348) *)

Module DragState.
Record t := mk { draggedNodeId : option string; dragPos : option Point.t }.
End DragState.

(** The part of [getBoundingClientRect()] that the handlers read. *)
Module Rect.
Record t := mk { left : Q; top : Q }.
End Rect.

(** A string used as a condition: true unless it is null or empty. *)
Definition truthy (s : option string) : bool :=
  match s with
  | Some s => negb (String.eqb s "")
  | None => false
  end.

(** The handlers; [container] is [containerRef.current], read through its
    bounding rectangle. *)
Definition handleMouseDown (container : option Rect.t) (clientX clientY : Q)
    (nodeId : string) (st : DragState.t) : DragState.t :=
  match container with
  | Some rect =>
      DragState.mk (Some nodeId)
        (Some (Point.mk (clientX - Rect.left rect) (clientY - Rect.top rect)))
  | None => DragState.mk (Some nodeId) (DragState.dragPos st)
  end.

Definition handleMouseMove (container : option Rect.t) (clientX clientY : Q)
    (st : DragState.t) : DragState.t :=
  match container with
  | Some rect =>
      if truthy (DragState.draggedNodeId st)
      then DragState.mk (DragState.draggedNodeId st)
             (Some (Point.mk (clientX - Rect.left rect) (clientY - Rect.top rect)))
      else st
  | None => st
  end.

Definition handleMouseUp (st : DragState.t) : DragState.t := DragState.mk None None.

(** The events the graph pane listens to; mouse leave runs [handleMouseUp]. *)
Inductive MouseEvent :=
| MouseDown (container : option Rect.t) (clientX clientY : Q) (nodeId : string)
| MouseMove (container : option Rect.t) (clientX clientY : Q)
| MouseUp
| MouseLeave.

Definition handleEvent (st : DragState.t) (e : MouseEvent) : DragState.t :=
  match e with
  | MouseDown container clientX clientY nodeId =>
      handleMouseDown container clientX clientY nodeId st
  | MouseMove container clientX clientY => handleMouseMove container clientX clientY st
  | MouseUp => handleMouseUp st
  | MouseLeave => handleMouseUp st
  end.

(** The state after a sequence of events, from [useState(null)] twice; each
    handler reads the state that the events before it left. *)
Definition dragStateAfter (events : list MouseEvent) : DragState.t :=
  fold_left handleEvent events (DragState.mk None None).

(** ** Reply parsing: [parseJSON] (geminiService.ts, 10-49) *)

(** The text of a reply is a list of characters, each standing for one code
    unit; indices are numbers, with -1 for "not found". *)
Section ParseJSON.
(** The values [JSON.parse] returns and [JSON.parse] itself, [None] where it
    throws; the class [\s] of the regular expressions. *)
Variable J : Type.
Variable JSON_parse : list ascii -> option J.
Variable isSpace : ascii -> bool.

(** The text begins with [pat]. *)
Fixpoint startsWith (pat text : list ascii) : bool :=
  match pat, text with
  | [], _ => true
  | p :: pat, c :: text => Ascii.eqb p c && startsWith pat text
  | _ :: _, [] => false
  end.

(** The longest run of [\s] at the head is dropped. *)
Fixpoint dropSpaces (text : list ascii) : list ascii :=
  match text with
  | c :: rest => if isSpace c then dropSpaces rest else text
  | [] => []
  end.

(** [text.replace(/pat\s*/g, '')] for a literal [pat] that is not empty:
    at each position from the left, a match is cut out together with the
    spaces after it and the scan goes on behind it.  Every step consumes a
    character, so a fuel of the length of the text is enough. *)
Fixpoint removeMatches (fuel : nat) (pat text : list ascii) : list ascii :=
  match fuel with
  | O => text
  | S fuel =>
      if startsWith pat text
      then removeMatches fuel pat (dropSpaces (drop (length pat) text))
      else match text with
           | [] => []
           | c :: rest => c :: removeMatches fuel pat rest
           end
  end.

Definition removeAll (pat text : list ascii) : list ascii :=
  removeMatches (length text) pat text.

Definition fence : list ascii := String.list_ascii_of_string "```".
Definition jsonFence : list ascii := String.list_ascii_of_string "```json".

(** [text.indexOf(c)] and [text.lastIndexOf(c)] for a one-character [c]. *)
Fixpoint indexOfFrom (c : ascii) (text : list ascii) (i : Z) : Z :=
  match text with
  | [] => -1
  | d :: rest => if Ascii.eqb d c then i else indexOfFrom c rest (i + 1)
  end.

Definition indexOf (c : ascii) (text : list ascii) : Z := indexOfFrom c text 0.

Fixpoint lastIndexOfFrom (c : ascii) (text : list ascii) (i found : Z) : Z :=
  match text with
  | [] => found
  | d :: rest => lastIndexOfFrom c rest (i + 1) (if Ascii.eqb d c then i else found)
  end.

Definition lastIndexOf (c : ascii) (text : list ascii) : Z := lastIndexOfFrom c text 0 (-1).

(** [text.substring(a, b)]: both indices are clamped to the text and
    swapped when [a] is the larger. *)
Definition substring (text : list ascii) (a b : Z) : list ascii :=
  let len := Z.of_nat (length text) in
  let a := Z.max 0 (Z.min a len) in
  let b := Z.max 0 (Z.min b len) in
  let lo := Z.min a b in
  let hi := Z.max a b in
  take (Z.to_nat (hi - lo)) (drop (Z.to_nat lo) text).

(** Step 3 of the second attempt: the object or array is cut out of the
    text around it. *)
Definition extractJSON (clean : list ascii) : list ascii :=
  let firstBrace := indexOf "{" clean in
  let firstBracket := indexOf "[" clean in
  let lastBrace := lastIndexOf "}" clean in
  let lastBracket := lastIndexOf "]" clean in
  let '(start, end_) :=
    if negb (firstBrace =? -1)%Z && ((firstBracket =? -1)%Z || (firstBrace <? firstBracket)%Z)
    then (firstBrace, (lastBrace + 1)%Z)
    else if negb (firstBracket =? -1)%Z
         then (firstBracket, (lastBracket + 1)%Z)
         else (0%Z, Z.of_nat (length clean)) in
  if negb (start =? -1)%Z && negb (end_ =? 0)%Z && (start <? end_)%Z
  then substring clean start end_
  else clean.

(** [text] is [None] for [undefined]; the message logged on failure is
    left out. *)
Definition parseJSON (text : option (list ascii)) (fallback : J) : J :=
  match text with
  | None => fallback
  | Some [] => fallback
  | Some text =>
      match JSON_parse text with
      | Some v => v
      | None =>
          let clean := removeAll fence (removeAll jsonFence text) in
          let clean := extractJSON clean in
          match JSON_parse clean with
          | Some v => v
          | None => fallback
          end
      end
  end.

End ParseJSON.

(** The fallback of [generateConceptMapUpdate]: [{ newNodes: [], newLinks: [] }]. *)
Definition emptyUpdate : Update.t := Update.mk (Some []) (Some []).

(** [generateConceptMapUpdate] from the text of the reply on, for a parser
    that yields the replies of the schema. *)
Definition conceptMapFromReply (toLowerCase : string -> string)
    (JSON_parse : list ascii -> option Update.t) (isSpace : ascii -> bool)
    (text : option (list ascii)) (currentMap : ConceptMap.t) : ConceptMap.t :=
  generateConceptMapUpdate toLowerCase
    (parseJSON Update.t JSON_parse isSpace text emptyUpdate) currentMap.

(** ** Memory bank ([StorageService], src/unnamed/part_003, 571-586) and its
    use at the end of [evaluateExam] (geminiService.ts, 375-378) *)

Module StudentMemory.
Record t := mk { misconceptions : list string; strengths : list string }.
End StudentMemory.

(** The entry of the local storage under the memory key, [None] while the
    key is absent; reading the entry gives the memory that was saved. *)
Definition MemoryStore : Type := option StudentMemory.t.

Definition saveMemory (memory : StudentMemory.t) (store : MemoryStore) : MemoryStore :=
  Some memory.

Definition getMemory (store : MemoryStore) : StudentMemory.t :=
  match store with
  | Some memory => memory
  | None => StudentMemory.mk [] []
  end.

(** [l.includes(s)] on strings. *)
Definition includes (l : list string) (s : string) : bool :=
  existsb (fun e => String.eqb e s) l.

Definition addMisconception (concept : string) (store : MemoryStore) : MemoryStore :=
  let mem := getMemory store in
  if negb (includes (StudentMemory.misconceptions mem) concept)
  then saveMemory (StudentMemory.mk (StudentMemory.misconceptions mem ++ [concept])
                                    (StudentMemory.strengths mem)) store
  else store.

(** The last step of [evaluateExam]: every area for improvement of the
    result goes to the memory; [None] is a result without the field. *)
Definition recordAreas (areasForImprovement : option (list string))
    (store : MemoryStore) : MemoryStore :=
  forEach areasForImprovement (fun store concept => addMisconception concept store) store.

(** ** Vocabulary of the properties *)

(** The candidates of a reply; a missing array proposes nothing. *)
Definition candidateNodes (data : Update.t) : list Update.node :=
  default [] (Update.newNodes data).

Definition candidateLinks (data : Update.t) : list ConceptLink.t :=
  default [] (Update.newLinks data).

(** Number of elements that satisfy [p]. *)
Definition countIf {A : Type} (p : A -> bool) (l : list A) : nat :=
  length (List.filter p l).

(** The node a label resolves to: the first node whose label matches it up
    to case, as looked up by [addNode] and [addLink]. *)
Definition resolve (toLowerCase : string -> string) (newNodes : list ConceptNode.t)
    (s : string) : option ConceptNode.t :=
  find (fun n => sameLabel toLowerCase (ConceptNode.label n) s) newNodes.

(** The node object that [addNode] pushes for a candidate. *)
Definition nodeOf (c : Update.node) : ConceptNode.t :=
  ConceptNode.mk (Update.label c) (Update.label c) 0 0 None None.

(** Number of nodes whose label, with the case folded, is [L]. *)
Definition countLabel (toLowerCase : string -> string) (L : string)
    (newNodes : list ConceptNode.t) : nat :=
  countIf (fun n => String.eqb (toLowerCase (ConceptNode.label n)) L) newNodes.

(** Two links join the same ordered pair of labels up to case. *)
Definition samePair (toLowerCase : string -> string) (a b : ConceptLink.t) : bool :=
  sameLabel toLowerCase (ConceptLink.source a) (ConceptLink.source b)
  && sameLabel toLowerCase (ConceptLink.target a) (ConceptLink.target b).

(** The ordered pair of a link, with the case folded. *)
Definition foldedPair (toLowerCase : string -> string) (l : ConceptLink.t)
    : string * string :=
  (toLowerCase (ConceptLink.source l), toLowerCase (ConceptLink.target l)).

(** The state of a merged map that every merge keeps: labels are distinct up
    to case, ids are the labels, link ends are node labels, and no ordered
    pair of ends is stored twice. *)
Record wellFormed (toLowerCase : string -> string) (m : ConceptMap.t) : Prop := {
  wf_labels :
    NoDup (map (fun n => toLowerCase (ConceptNode.label n)) (ConceptMap.nodes m));
  wf_ids :
    Forall (fun n => ConceptNode.id n = ConceptNode.label n) (ConceptMap.nodes m);
  wf_ends :
    Forall (fun l =>
              ConceptLink.source l ∈ map ConceptNode.label (ConceptMap.nodes m)
              ∧ ConceptLink.target l ∈ map ConceptNode.label (ConceptMap.nodes m))
           (ConceptMap.links m);
  wf_pairs :
    NoDup (map (fun l => (ConceptLink.source l, ConceptLink.target l)) (ConceptMap.links m))
}.

(** A position is inside the margin of a [w] by [h] viewport. *)
Definition insideMargin (w h : Q) (n : ConceptNode.t) : Prop :=
  60 <= ConceptNode.x n /\ ConceptNode.x n <= w - 60 /\
  60 <= ConceptNode.y n /\ ConceptNode.y n <= h - 60.

(** The node is pinned to the pointer during this tick. *)
Definition pinned (draggedNodeId : option string) (dragPos : option Point.t)
    (n : ConceptNode.t) : bool :=
  isDragged draggedNodeId n && bool_decide (is_Some dragPos).

(** What the force phases may do to a node: they keep its id, label and
    position, and keep the dragged node as it is. *)
Definition velocityOnly (draggedNodeId : option string) (a b : ConceptNode.t) : Prop :=
  ConceptNode.id b = ConceptNode.id a /\ ConceptNode.label b = ConceptNode.label a
  /\ ConceptNode.x b = ConceptNode.x a /\ ConceptNode.y b = ConceptNode.y a
  /\ (isDragged draggedNodeId a = true -> b = a).

(** What the collision passes may do to a node: they keep its id and label,
    and keep the position of the dragged node. *)
Definition unmovedIfDragged (draggedNodeId : option string) (a b : ConceptNode.t) : Prop :=
  ConceptNode.id b = ConceptNode.id a /\ ConceptNode.label b = ConceptNode.label a
  /\ (isDragged draggedNodeId a = true ->
       ConceptNode.x b = ConceptNode.x a /\ ConceptNode.y b = ConceptNode.y a).





(** The velocity of a node that is not pinned after damping by 0.65,
    clamping to [-8, 8] and snapping below 0.05, for one axis. *)
Definition dampedVelocity (v : option Q) : Q :=
  let v := Math_max (- 8) (Math_min 8 (or0 v * 0.65)) in
  if Qltb (Math_abs v) 0.05 then 0 else v.

(** Required distances between the centres of two footprints. *)
Definition minWidth (u v : ConceptNode.t) : Q :=
  (Dimensions.width (getNodeDimensions (ConceptNode.label u))
   + Dimensions.width (getNodeDimensions (ConceptNode.label v))) / 2 + 30.

Definition minHeight (u v : ConceptNode.t) : Q :=
  (Dimensions.height (getNodeDimensions (ConceptNode.label u))
   + Dimensions.height (getNodeDimensions (ConceptNode.label v))) / 2 + 30.

(** The footprints of two nodes, widened by the padding, do not overlap: the
    centres are far enough apart on one axis. *)
Definition apart (u v : ConceptNode.t) : Prop :=
  minWidth u v <= Qabs (ConceptNode.x u - ConceptNode.x v)
  \/ minHeight u v <= Qabs (ConceptNode.y u - ConceptNode.y v).

(** The centres of two nodes are at distance [r] or more. *)
Definition centresApart (r : Q) (u v : ConceptNode.t) : Prop :=
  r * r <= (ConceptNode.x u - ConceptNode.x v) * (ConceptNode.x u - ConceptNode.x v)
           + (ConceptNode.y u - ConceptNode.y v) * (ConceptNode.y u - ConceptNode.y v).

(** The centre of [m] is on the circle of radius [r] around that of [peer]. *)
Definition onRing (peer : ConceptNode.t) (r : Q) (m : ConceptNode.t) : Prop :=
  (ConceptNode.x m - ConceptNode.x peer) * (ConceptNode.x m - ConceptNode.x peer)
  + (ConceptNode.y m - ConceptNode.y peer) * (ConceptNode.y m - ConceptNode.y peer)
  == r * r.

(** The other end of a link that touches the node labelled [label]. *)
Definition peerLabelOf (label : string) (connectedLink : ConceptLink.t) : string :=
  if String.eqb (ConceptLink.source connectedLink) label
  then ConceptLink.target connectedLink
  else ConceptLink.source connectedLink.

(** ** Sample inputs *)

(** Stand-ins for the parameters of the seeding: a fixed point of the unit
    circle for [Math.cos] and [Math.sin], a rational near pi, and the draws
    1/2, 1/3, 1/4, ... for [Math.random]. *)
Definition sampleCos (_ : Q) : Q := 3 # 5.
Definition sampleSin (_ : Q) : Q := 4 # 5.
Definition samplePI : Q := 355 # 113.
Definition sampleRandom (i : nat) : Q := 1 # Pos.of_nat (i + 2).

(** A node at rest, as the layout keeps it. *)
Definition nodeAt (label : string) (x y : Q) : ConceptNode.t :=
  ConceptNode.mk label label x y (Some 0) (Some 0).

(** A node of the concept map, as the merge stores it. *)
Definition mapNode (label : string) : ConceptNode.t := nodeOf (Update.mkNode label).

(** Two nodes with labels of one letter (footprints 120 wide, so 150 between
    the centres is required), 50 apart on one line. *)
Definition closePair : list ConceptNode.t := [nodeAt "A" 100 100; nodeAt "B" 150 100].

(** Two nodes at the same place, joined by a link, and a third one apart. *)
Definition stackedNodes : list ConceptNode.t :=
  [nodeAt "A" 400 300; nodeAt "B" 400 300; nodeAt "C" 200 100].

Definition stackedLinks : list ConceptLink.t := [ConceptLink.mk "A" "B" None].

(** An operator that is the quotient where the divisor is not 0, and a huge
    number where it is. *)
Definition sampleDivide (a b : Q) : Q := if Qeq_bool b 0 then 1000000000 else a / b.

(** A function that is [sqrtApprox] where the argument is not negative. *)
Definition sampleSqrt (q : Q) : Q := if Qltb q 0 then - 1 else sqrtApprox q.

(** A new node "B" whose first link leads to the new node "C" and whose
    second link leads to the seeded node "A". *)
Definition laterLinkToSeeded : list ConceptLink.t :=
  [ConceptLink.mk "B" "C" None; ConceptLink.mk "B" "A" None].

(** Two new nodes "B" and "C", each linked to the new node "D" only. *)
Definition bothLinkedToLater : list ConceptLink.t :=
  [ConceptLink.mk "B" "D" None; ConceptLink.mk "C" "D" None].


(** Two replies: first the node "Photosynthesis" alone, then the node
    "Chlorophyll" with a link whose ends are written in another casing. *)
Definition photosynthesisUpdates : list Update.t :=
  [ Update.mk (Some [Update.mkNode "Photosynthesis"]) None;
    Update.mk (Some [Update.mkNode "Chlorophyll"])
              (Some [ConceptLink.mk "photosynthesis" "CHLOROPHYLL" (Some "uses")]) ].

Definition usesLink : ConceptLink.t :=
  ConceptLink.mk "Photosynthesis" "Chlorophyll" (Some "uses").

(** The same link proposed again, in another casing and with another label. *)
Definition usesAgain : Update.t :=
  Update.mk None (Some [ConceptLink.mk "PHOTOSYNTHESIS" "chlorophyll" (Some "needs")]).

(** The reply that proposes "Democracy" and "democracy" together. *)
Definition democracyTwice : Update.t :=
  Update.mk (Some [Update.mkNode "Democracy"; Update.mkNode "democracy"]) None.

(** The reply that proposes "Democracy" and "democracy" together with a
    link whose ends are written in a third casing. *)
Definition democracyLinked : Update.t :=
  Update.mk (Some [Update.mkNode "Democracy"; Update.mkNode "democracy"])
            (Some [ConceptLink.mk "DEMOCRACY" "photosynthesis" (Some "needs")]).

(** A map that already has the node "democracy". *)
Definition mapWithDemocracy : ConceptMap.t :=
  ConceptMap.mk [nodeOf (Update.mkNode "democracy")] [].

(** ** Vocabulary and sample inputs of the further properties *)

(** A candidate label matches, up to case, a node of the map or a candidate
    node of the same reply. *)
Definition labelKnown (toLowerCase : string -> string) (data : Update.t)
    (cur : ConceptMap.t) (label : string) : Prop :=
  (exists n, n ∈ ConceptMap.nodes cur
             /\ sameLabel toLowerCase (ConceptNode.label n) label = true)
  \/ (exists c, c ∈ candidateNodes data
                /\ sameLabel toLowerCase (Update.label c) label = true).

(** The layout holds the node [n] of the map: the first entry with the id
    of [n] has the label of [n]. *)
Definition settled (layout : list ConceptNode.t) (n : ConceptNode.t) : Prop :=
  exists i e,
    list_find (fun en => ConceptNode.id en = ConceptNode.id n) layout = Some (i, e)
    /\ ConceptNode.label e = ConceptNode.label n.

(** Seeding may refresh the label of an entry and nothing else. *)
Definition sameButLabel (a b : ConceptNode.t) : Prop :=
  ConceptNode.id b = ConceptNode.id a
  /\ ConceptNode.x b = ConceptNode.x a /\ ConceptNode.y b = ConceptNode.y a
  /\ ConceptNode.vx b = ConceptNode.vx a /\ ConceptNode.vy b = ConceptNode.vy a.

(** The layout after a run of animation frames, one tick per frame, each
    with the drag state of its frame. *)
Definition layoutAfter (divide : Q -> Q -> Q) (Math_sqrt : Q -> Q)
    (links : list ConceptLink.t) (width height : Q)
    (frames : list (option string * option Point.t))
    (layout : list ConceptNode.t) : list ConceptNode.t :=
  fold_left (fun ns frame => simulate divide Math_sqrt links width height frame.1 frame.2 ns)
            frames layout.

(** [pat] occurs somewhere in [text]. *)
Fixpoint occursIn (pat text : list ascii) : bool :=
  startsWith pat text
  || match text with
     | [] => false
     | _ :: rest => occursIn pat rest
     end.

(** The text handed to the second [JSON.parse] of [parseJSON]. *)
Definition cleaned (isSpace : ascii -> bool) (text : list ascii) : list ascii :=
  extractJSON (removeAll isSpace fence (removeAll isSpace jsonFence text)).

(** The reply gives [parseJSON] nothing to parse: it is missing or empty,
    or [JSON.parse] throws on it and on its cleaned text. *)
Definition unreadable {J : Type} (JSON_parse : list ascii -> option J)
    (isSpace : ascii -> bool) (text : option (list ascii)) : Prop :=
  match text with
  | None => True
  | Some [] => True
  | Some text => JSON_parse text = None /\ JSON_parse (cleaned isSpace text) = None
  end.

(** The misconceptions that the store holds. *)
Definition remembered (store : MemoryStore) : list string :=
  StudentMemory.misconceptions (getMemory store).

(** Two nodes at rest, far from each other. *)
Definition restingPair : list ConceptNode.t := [nodeAt "A" 100 100; nodeAt "B" 400 300].

(** A parser that reads the text of the empty object and nothing else. *)
Definition sampleParse (text : list ascii) : option Update.t :=
  match text with
  | ["{"; "}"]%char => Some (Update.mk None None)
  | _ => None
  end.

(** A reply with two new nodes and a link between them, written in another
    casing. *)
Definition lightReaction : Update.t :=
  Update.mk (Some [Update.mkNode "Light"; Update.mkNode "Glucose"])
            (Some [ConceptLink.mk "light" "GLUCOSE" (Some "drives")]).

(** The white space of ASCII, for the class [\s]. *)
Definition asciiSpace (c : ascii) : bool :=
  let n := nat_of_ascii c in
  (n =? 32)%nat || ((9 <=? n)%nat && (n <=? 13)%nat).

(** ** Facts about lists *)

Section ListFacts.
Context {A : Type}.
Implicit Types (p : A -> bool) (l : list A).

Lemma find_app_Some p l l' a : find p l = Some a -> find p (l ++ l') = Some a.
Proof.
  induction l as [|b l IH]; simpl; [discriminate|].
  destruct (p b); auto.
Qed.

Lemma find_app_None p l l' : find p l = None -> find p (l ++ l') = find p l'.
Proof.
  induction l as [|b l IH]; simpl; [reflexivity|].
  destruct (p b); [discriminate|auto].
Qed.

Lemma find_None_iff p l : find p l = None <-> forall a, a ∈ l -> p a = false.
Proof.
  split.
  - intros H a Ha. apply (find_none _ _ H). by apply list_elem_of_In.
  - induction l as [|b l IH]; simpl; intros H; [reflexivity|].
    rewrite (H b) by left. apply IH. intros a Ha. apply H. by right.
Qed.

Lemma find_Some_elem p l a : find p l = Some a -> a ∈ l /\ p a = true.
Proof. intros H. destruct (find_some _ _ H). split; [by apply list_elem_of_In|done]. Qed.

Lemma find_is_Some p l a : a ∈ l -> p a = true -> is_Some (find p l).
Proof.
  intros Ha Hp. destruct (find p l) eqn:E; [eauto|].
  rewrite find_None_iff in E. rewrite (E a Ha) in Hp. discriminate.
Qed.

Lemma countIf_app p l l' : countIf p (l ++ l') = (countIf p l + countIf p l')%nat.
Proof. unfold countIf. by rewrite List.filter_app, length_app. Qed.

Lemma countIf_zero p l : countIf p l = 0%nat <-> forall a, a ∈ l -> p a = false.
Proof.
  unfold countIf. induction l as [|b l IH]; simpl.
  - split; [intros _ a Ha; inversion Ha|done].
  - destruct (p b) eqn:E; simpl.
    + split; [discriminate|]. intros H. rewrite (H b) in E by left. discriminate.
    + rewrite IH. split.
      * intros H a Ha. inversion Ha; subst; auto.
      * intros H a Ha. apply H. by right.
Qed.

(** Under a key without repetition, at most one element has a given key. *)
Lemma countIf_NoDup_key {K : Type} (key : A -> K) (c : K) p l :
  NoDup (map key l) -> (forall a, a ∈ l -> p a = true -> key a = c) ->
  (countIf p l <= 1)%nat.
Proof.
  induction l as [|b l IH]; simpl; intros Hnd Hp; [unfold countIf; simpl; lia|].
  apply NoDup_cons in Hnd as [Hb Hnd].
  assert (IHl : (countIf p l <= 1)%nat).
  { apply IH; [done|]. intros a Ha. apply Hp. by right. }
  unfold countIf in *. simpl. destruct (p b) eqn:E; simpl; [|done].
  assert (Hz : countIf p l = 0%nat).
  { apply countIf_zero. intros a Ha. destruct (p a) eqn:Ea; [|done].
    exfalso. apply Hb.
    assert (Hkb : key b = c) by (apply Hp; [left|done]).
    assert (Hka : key a = c) by (apply Hp; [by right|done]).
    apply list_elem_of_fmap. exists a. split; [congruence|done]. }
  unfold countIf in Hz. lia.
Qed.

End ListFacts.

Section ListKeys.
Context {A K : Type} (key : A -> K).

Lemma NoDup_key_inj (l : list A) a b :
  NoDup (map key l) -> a ∈ l -> b ∈ l -> key a = key b -> a = b.
Proof.
  induction l as [|c l IH]; intros Hnd Ha Hb Hk; [inversion Ha|].
  simpl in Hnd. apply NoDup_cons in Hnd as [Hc Hnd].
  assert (Hin : forall d, d ∈ l -> key d ∈ map key l).
  { intros d Hd. apply list_elem_of_fmap. eauto. }
  apply elem_of_cons in Ha as [->|Ha]; apply elem_of_cons in Hb as [->|Hb]; auto.
  - exfalso. apply Hc. rewrite Hk. auto.
  - exfalso. apply Hc. rewrite <- Hk. auto.
Qed.

Lemma NoDup_key_snoc (l : list A) a :
  NoDup (map key l) -> (forall b, b ∈ l -> key b <> key a) -> NoDup (map key (l ++ [a])).
Proof.
  intros Hnd Hne. rewrite map_app. apply NoDup_app. split; [done|]. split.
  - intros k Hk Hk'. simpl in Hk'. apply list_elem_of_singleton in Hk'. subst k.
    apply list_elem_of_fmap in Hk as (b & Hb & Hbl). by apply (Hne b).
  - simpl. apply NoDup_singleton.
Qed.

End ListKeys.

(** ** GraphModel: facts about the merge *)

Section GraphModelFacts.
Variable toLowerCase : string -> string.

Local Abbreviation merge := (generateConceptMapUpdate toLowerCase).
Local Abbreviation same := (sameLabel toLowerCase).
Local Abbreviation after := (conceptMapAfter toLowerCase).
Local Abbreviation lower n := (toLowerCase (ConceptNode.label n)).

Lemma sameLabel_true a b : same a b = true <-> toLowerCase a = toLowerCase b.
Proof. apply String.eqb_eq. Qed.

Lemma sameLabel_false a b : same a b = false <-> toLowerCase a <> toLowerCase b.
Proof. apply String.eqb_neq. Qed.

Lemma resolve_Some ns s n :
  resolve toLowerCase ns s = Some n -> n ∈ ns /\ lower n = toLowerCase s.
Proof.
  intros H. apply find_Some_elem in H as [Hn Hs]. by rewrite sameLabel_true in Hs.
Qed.

Lemma resolve_None ns s :
  resolve toLowerCase ns s = None <-> forall n, n ∈ ns -> lower n <> toLowerCase s.
Proof.
  unfold resolve. rewrite find_None_iff. split; intros H n Hn.
  - apply sameLabel_false; auto.
  - apply sameLabel_false; auto.
Qed.

Lemma addNode_resolve ns c :
  addNode toLowerCase ns c =
    match resolve toLowerCase ns (Update.label c) with
    | Some _ => ns
    | None => ns ++ [nodeOf c]
    end.
Proof. reflexivity. Qed.

(** *** The node pass *)

Lemma addNodes_grow cs : forall ns,
  exists added,
    fold_left (addNode toLowerCase) cs ns = ns ++ added
    /\ Forall (fun n => exists c, c ∈ cs /\ n = nodeOf c) added.
Proof.
  induction cs as [|c cs IH]; intros ns; simpl.
  - exists []. by rewrite app_nil_r.
  - destruct (IH (addNode toLowerCase ns c)) as (added & -> & Hadd).
    rewrite addNode_resolve. destruct (resolve _ _ _).
    + exists added. split; [done|].
      eapply Forall_impl; [exact Hadd|]. intros n (c' & Hc' & ->). exists c'. split; [by right|done].
    + exists (nodeOf c :: added). split; [by rewrite <- app_assoc|].
      constructor; [exists c; split; [left|done]|].
      eapply Forall_impl; [exact Hadd|]. intros n (c' & Hc' & ->). exists c'. split; [by right|done].
Qed.

(** What a label resolves to once the candidates are merged: the node it
    resolved to before, else the node of the first candidate that matches
    it up to case. *)
Lemma resolve_addNodes cs : forall ns s,
  resolve toLowerCase (fold_left (addNode toLowerCase) cs ns) s =
    match resolve toLowerCase ns s with
    | Some n => Some n
    | None => nodeOf <$> find (fun c => same (Update.label c) s) cs
    end.
Proof.
  induction cs as [|c cs IH]; intros ns s; simpl.
  - by destruct (resolve _ _ _).
  - rewrite IH, addNode_resolve.
    destruct (resolve toLowerCase ns (Update.label c)) as [n|] eqn:Ec.
    + destruct (resolve toLowerCase ns s) eqn:Es; [done|].
      destruct (same (Update.label c) s) eqn:Esame; [|done].
      exfalso. apply resolve_Some in Ec as [Hn Hl].
      rewrite resolve_None in Es. apply (Es n Hn).
      apply sameLabel_true in Esame. congruence.
    + unfold resolve at 1. destruct (resolve toLowerCase ns s) as [n|] eqn:Es.
      * unfold resolve in Es. by rewrite (find_app_Some _ _ _ _ Es).
      * unfold resolve in Es. rewrite (find_app_None _ _ _ Es). simpl.
        by destruct (same (Update.label c) s).
Qed.

Lemma addNodes_labels_distinct cs : forall ns,
  NoDup (map (fun n => lower n) ns) ->
  NoDup (map (fun n => lower n) (fold_left (addNode toLowerCase) cs ns)).
Proof.
  induction cs as [|c cs IH]; intros ns Hnd; simpl; [done|].
  apply IH. rewrite addNode_resolve.
  destruct (resolve _ _ _) eqn:E; [done|].
  apply NoDup_key_snoc; [done|]. by apply resolve_None.
Qed.

Lemma addNodes_ids cs ns :
  Forall (fun n => ConceptNode.id n = ConceptNode.label n) ns ->
  Forall (fun n => ConceptNode.id n = ConceptNode.label n)
         (fold_left (addNode toLowerCase) cs ns).
Proof.
  intros H. destruct (addNodes_grow cs ns) as (added & -> & Hadd).
  apply Forall_app. split; [done|].
  eapply Forall_impl; [exact Hadd|]. by intros n (c & _ & ->).
Qed.

Lemma countLabel_snoc L ns n :
  countLabel toLowerCase L (ns ++ [n]) =
    (countLabel toLowerCase L ns + if String.eqb (lower n) L then 1 else 0)%nat.
Proof.
  unfold countLabel. rewrite countIf_app. f_equal.
  unfold countIf. simpl. by destruct (String.eqb _ _).
Qed.

Lemma countLabel_addNodes L cs : forall ns,
  countLabel toLowerCase L (fold_left (addNode toLowerCase) cs ns) =
    if Nat.eqb (countLabel toLowerCase L ns) 0
       && existsb (fun c => String.eqb (toLowerCase (Update.label c)) L) cs
    then 1%nat else countLabel toLowerCase L ns.
Proof.
  induction cs as [|c cs IH]; intros ns; simpl.
  - by rewrite andb_false_r.
  - rewrite IH, addNode_resolve.
    destruct (resolve toLowerCase ns (Update.label c)) as [n|] eqn:Ec.
    + destruct (Nat.eqb_spec (countLabel toLowerCase L ns) 0) as [Hz|Hnz]; [|done].
      simpl. destruct (String.eqb_spec (toLowerCase (Update.label c)) L) as [HL|HL]; [|done].
      exfalso. apply resolve_Some in Ec as [Hn Hl].
      apply countIf_zero with (a := n) in Hz; [|done].
      apply String.eqb_neq in Hz. congruence.
    + rewrite countLabel_snoc. simpl.
      destruct (String.eqb_spec (toLowerCase (Update.label c)) L) as [HL|HL]; simpl.
      * assert (Hz : countLabel toLowerCase L ns = 0%nat).
        { apply countIf_zero. intros n Hn. apply String.eqb_neq.
          rewrite resolve_None in Ec. rewrite <- HL. by apply Ec. }
        rewrite Hz. reflexivity.
      * by rewrite Nat.add_0_r.
Qed.

(** *** The link pass *)

Lemma addLink_resolve ns ls c :
  addLink toLowerCase ns ls c =
    match resolve toLowerCase ns (ConceptLink.source c),
          resolve toLowerCase ns (ConceptLink.target c) with
    | Some s, Some t =>
        match find (fun el => String.eqb (ConceptLink.source el) (ConceptNode.label s)
                              && String.eqb (ConceptLink.target el) (ConceptNode.label t)) ls with
        | Some _ => ls
        | None =>
            ls ++ [ConceptLink.mk (ConceptNode.label s) (ConceptNode.label t)
                     (ConceptLink.label c)]
        end
    | _, _ => ls
    end.
Proof. reflexivity. Qed.

Lemma stored_pair_eqb el s t :
  String.eqb (ConceptLink.source el) s && String.eqb (ConceptLink.target el) t = true
  <-> (ConceptLink.source el, ConceptLink.target el) = (s, t).
Proof.
  rewrite andb_true_iff, !String.eqb_eq. split; [intros [-> ->]; done|].
  intros H. by inversion H.
Qed.

(** One candidate: the list is kept, or one link with resolved ends that was
    not stored before is pushed. *)
Lemma addLink_cases ns ls c :
  addLink toLowerCase ns ls c = ls
  \/ exists s t,
       resolve toLowerCase ns (ConceptLink.source c) = Some s
       /\ resolve toLowerCase ns (ConceptLink.target c) = Some t
       /\ ((ConceptNode.label s, ConceptNode.label t)
            ∉ map (fun l => (ConceptLink.source l, ConceptLink.target l)) ls)
       /\ addLink toLowerCase ns ls c =
            ls ++ [ConceptLink.mk (ConceptNode.label s) (ConceptNode.label t)
                     (ConceptLink.label c)].
Proof.
  rewrite addLink_resolve.
  destruct (resolve _ _ (ConceptLink.source c)) as [s|]; [|by left].
  destruct (resolve _ _ (ConceptLink.target c)) as [t|]; [|by left].
  destruct (find _ ls) eqn:E; [by left|]. right. exists s, t.
  repeat split; try done.
  intros Hin. apply list_elem_of_fmap in Hin as (el & Hel & Hin).
  rewrite find_None_iff in E. specialize (E el Hin). simpl in E.
  assert (Ht : String.eqb (ConceptLink.source el) (ConceptNode.label s)
               && String.eqb (ConceptLink.target el) (ConceptNode.label t) = true).
  { apply stored_pair_eqb. congruence. }
  congruence.
Qed.

(** Once a candidate with resolved ends is processed, its pair is stored. *)
Lemma addLink_stored ns ls c s t :
  resolve toLowerCase ns (ConceptLink.source c) = Some s ->
  resolve toLowerCase ns (ConceptLink.target c) = Some t ->
  exists el, el ∈ addLink toLowerCase ns ls c
             /\ ConceptLink.source el = ConceptNode.label s
             /\ ConceptLink.target el = ConceptNode.label t.
Proof.
  intros Hs Ht. rewrite addLink_resolve, Hs, Ht.
  destruct (find _ ls) as [el|] eqn:E.
  - apply find_Some_elem in E as [Hel Hp]. apply stored_pair_eqb in Hp.
    exists el. by inversion Hp.
  - eexists. split; [apply elem_of_app; right; apply list_elem_of_singleton; reflexivity|done].
Qed.

Lemma addLinks_grow ns cs : forall ls,
  exists added, fold_left (addLink toLowerCase ns) cs ls = ls ++ added.
Proof.
  induction cs as [|c cs IH]; intros ls; simpl.
  - exists []. by rewrite app_nil_r.
  - destruct (IH (addLink toLowerCase ns ls c)) as (added & ->).
    destruct (addLink_cases ns ls c) as [->|(s & t & _ & _ & _ & ->)]; [eauto|].
    rewrite <- app_assoc. eauto.
Qed.

(** Every link of the result was stored before, or is a candidate of this
    pass with both ends resolved and rewritten to the labels of the nodes. *)
Lemma addLinks_origin ns cs : forall ls l,
  l ∈ fold_left (addLink toLowerCase ns) cs ls ->
  l ∈ ls
  \/ exists c s t,
       c ∈ cs
       /\ resolve toLowerCase ns (ConceptLink.source c) = Some s
       /\ resolve toLowerCase ns (ConceptLink.target c) = Some t
       /\ l = ConceptLink.mk (ConceptNode.label s) (ConceptNode.label t) (ConceptLink.label c).
Proof.
  induction cs as [|c cs IH]; intros ls l; simpl; [by left|].
  intros Hl. apply IH in Hl as [Hl|(c' & s & t & Hc' & Hs & Ht & ->)].
  - destruct (addLink_cases ns ls c) as [E|(s & t & Hs & Ht & _ & E)];
      rewrite E in Hl; [by left|].
    apply elem_of_app in Hl as [Hl|Hl]; [by left|].
    apply list_elem_of_singleton in Hl. right. exists c, s, t. repeat split; try done. left.
  - right. exists c', s, t. repeat split; try done. by right.
Qed.

Lemma addLinks_pairs ns cs : forall ls,
  NoDup (map (fun l => (ConceptLink.source l, ConceptLink.target l)) ls) ->
  NoDup (map (fun l => (ConceptLink.source l, ConceptLink.target l))
             (fold_left (addLink toLowerCase ns) cs ls)).
Proof.
  induction cs as [|c cs IH]; intros ls Hnd; simpl; [done|].
  apply IH. destruct (addLink_cases ns ls c) as [->|(s & t & _ & _ & Hnew & ->)]; [done|].
  apply NoDup_key_snoc; [done|]. intros b Hb Hk. apply Hnew.
  apply list_elem_of_fmap. exists b. split; [by rewrite Hk|done].
Qed.

Lemma addLinks_stored ns cs : forall ls c s t,
  c ∈ cs ->
  resolve toLowerCase ns (ConceptLink.source c) = Some s ->
  resolve toLowerCase ns (ConceptLink.target c) = Some t ->
  exists el, el ∈ fold_left (addLink toLowerCase ns) cs ls
             /\ ConceptLink.source el = ConceptNode.label s
             /\ ConceptLink.target el = ConceptNode.label t.
Proof.
  induction cs as [|c0 cs IH]; intros ls c s t Hc Hs Ht; [inversion Hc|]. simpl.
  apply elem_of_cons in Hc as [->|Hc]; [|eauto].
  destruct (addLink_stored ns ls c0 s t Hs Ht) as (el & Hel & Hsrc & Htgt).
  destruct (addLinks_grow ns cs (addLink toLowerCase ns ls c0)) as (added & ->).
  exists el. split; [apply elem_of_app; by left|done].
Qed.

(** *** One merge *)

Lemma merge_nodes data cur :
  ConceptMap.nodes (merge data cur) =
    fold_left (addNode toLowerCase) (candidateNodes data) (ConceptMap.nodes cur).
Proof. unfold generateConceptMapUpdate, candidateNodes. simpl. by destruct (Update.newNodes data). Qed.

Lemma merge_links data cur :
  ConceptMap.links (merge data cur) =
    fold_left (addLink toLowerCase (ConceptMap.nodes (merge data cur)))
              (candidateLinks data) (ConceptMap.links cur).
Proof. unfold generateConceptMapUpdate, candidateLinks. simpl. by destruct (Update.newLinks data). Qed.

Lemma merge_nodes_grow data cur :
  exists added,
    ConceptMap.nodes (merge data cur) = ConceptMap.nodes cur ++ added
    /\ Forall (fun n => exists c, c ∈ candidateNodes data /\ n = nodeOf c) added.
Proof. rewrite merge_nodes. apply addNodes_grow. Qed.

Lemma merge_links_grow data cur :
  exists added, ConceptMap.links (merge data cur) = ConceptMap.links cur ++ added.
Proof. rewrite merge_links. apply addLinks_grow. Qed.

Lemma merge_wellFormed data cur :
  wellFormed toLowerCase cur -> wellFormed toLowerCase (merge data cur).
Proof.
  intros [Hlab Hids Hends Hpairs]. split.
  - rewrite merge_nodes. by apply addNodes_labels_distinct.
  - rewrite merge_nodes. by apply addNodes_ids.
  - apply Forall_forall. intros l Hl. rewrite merge_links in Hl.
    apply addLinks_origin in Hl as [Hl|(c & s & t & _ & Hs & Ht & ->)].
    + rewrite Forall_forall in Hends. destruct (Hends l Hl) as [H1 H2].
      destruct (merge_nodes_grow data cur) as (added & -> & _).
      rewrite map_app. split; apply elem_of_app; by left.
    + apply resolve_Some in Hs as [Hs _]. apply resolve_Some in Ht as [Ht _]. simpl.
      split; apply list_elem_of_fmap; eauto.
  - rewrite merge_links. by apply addLinks_pairs.
Qed.

(** *** Any number of merges *)

Lemma after_snoc updates data :
  after (updates ++ [data]) = merge data (after updates).
Proof. unfold conceptMapAfter. by rewrite fold_left_app. Qed.

Lemma after_wellFormed updates : wellFormed toLowerCase (after updates).
Proof.
  induction updates as [|data updates IH] using rev_ind.
  - split; simpl; constructor.
  - rewrite after_snoc. by apply merge_wellFormed.
Qed.

Lemma after_links_grow updates more :
  exists added,
    ConceptMap.links (after (updates ++ more)) = ConceptMap.links (after updates) ++ added.
Proof.
  induction more as [|data more IH] using rev_ind.
  - exists []. by rewrite !app_nil_r.
  - destruct IH as (added & IH). rewrite app_assoc, after_snoc.
    destruct (merge_links_grow data (after (updates ++ more))) as (added' & ->).
    rewrite IH, <- app_assoc. eauto.
Qed.

(** In a well-formed map a label that is stored resolves to its own node. *)
Lemma wellFormed_resolve_own m n :
  wellFormed toLowerCase m -> n ∈ ConceptMap.nodes m ->
  resolve toLowerCase (ConceptMap.nodes m) (ConceptNode.label n) = Some n.
Proof.
  intros Hwf Hn.
  destruct (resolve toLowerCase (ConceptMap.nodes m) (ConceptNode.label n)) as [n'|] eqn:E.
  - apply resolve_Some in E as [Hn' Hl]. f_equal.
    by apply (NoDup_key_inj (fun n => lower n) (ConceptMap.nodes m)); [apply Hwf|..].
  - rewrite resolve_None in E. by destruct (E n Hn).
Qed.

Lemma wellFormed_foldedPairs m :
  wellFormed toLowerCase m ->
  NoDup (map (foldedPair toLowerCase) (ConceptMap.links m)).
Proof.
  intros [Hlab _ Hends Hpairs].
  assert (Hinj : forall a b, a ∈ map ConceptNode.label (ConceptMap.nodes m) ->
                             b ∈ map ConceptNode.label (ConceptMap.nodes m) ->
                             toLowerCase a = toLowerCase b -> a = b).
  { intros a b Ha Hb Hab.
    apply list_elem_of_fmap in Ha as (na & -> & Hna).
    apply list_elem_of_fmap in Hb as (nb & -> & Hnb).
    f_equal. by apply (NoDup_key_inj (fun n => lower n) (ConceptMap.nodes m)). }
  rewrite Forall_forall in Hends.
  induction (ConceptMap.links m) as [|l ls IH]; simpl; [constructor|].
  simpl in Hpairs. apply NoDup_cons in Hpairs as [Hl Hpairs].
  apply NoDup_cons. split.
  - intros Hin. apply Hl. apply list_elem_of_fmap in Hin as (l' & Hl' & Hin).
    apply list_elem_of_fmap. exists l'. split; [|done].
    unfold foldedPair in Hl'. inversion Hl' as [[Hs Ht]].
    destruct (Hends l ltac:(left)) as [? ?].
    destruct (Hends l' ltac:(by right)) as [? ?].
    f_equal; by apply Hinj.
  - apply IH; [|done]. intros l' Hl'. apply Hends. by right.
Qed.

Lemma resolve_ext ns s s' :
  toLowerCase s = toLowerCase s' -> resolve toLowerCase ns s = resolve toLowerCase ns s'.
Proof.
  intros H. unfold resolve. induction ns as [|n ns IH]; simpl; [done|].
  unfold sameLabel at 1 3. by rewrite H, IH.
Qed.

(** *** The claims about the merge *)

(** C3. After any sequence of merges from the empty map, the source and the
    target of every stored link are labels of nodes of the map.  In one
    merge, a stored link is either one that was stored before, or comes from
    a candidate of this merge whose two ends resolve, up to case, to nodes of
    the merged node list, and it stores the labels of these nodes; so a
    candidate with an end that does not resolve leaves no link, in this merge
    or in a later one. *)
Theorem links_never_dangle (updates : list Update.t) :
  (forall l, l ∈ ConceptMap.links (after updates) ->
     exists s t,
       s ∈ ConceptMap.nodes (after updates) /\ t ∈ ConceptMap.nodes (after updates)
       /\ ConceptLink.source l = ConceptNode.label s
       /\ ConceptLink.target l = ConceptNode.label t)
  /\ (forall data cur l, l ∈ ConceptMap.links (merge data cur) ->
        l ∈ ConceptMap.links cur
        \/ exists c s t,
             c ∈ candidateLinks data
             /\ resolve toLowerCase (ConceptMap.nodes (merge data cur)) (ConceptLink.source c) = Some s
             /\ resolve toLowerCase (ConceptMap.nodes (merge data cur)) (ConceptLink.target c) = Some t
             /\ l = ConceptLink.mk (ConceptNode.label s) (ConceptNode.label t)
                      (ConceptLink.label c)).
Proof.
  split.
  - intros l Hl. destruct (after_wellFormed updates) as [_ _ Hends _].
    rewrite Forall_forall in Hends. destruct (Hends l Hl) as [Hs Ht].
    apply list_elem_of_fmap in Hs as (s & Hs & Hsn).
    apply list_elem_of_fmap in Ht as (t & Ht & Htn). by exists s, t.
  - intros data cur l Hl. rewrite merge_links in Hl. by apply addLinks_origin in Hl.
Qed.

(** C4, as amended.  For every folded label [L], a merge leaves the number of
    nodes with that label unchanged when the map has such a node, and brings
    it to exactly one when the map has none and some candidate has it: case
    variants of one label, stored or proposed together, never add a second
    node.  Merging the candidates "Democracy" and "democracy" adds exactly
    one node to a map in which the label does not resolve, and none to a map
    in which it does. *)
Theorem case_variants_counted_once (data : Update.t) (cur : ConceptMap.t) :
  (forall L,
     countLabel toLowerCase L (ConceptMap.nodes (merge data cur)) =
       if Nat.eqb (countLabel toLowerCase L (ConceptMap.nodes cur)) 0
          && existsb (fun c => String.eqb (toLowerCase (Update.label c)) L)
                     (candidateNodes data)
       then 1%nat else countLabel toLowerCase L (ConceptMap.nodes cur))
  /\ (toLowerCase "Democracy" = toLowerCase "democracy" ->
      Update.newNodes data = Some [Update.mkNode "Democracy"; Update.mkNode "democracy"] ->
      length (ConceptMap.nodes (merge data cur)) =
        (length (ConceptMap.nodes cur)
         + match resolve toLowerCase (ConceptMap.nodes cur) "democracy" with
           | Some _ => 0
           | None => 1
           end)%nat).
Proof.
  split.
  - intros L. rewrite merge_nodes. apply countLabel_addNodes.
  - intros Hcase Hdata. rewrite merge_nodes. unfold candidateNodes. rewrite Hdata. simpl.
    rewrite !addNode_resolve. simpl.
    rewrite <- (resolve_ext (ConceptMap.nodes cur) _ _ Hcase).
    destruct (resolve toLowerCase (ConceptMap.nodes cur) "Democracy") as [n|] eqn:E.
    + rewrite <- (resolve_ext (ConceptMap.nodes cur) _ _ Hcase), E. lia.
    + rewrite <- (resolve_ext _ _ _ Hcase). unfold resolve in *.
      rewrite (find_app_None _ _ _ E). simpl.
      assert (Hs : same "Democracy" "Democracy" = true) by by apply sameLabel_true.
      rewrite Hs. rewrite length_app. simpl. lia.
Qed.

(** C5. After any sequence of merges from the empty map no two stored links
    have the same ordered pair of ends, even up to case.  A candidate whose
    resolved pair is stored already leaves the link list as it is.  Once a
    candidate with resolving ends went through a merge, the map holds exactly
    one link for its pair, up to case, after that merge and after any later
    merges, whatever they propose for the pair and whatever the link labels. *)
Theorem one_link_per_pair (updates : list Update.t) :
  NoDup (map (foldedPair toLowerCase) (ConceptMap.links (after updates)))
  /\ (forall ns ls c s t el,
        resolve toLowerCase ns (ConceptLink.source c) = Some s ->
        resolve toLowerCase ns (ConceptLink.target c) = Some t ->
        el ∈ ls ->
        ConceptLink.source el = ConceptNode.label s ->
        ConceptLink.target el = ConceptNode.label t ->
        addLink toLowerCase ns ls c = ls)
  /\ (forall data more c,
        c ∈ candidateLinks data ->
        is_Some (resolve toLowerCase (ConceptMap.nodes (after (updates ++ [data])))
                   (ConceptLink.source c)) ->
        is_Some (resolve toLowerCase (ConceptMap.nodes (after (updates ++ [data])))
                   (ConceptLink.target c)) ->
        countIf (fun l => samePair toLowerCase l c)
                (ConceptMap.links (after (updates ++ data :: more))) = 1%nat).
Proof.
  split; [|split].
  - apply wellFormed_foldedPairs, after_wellFormed.
  - intros ns ls c s t el Hs Ht Hel Hsrc Htgt. rewrite addLink_resolve, Hs, Ht.
    destruct (find _ ls) eqn:E; [done|]. exfalso.
    rewrite find_None_iff in E. specialize (E el Hel). simpl in E.
    rewrite Hsrc, Htgt, !String.eqb_refl in E. discriminate.
  - intros data more c Hc [s Hs] [t Ht].
    assert (Hex : exists el, el ∈ ConceptMap.links (after (updates ++ data :: more))
                             /\ samePair toLowerCase el c = true).
    { rewrite after_snoc in Hs, Ht.
      destruct (addLinks_stored _ (candidateLinks data) (ConceptMap.links (after updates))
                  c s t Hc Hs Ht) as (el & Hel & Hsrc & Htgt).
      rewrite <- merge_links, <- after_snoc in Hel.
      replace (updates ++ data :: more) with ((updates ++ [data]) ++ more)
        by by rewrite <- app_assoc.
      destruct (after_links_grow (updates ++ [data]) more) as (added & ->).
      exists el. split; [apply elem_of_app; by left|].
      apply resolve_Some in Hs as [_ Hs]. apply resolve_Some in Ht as [_ Ht].
      unfold samePair. rewrite Hsrc, Htgt. apply andb_true_iff.
      split; by apply sameLabel_true. }
    assert (Hle : (countIf (fun l => samePair toLowerCase l c)
                     (ConceptMap.links (after (updates ++ data :: more))) <= 1)%nat).
    { apply (countIf_NoDup_key (foldedPair toLowerCase) (foldedPair toLowerCase c)).
      - apply wellFormed_foldedPairs, after_wellFormed.
      - intros l _ Hl. unfold samePair in Hl. apply andb_true_iff in Hl as [H1 H2].
        apply sameLabel_true in H1, H2. unfold foldedPair. by rewrite H1, H2. }
    destruct Hex as (el & Hel & Hsame).
    destruct (countIf _ _) as [|[|k]] eqn:E; [|done|lia].
    rewrite countIf_zero in E. rewrite (E el Hel) in Hsame. discriminate.
Qed.

(** C9. After any sequence of merges from the empty map and one more merge
    [data]: every node of the map has its id equal to its label; the nodes
    stored before are kept as they are, and each node pushed by the merge has
    the label of a candidate, verbatim, as id and as label; a label resolves
    to the node it resolved to before the merge, else to the node of the
    first candidate that matches it up to case; every stored node is what its
    own label resolves to, so that no second casing of a label is stored; a
    link pushed by the merge stores the labels of the nodes its candidate's
    ends resolve to; and for every candidate link whose ends resolve, the
    map holds after the merge a link that joins the labels of the nodes they
    resolve to, in the casing of those nodes. *)
Theorem stored_casing_is_the_earlier_one (updates : list Update.t) (data : Update.t) :
  Forall (fun n => ConceptNode.id n = ConceptNode.label n)
         (ConceptMap.nodes (merge data (after updates)))
  /\ (exists added,
        ConceptMap.nodes (merge data (after updates))
          = ConceptMap.nodes (after updates) ++ added
        /\ Forall (fun n => exists c, c ∈ candidateNodes data
                                      /\ ConceptNode.id n = Update.label c
                                      /\ ConceptNode.label n = Update.label c) added)
  /\ (forall s,
        resolve toLowerCase (ConceptMap.nodes (merge data (after updates))) s =
          match resolve toLowerCase (ConceptMap.nodes (after updates)) s with
          | Some n => Some n
          | None => nodeOf <$> find (fun c => same (Update.label c) s) (candidateNodes data)
          end)
  /\ (forall n, n ∈ ConceptMap.nodes (merge data (after updates)) ->
        resolve toLowerCase (ConceptMap.nodes (merge data (after updates)))
          (ConceptNode.label n) = Some n)
  /\ (forall l, l ∈ ConceptMap.links (merge data (after updates)) ->
        l ∈ ConceptMap.links (after updates)
        \/ exists c s t,
             c ∈ candidateLinks data
             /\ resolve toLowerCase (ConceptMap.nodes (merge data (after updates)))
                  (ConceptLink.source c) = Some s
             /\ resolve toLowerCase (ConceptMap.nodes (merge data (after updates)))
                  (ConceptLink.target c) = Some t
             /\ ConceptLink.source l = ConceptNode.label s
             /\ ConceptLink.target l = ConceptNode.label t)
  /\ (forall c s t,
        c ∈ candidateLinks data ->
        resolve toLowerCase (ConceptMap.nodes (merge data (after updates)))
          (ConceptLink.source c) = Some s ->
        resolve toLowerCase (ConceptMap.nodes (merge data (after updates)))
          (ConceptLink.target c) = Some t ->
        exists el,
          el ∈ ConceptMap.links (merge data (after updates))
          /\ ConceptLink.source el = ConceptNode.label s
          /\ ConceptLink.target el = ConceptNode.label t).
Proof.
  assert (Hwf : wellFormed toLowerCase (merge data (after updates)))
    by apply merge_wellFormed, after_wellFormed.
  split; [apply Hwf|]. split; [|split; [|split; [|split]]].
  - destruct (merge_nodes_grow data (after updates)) as (added & E & Hadd).
    exists added. split; [done|].
    eapply Forall_impl; [exact Hadd|]. intros n (c & Hc & ->). by exists c.
  - intros s. rewrite merge_nodes. apply resolve_addNodes.
  - intros n Hn. by apply wellFormed_resolve_own.
  - intros l Hl. rewrite merge_links in Hl.
    apply addLinks_origin in Hl as [Hl|(c & s & t & Hc & Hs & Ht & ->)]; [by left|].
    right. by exists c, s, t.
  - intros c s t Hc Hs Ht. rewrite merge_links.
    by apply (addLinks_stored _ (candidateLinks data) _ c s t).
Qed.

End GraphModelFacts.


(** ** The merge on the sample inputs *)

(** The two replies leave two nodes and one link, with the ends of the link
    in the casing of the nodes. *)
Example photosynthesis_map :
  conceptMapAfter asciiLowerCase photosynthesisUpdates
  = ConceptMap.mk [mapNode "Photosynthesis"; mapNode "Chlorophyll"] [usesLink].
Proof. reflexivity. Qed.

(** Proposing the link again, in another casing and with another label,
    changes nothing. *)
Example photosynthesis_map_again :
  generateConceptMapUpdate asciiLowerCase usesAgain
    (conceptMapAfter asciiLowerCase photosynthesisUpdates)
  = conceptMapAfter asciiLowerCase photosynthesisUpdates.
Proof. reflexivity. Qed.

(** A link to a label that no node has is not stored. *)
Example link_to_missing_label_dropped :
  ConceptMap.links
    (generateConceptMapUpdate asciiLowerCase
       (Update.mk None (Some [ConceptLink.mk "Photosynthesis" "Oxygen" None]))
       (conceptMapAfter asciiLowerCase photosynthesisUpdates))
  = [usesLink].
Proof. reflexivity. Qed.

Lemma links_never_dangle_witness :
  usesLink ∈ ConceptMap.links (conceptMapAfter asciiLowerCase photosynthesisUpdates)
  /\ exists s t,
       s ∈ ConceptMap.nodes (conceptMapAfter asciiLowerCase photosynthesisUpdates)
       /\ t ∈ ConceptMap.nodes (conceptMapAfter asciiLowerCase photosynthesisUpdates)
       /\ ConceptLink.source usesLink = ConceptNode.label s
       /\ ConceptLink.target usesLink = ConceptNode.label t.
Proof.
  assert (H : usesLink ∈ ConceptMap.links (conceptMapAfter asciiLowerCase photosynthesisUpdates)).
  { apply list_elem_of_In. vm_compute. by left. }
  split; [exact H|].
  exact (proj1 (links_never_dangle asciiLowerCase photosynthesisUpdates) usesLink H).
Defined.

Lemma case_variants_counted_once_witness :
  length (ConceptMap.nodes (generateConceptMapUpdate asciiLowerCase democracyTwice emptyMap)) = 1%nat
  /\ length (ConceptMap.nodes
               (generateConceptMapUpdate asciiLowerCase democracyTwice mapWithDemocracy)) = 1%nat.
Proof.
  split.
  - exact (proj2 (case_variants_counted_once asciiLowerCase democracyTwice emptyMap)
             eq_refl eq_refl).
  - exact (proj2 (case_variants_counted_once asciiLowerCase democracyTwice mapWithDemocracy)
             eq_refl eq_refl).
Defined.

(** C4, as stated, fails: merged into a map that has the node "democracy",
    the two candidates add no node at all. *)
Lemma democracy_twice_may_add_no_node :
  ~ (forall cur,
       length (ConceptMap.nodes (generateConceptMapUpdate asciiLowerCase democracyTwice cur))
       = S (length (ConceptMap.nodes cur))).
Proof. intros H. specialize (H mapWithDemocracy). vm_compute in H. discriminate. Qed.

Lemma one_link_per_pair_witness :
  countIf (fun l => samePair asciiLowerCase l (ConceptLink.mk "PHOTOSYNTHESIS" "chlorophyll" (Some "needs")))
          (ConceptMap.links
             (conceptMapAfter asciiLowerCase (photosynthesisUpdates ++ usesAgain :: [usesAgain])))
  = 1%nat.
Proof.
  apply (proj2 (proj2 (one_link_per_pair asciiLowerCase photosynthesisUpdates))
           usesAgain [usesAgain]).
  - apply list_elem_of_In. vm_compute. by left.
  - vm_compute. eauto.
  - vm_compute. eauto.
Defined.

Lemma stored_casing_is_the_earlier_one_witness :
  resolve asciiLowerCase
    (ConceptMap.nodes
       (generateConceptMapUpdate asciiLowerCase democracyTwice
          (conceptMapAfter asciiLowerCase photosynthesisUpdates)))
    "DEMOCRACY"
  = Some (nodeOf (Update.mkNode "Democracy"))
  /\ exists el,
       el ∈ ConceptMap.links
              (generateConceptMapUpdate asciiLowerCase democracyLinked
                 (conceptMapAfter asciiLowerCase photosynthesisUpdates))
       /\ ConceptLink.source el = "Democracy"%string
       /\ ConceptLink.target el = "Photosynthesis"%string.
Proof.
  split.
  - rewrite (proj1 (proj2 (proj2
               (stored_casing_is_the_earlier_one asciiLowerCase photosynthesisUpdates
                  democracyTwice)))).
    reflexivity.
  - apply (proj2 (proj2 (proj2 (proj2 (proj2
             (stored_casing_is_the_earlier_one asciiLowerCase photosynthesisUpdates
                democracyLinked)))))
             (ConceptLink.mk "DEMOCRACY" "photosynthesis" (Some "needs"))
             (nodeOf (Update.mkNode "Democracy")) (mapNode "Photosynthesis")).
    + apply list_elem_of_In. vm_compute. by left.
    + reflexivity.
    + reflexivity.
Defined.


(** ** Facts about numbers *)

Lemma Qltb_lt a b : Qltb a b = true <-> a < b.
Proof.
  unfold Qltb. rewrite negb_true_iff. split.
  - intros H. apply Qnot_le_lt. intros Hle. apply Qle_bool_iff in Hle. congruence.
  - intros H. destruct (Qle_bool b a) eqn:E; [|done]. apply Qle_bool_iff in E. lra.
Qed.

Lemma Qltb_ge a b : Qltb a b = false <-> b <= a.
Proof.
  unfold Qltb. rewrite negb_false_iff. apply Qle_bool_iff.
Qed.

Lemma Qhalf a : a / 2 == a * (1 # 2).
Proof. field. Qed.

Lemma clamp_inside lo hi v :
  lo <= hi ->
  lo <= Math_max lo (Math_min hi v) /\ Math_max lo (Math_min hi v) <= hi.
Proof.
  intros H. unfold Math_max, Math_min.
  destruct (Qltb v hi) eqn:E1.
  - apply Qltb_lt in E1. destruct (Qltb lo v) eqn:E2.
    + apply Qltb_lt in E2. lra.
    + lra.
  - destruct (Qltb lo hi) eqn:E2; lra.
Qed.

(** ** ForceLayoutEngine: facts about one tick *)

Section TickFacts.
Variable divide : Q -> Q -> Q.
Variable Math_sqrt : Q -> Q.
Variable links : list ConceptLink.t.
Variables width height : Q.
Variable draggedNodeId : option string.
Variable dragPos : option Point.t.

Local Abbreviation dragged := (isDragged draggedNodeId).
Local Abbreviation nodeList := (list ConceptNode.t).

(** *** Loops *)

Lemma forRange_invariant {S : Type} (P : S -> S -> Prop) lo hi body (s : S) :
  (forall a, P a a) -> (forall a b c, P a b -> P b c -> P a c) ->
  (forall i a, P a (body i a)) ->
  P s (forRange lo hi body s).
Proof.
  intros Hrefl Htrans Hbody. unfold forRange.
  generalize (seq lo (hi - lo)). intros l. revert s.
  induction l as [|i l IH]; intros s; simpl; [apply Hrefl|].
  eapply Htrans; [apply (Hbody i)|apply IH].
Qed.

(** *** Pointwise relations between the node list before and after a phase *)

Section Pointwise.
Variable R : ConceptNode.t -> ConceptNode.t -> Prop.
Hypothesis R_refl : forall a, R a a.
Hypothesis R_trans : forall a b c, R a b -> R b c -> R a c.
Hypothesis R_velocity :
  forall n dvx dvy, dragged n = false -> R n (addVelocity n dvx dvy).
Hypothesis R_setX : forall n v, dragged n = false -> R n (setX n v).
Hypothesis R_setY : forall n v, dragged n = false -> R n (setY n v).
Hypothesis R_setVx : forall n v, R n (setVx n v).
Hypothesis R_setVy : forall n v, R n (setVy n v).

Lemma related_refl (ns : nodeList) : Forall2 R ns ns.
Proof. induction ns; constructor; auto. Qed.

Lemma related_trans (a b c : nodeList) : Forall2 R a b -> Forall2 R b c -> Forall2 R a c.
Proof.
  intros Hab. revert c. induction Hab; intros c Hbc; inversion Hbc; subst; constructor; eauto.
Qed.

Lemma related_insert (ns : nodeList) i a b :
  ns !! i = Some a -> R a b -> Forall2 R ns (<[i:=b]> ns).
Proof.
  intros Hi Hab. rewrite <- (list_insert_id ns i a Hi) at 1.
  apply Forall2_insert; [apply related_refl|done].
Qed.

Lemma related_insert2 (ns : nodeList) i j a a' b b' :
  i <> j -> ns !! i = Some a -> ns !! j = Some b -> R a a' -> R b b' ->
  Forall2 R ns (<[j:=b']> (<[i:=a']> ns)).
Proof.
  intros Hij Hi Hj Ha Hb.
  eapply related_trans; [apply (related_insert ns i a a' Hi Ha)|].
  apply (related_insert _ j b b'); [|done]. by rewrite list_lookup_insert_ne.
Qed.

Lemma repelPair_related i j (ns : nodeList) :
  i <> j -> Forall2 R ns (repelPair divide Math_sqrt draggedNodeId i j ns).
Proof.
  intros Hij. unfold repelPair.
  destruct (ns !! i) as [u|] eqn:Hi; [|apply related_refl].
  destruct (ns !! j) as [v|] eqn:Hj; [|apply related_refl].
  apply (related_insert2 ns i j u _ v _ Hij Hi Hj).
  - destruct (dragged u) eqn:E; simpl; auto.
  - destruct (dragged v) eqn:E; simpl; auto.
Qed.

Lemma centerPull_related i (ns : nodeList) :
  Forall2 R ns (centerPull divide width height draggedNodeId i ns).
Proof.
  unfold centerPull. destruct (ns !! i) as [u|] eqn:Hi; [|apply related_refl].
  destruct (dragged u) eqn:E; simpl; [apply related_refl|].
  apply (related_insert ns i u); auto.
Qed.

Lemma forRange_pairs_related (step : nat -> nat -> nodeList -> nodeList) i hi (ns : nodeList) :
  (forall j ms, i <> j -> Forall2 R ms (step i j ms)) ->
  Forall2 R ns (forRange (i + 1) hi (step i) ns).
Proof.
  intros Hstep. unfold forRange.
  assert (Hseq : forall j, j ∈ seq (i + 1) (hi - (i + 1)) -> i <> j).
  { intros j Hj. apply elem_of_seq in Hj. lia. }
  revert ns Hseq. generalize (seq (i + 1) (hi - (i + 1))). intros l.
  induction l as [|j l IH]; intros ns Hseq; simpl; [apply related_refl|].
  eapply related_trans; [apply (Hstep j ns), Hseq; left|].
  apply IH. intros j' Hj'. apply Hseq. by right.
Qed.

Lemma repulsion_related (ns : nodeList) :
  Forall2 R ns (repulsion divide Math_sqrt width height draggedNodeId ns).
Proof.
  unfold repulsion.
  apply (forRange_invariant (Forall2 R)); [apply related_refl|apply related_trans|].
  intros i ms. eapply related_trans; [|apply centerPull_related].
  apply forRange_pairs_related. intros j ks Hij. by apply repelPair_related.
Qed.

Lemma springLink_related (ns : nodeList) link :
  Forall2 R ns (springLink divide Math_sqrt draggedNodeId ns link).
Proof.
  unfold springLink.
  destruct (list_find _ ns) as [[si source]|] eqn:Hs; [|apply related_refl].
  destruct (list_find (fun n => ConceptNode.label n = ConceptLink.target link) ns)
    as [[ti target]|] eqn:Ht; [|apply related_refl].
  apply list_find_Some in Hs as (Hs & _ & _).
  set (fx := divide _ _ * _). set (fy := divide _ _ * _).
  set (ns1 := if negb (dragged source) then _ else _).
  assert (H1 : Forall2 R ns ns1).
  { subst ns1. destruct (dragged source) eqn:E; simpl; [apply related_refl|].
    apply (related_insert ns si source); auto. }
  eapply related_trans; [exact H1|].
  destruct (ns1 !! ti) as [target'|] eqn:Hti; [|apply related_refl].
  destruct (dragged target') eqn:E; simpl; [apply related_refl|].
  apply (related_insert ns1 ti target'); auto.
Qed.

Lemma attraction_related (ns : nodeList) :
  Forall2 R ns (attraction divide Math_sqrt links draggedNodeId ns).
Proof.
  unfold attraction. revert ns.
  induction links as [|l ls IH]; intros ns; simpl; [apply related_refl|].
  eapply related_trans; [apply springLink_related|apply IH].
Qed.

Lemma collidePair_related i j (ns : nodeList) :
  i <> j -> Forall2 R ns (collidePair divide draggedNodeId i j ns).
Proof.
  intros Hij. unfold collidePair.
  destruct (ns !! i) as [u|] eqn:Hi; [|apply related_refl].
  destruct (ns !! j) as [v|] eqn:Hj; [|apply related_refl].
  destruct (_ && _); [|apply related_refl].
  destruct (Qltb _ _).
  - apply (related_insert2 ns i j u _ v _ Hij Hi Hj).
    + destruct (dragged u) eqn:E; simpl; eauto.
    + destruct (dragged v) eqn:E; simpl; eauto.
  - apply (related_insert2 ns i j u _ v _ Hij Hi Hj).
    + destruct (dragged u) eqn:E; simpl; eauto.
    + destruct (dragged v) eqn:E; simpl; eauto.
Qed.

Lemma collisionPass_related (ns : nodeList) :
  Forall2 R ns (collisionPass divide draggedNodeId ns).
Proof.
  unfold collisionPass.
  apply (forRange_invariant (Forall2 R)); [apply related_refl|apply related_trans|].
  intros i ms. apply forRange_pairs_related. intros j ks Hij. by apply collidePair_related.
Qed.

Lemma collisions_related (ns : nodeList) :
  Forall2 R ns (collisions divide draggedNodeId ns).
Proof.
  unfold collisions.
  apply (forRange_invariant (Forall2 R)); [apply related_refl|apply related_trans|].
  intros _ ms. apply collisionPass_related.
Qed.

End Pointwise.

(** *** The two relations kept by the phases *)

Lemma dragged_same_id (a b : ConceptNode.t) :
  ConceptNode.id b = ConceptNode.id a -> dragged b = dragged a.
Proof. unfold isDragged. by intros ->. Qed.

Lemma velocityOnly_trans a b c :
  velocityOnly draggedNodeId a b -> velocityOnly draggedNodeId b c ->
  velocityOnly draggedNodeId a c.
Proof.
  intros (Hi & Hl & Hx & Hy & Hd) (Hi' & Hl' & Hx' & Hy' & Hd').
  repeat split; try congruence.
  intros Ha. rewrite Hd' by (by rewrite (dragged_same_id a b)). auto.
Qed.

Lemma unmovedIfDragged_trans a b c :
  unmovedIfDragged draggedNodeId a b -> unmovedIfDragged draggedNodeId b c ->
  unmovedIfDragged draggedNodeId a c.
Proof.
  intros (Hi & Hl & Hd) (Hi' & Hl' & Hd'). split; [congruence|]. split; [congruence|].
  intros Ha. destruct (Hd Ha) as [Hx Hy].
  destruct Hd' as [Hx' Hy']; [by rewrite (dragged_same_id a b)|]. split; congruence.
Qed.

(** Repulsion, centering and attraction change velocities only, and none of
    the dragged node. *)
Lemma forces_velocityOnly (ns : nodeList) :
  Forall2 (velocityOnly draggedNodeId) ns
    (attraction divide Math_sqrt links draggedNodeId
       (repulsion divide Math_sqrt width height draggedNodeId ns)).
Proof.
  assert (Hrefl : forall a, velocityOnly draggedNodeId a a) by by intros a.
  assert (Hvel : forall n dvx dvy, dragged n = false ->
                   velocityOnly draggedNodeId n (addVelocity n dvx dvy)).
  { intros n dvx dvy Hn. repeat split; try done. congruence. }
  eapply related_trans; [apply velocityOnly_trans| |].
  - by apply repulsion_related; [|apply velocityOnly_trans|].
  - by apply attraction_related; [|apply velocityOnly_trans|].
Qed.

(** The collision passes never move the dragged node. *)
Lemma collisions_unmovedIfDragged (ns : nodeList) :
  Forall2 (unmovedIfDragged draggedNodeId) ns (collisions divide draggedNodeId ns).
Proof.
  apply collisions_related.
  - by intros a.
  - apply unmovedIfDragged_trans.
  - intros n v Hn. repeat split; try done; congruence.
  - intros n v Hn. repeat split; try done; congruence.
  - by intros n v.
  - by intros n v.
Qed.

Lemma updatePosition_id n :
  ConceptNode.id (updatePosition width height draggedNodeId dragPos n) = ConceptNode.id n
  /\ ConceptNode.label (updatePosition width height draggedNodeId dragPos n)
     = ConceptNode.label n.
Proof. unfold updatePosition. destruct dragPos; [destruct (dragged n)|]; done. Qed.

Lemma integrate_inside n :
  120 <= width -> 120 <= height -> insideMargin width height (integrate width height n).
Proof.
  intros Hw Hh. unfold insideMargin, integrate. simpl.
  set (x' := ConceptNode.x n + _). set (y' := ConceptNode.y n + _).
  destruct (clamp_inside 60 (width - 60) x') as [? ?]; [lra|].
  destruct (clamp_inside 60 (height - 60) y') as [? ?]; [lra|].
  unfold boundaryMargin. done.
Qed.

(** *** The claims about the tick *)

(** C1, as amended.  In a tick on a viewport at least 120 wide and 120 high,
    every node of the result that is not pinned to the pointer (any node but a
    dragged node with a pointer position supplied) is inside the margin:
    60 <= x <= width - 60 and 60 <= y <= height - 60. *)
Theorem unpinned_nodes_inside_margin (prevNodes : nodeList) (n' : ConceptNode.t) :
  120 <= width -> 120 <= height ->
  n' ∈ simulate divide Math_sqrt links width height draggedNodeId dragPos prevNodes ->
  pinned draggedNodeId dragPos n' = false ->
  insideMargin width height n'.
Proof.
  intros Hw Hh Hn' Hpin. unfold simulate in Hn'.
  apply list_elem_of_fmap in Hn' as (n & -> & _).
  unfold pinned in Hpin. rewrite (dragged_same_id n) in Hpin by apply updatePosition_id.
  unfold updatePosition in *. destruct dragPos as [p|].
  - destruct (dragged n); [rewrite bool_decide_eq_true_2 in Hpin by eauto; discriminate|].
    by apply integrate_inside.
  - by apply integrate_inside.
Qed.

(** *** The dragged node and its neighbours *)




(** *** A dragged node followed by one free node *)








(** C10. In a tick in which a node is marked dragged and no pointer position
    is supplied, repulsion, centering and attraction leave the node as it is,
    the collision passes leave its position as it is, and its entry in the
    result is [integrate] of what the passes left, the update of every node
    that is not dragged: the velocity is damped by 0.65, clamped to [-8, 8]
    per axis and snapped to 0 below 0.05, added to the position, and the
    position is clamped to the margin. *)
Theorem dragged_without_pointer_is_integrated (prevNodes : nodeList) (i : nat)
    (n : ConceptNode.t) :
  prevNodes !! i = Some n -> dragged n = true -> dragPos = None ->
  attraction divide Math_sqrt links draggedNodeId
    (repulsion divide Math_sqrt width height draggedNodeId prevNodes) !! i = Some n
  /\ (exists m,
        collisions divide draggedNodeId
          (attraction divide Math_sqrt links draggedNodeId
             (repulsion divide Math_sqrt width height draggedNodeId prevNodes)) !! i = Some m
        /\ ConceptNode.id m = ConceptNode.id n /\ ConceptNode.label m = ConceptNode.label n
        /\ ConceptNode.x m = ConceptNode.x n /\ ConceptNode.y m = ConceptNode.y n
        /\ simulate divide Math_sqrt links width height draggedNodeId dragPos prevNodes !! i
           = Some (integrate width height m))
  /\ (forall a, dragged a = false ->
        updatePosition width height draggedNodeId dragPos a = integrate width height a)
  /\ (forall a,
        integrate width height a =
          ConceptNode.mk (ConceptNode.id a) (ConceptNode.label a)
            (Math_max 60 (Math_min (width - 60)
                            (ConceptNode.x a + dampedVelocity (ConceptNode.vx a))))
            (Math_max 60 (Math_min (height - 60)
                            (ConceptNode.y a + dampedVelocity (ConceptNode.vy a))))
            (Some (dampedVelocity (ConceptNode.vx a)))
            (Some (dampedVelocity (ConceptNode.vy a)))).
Proof.
  intros Hi Hn Hp.
  destruct (Forall2_lookup_l _ _ _ i n (forces_velocityOnly prevNodes) Hi)
    as (f & Hf & Hfi & Hfl & Hfx & Hfy & Hfd).
  rewrite (Hfd Hn) in Hf. clear Hfi Hfl Hfx Hfy Hfd.
  destruct (Forall2_lookup_l _ _ _ i n (collisions_unmovedIfDragged _) Hf)
    as (m & Hm & Hmi & Hml & Hmd).
  destruct (Hmd Hn) as [Hmx Hmy].
  split; [exact Hf|]. split; [|split].
  - exists m. repeat split; try done.
    unfold simulate. rewrite list_lookup_fmap, Hm. simpl.
    unfold updatePosition. by rewrite Hp.
  - intros a Ha. unfold updatePosition. rewrite Hp. done.
  - intros a. reflexivity.
Qed.

End TickFacts.


(** ** ForceLayoutEngine: two overlapping footprints *)

Section CollisionFacts.
Variable draggedNodeId : option string.

Local Abbreviation dragged := (isDragged draggedNodeId).

Lemma Qabs_lower (a r : Q) : r <= a \/ r <= - a -> r <= Qabs a.
Proof. intros H. apply Qabs_case; intros; lra. Qed.

Lemma minWidth_labels (u v u' v' : ConceptNode.t) :
  ConceptNode.label u' = ConceptNode.label u -> ConceptNode.label v' = ConceptNode.label v ->
  minWidth u' v' = minWidth u v /\ minHeight u' v' = minHeight u v.
Proof. intros Hu Hv. unfold minWidth, minHeight. by rewrite Hu, Hv. Qed.

(** The inner loop body on a list of two free nodes. *)
Lemma collidePair_free_pair (u v : ConceptNode.t) :
  dragged u = false -> dragged v = false ->
  collidePair Qdiv draggedNodeId 0 1 [u; v] =
    let dx := ConceptNode.x u - ConceptNode.x v in
    let dy := ConceptNode.y u - ConceptNode.y v in
    if Qltb (Qabs dx) (minWidth u v) && Qltb (Qabs dy) (minHeight u v) then
      if Qltb (minWidth u v - Qabs dx) (minHeight u v - Qabs dy) then
        let sign := if Qltb 0 dx then 1 else -1 in
        let push := (minWidth u v - Qabs dx) / 2 in
        [setVx (setX u (ConceptNode.x u + sign * push)) (or0 (ConceptNode.vx u) * 0.1);
         setVx (setX v (ConceptNode.x v - sign * push)) (or0 (ConceptNode.vx v) * 0.1)]
      else
        let sign := if Qltb 0 dy then 1 else -1 in
        let push := (minHeight u v - Qabs dy) / 2 in
        [setVy (setY u (ConceptNode.y u + sign * push)) (or0 (ConceptNode.vy u) * 0.1);
         setVy (setY v (ConceptNode.y v - sign * push)) (or0 (ConceptNode.vy v) * 0.1)]
    else [u; v].
Proof.
  intros Hu Hv. unfold collidePair.
  change ([u; v] !! 0%nat) with (Some u). change ([u; v] !! 1%nat) with (Some v).
  cbv beta iota zeta. rewrite Hu, Hv. reflexivity.
Qed.

(** One resolution of a pair of free nodes leaves their footprints apart. *)
Lemma collidePair_two (u v : ConceptNode.t) :
  dragged u = false -> dragged v = false ->
  exists u' v',
    collidePair Qdiv draggedNodeId 0 1 [u; v] = [u'; v']
    /\ ConceptNode.label u' = ConceptNode.label u /\ ConceptNode.label v' = ConceptNode.label v
    /\ apart u' v'.
Proof.
  intros Hu Hv. rewrite (collidePair_free_pair u v Hu Hv). cbv zeta.
  set (dx := ConceptNode.x u - ConceptNode.x v).
  set (dy := ConceptNode.y u - ConceptNode.y v).
  destruct (Qltb (Qabs dx) (minWidth u v)) eqn:E1; cbn [andb].
  2:{ exists u, v. split; [done|]. split; [done|]. split; [done|].
      left. by apply Qltb_ge in E1. }
  destruct (Qltb (Qabs dy) (minHeight u v)) eqn:E2.
  2:{ exists u, v. split; [done|]. split; [done|]. split; [done|].
      right. by apply Qltb_ge in E2. }
  apply Qltb_lt in E1, E2.
  destruct (Qltb (minWidth u v - Qabs dx) (minHeight u v - Qabs dy)).
  - eexists _, _. split; [reflexivity|]. split; [done|]. split; [done|].
    left. unfold minWidth.
    cbn [ConceptNode.label ConceptNode.x setVx setX]. fold (minWidth u v).
    apply Qabs_lower.
    destruct (Qltb 0 dx) eqn:E3.
    + apply Qltb_lt in E3. left.
      assert (Ha : Qabs dx == dx) by (apply Qabs_pos; lra). unfold dx in *. rewrite !Qhalf. lra.
    + apply Qltb_ge in E3. right.
      assert (Ha : Qabs dx == - dx) by (apply Qabs_neg; lra). unfold dx in *. rewrite !Qhalf. lra.
  - eexists _, _. split; [reflexivity|]. split; [done|]. split; [done|].
    right. unfold minHeight.
    cbn [ConceptNode.label ConceptNode.y setVy setY]. fold (minHeight u v).
    apply Qabs_lower.
    destruct (Qltb 0 dy) eqn:E3.
    + apply Qltb_lt in E3. left.
      assert (Ha : Qabs dy == dy) by (apply Qabs_pos; lra). unfold dy in *. rewrite !Qhalf. lra.
    + apply Qltb_ge in E3. right.
      assert (Ha : Qabs dy == - dy) by (apply Qabs_neg; lra). unfold dy in *. rewrite !Qhalf. lra.
Qed.

(** A pair that is apart is left as it is. *)
Lemma collidePair_apart (u v : ConceptNode.t) :
  apart u v -> collidePair Qdiv draggedNodeId 0 1 [u; v] = [u; v].
Proof.
  intros H. unfold collidePair.
  change ([u; v] !! 0%nat) with (Some u). change ([u; v] !! 1%nat) with (Some v).
  cbv beta iota zeta. unfold padding, Math_abs.
  fold (minWidth u v). fold (minHeight u v).
  destruct H as [H|H]; apply Qltb_ge in H; rewrite H; [done|].
  by rewrite andb_false_r.
Qed.

Lemma collisionPass_two (u v : ConceptNode.t) :
  collisionPass Qdiv draggedNodeId [u; v] = collidePair Qdiv draggedNodeId 0 1 [u; v].
Proof.
  unfold collisionPass, forRange. simpl.
  assert (Hlen : length (collidePair Qdiv draggedNodeId 0 1 [u; v]) = 2%nat).
  { unfold collidePair.
    change ([u; v] !! 0%nat) with (Some u). change ([u; v] !! 1%nat) with (Some v).
    cbv beta iota zeta. by repeat destruct (Qltb _ _). }
  by rewrite Hlen.
Qed.

(** C2, as amended.  The collision phase of one tick on two free nodes leaves
    their padded footprints apart on one axis: the centres end at least
    half-width + half-width + padding apart horizontally, or at least
    half-height + half-height + padding (74 units) apart vertically. *)
Theorem collisions_leave_pair_apart (u v : ConceptNode.t) :
  dragged u = false -> dragged v = false ->
  exists u' v',
    collisions Qdiv draggedNodeId [u; v] = [u'; v']
    /\ ConceptNode.label u' = ConceptNode.label u /\ ConceptNode.label v' = ConceptNode.label v
    /\ (minWidth u v <= Qabs (ConceptNode.x u' - ConceptNode.x v')
        \/ 74 <= Qabs (ConceptNode.y u' - ConceptNode.y v')).
Proof.
  intros Hu Hv.
  destruct (collidePair_two u v Hu Hv) as (u' & v' & E & Hlu & Hlv & Hap).
  exists u', v'.
  change (collisions Qdiv draggedNodeId [u; v])
    with (collisionPass Qdiv draggedNodeId
            (collisionPass Qdiv draggedNodeId (collisionPass Qdiv draggedNodeId [u; v]))).
  rewrite (collisionPass_two u v), E, (collisionPass_two u' v'), (collidePair_apart u' v' Hap).
  rewrite (collisionPass_two u' v'), (collidePair_apart u' v' Hap).
  repeat split; try done.
  assert (Hw : minWidth u' v' = minWidth u v) by by apply minWidth_labels.
  assert (Hh : minHeight u' v' == 74) by reflexivity.
  destruct Hap as [H|H].
  - left. by rewrite <- Hw.
  - right. by rewrite <- Hh.
Qed.

End CollisionFacts.


(** ** ForceLayoutEngine: the guards of the divisions *)

Section GuardFacts.
(** [Math.sqrt] gives a non-zero root to a positive number. *)
Variable Math_sqrt : Q -> Q.
Hypothesis sqrt_positive : forall q, 0 < q -> ~ Math_sqrt q == 0.
(** Any operator that is the quotient where the divisor is not 0, and any
    function that is the root where the argument is not negative. *)
Variable divide : Q -> Q -> Q.
Hypothesis divide_nonzero : forall a b, ~ b == 0 -> divide a b = a / b.
Variable sqrt' : Q -> Q.
Hypothesis sqrt'_nonneg : forall q, 0 <= q -> sqrt' q = Math_sqrt q.

Variable links : list ConceptLink.t.
Variables width height : Q.
Variable draggedNodeId : option string.
Variable dragPos : option Point.t.

Lemma squares_nonneg (dx dy : Q) : 0 <= dx * dx + dy * dy.
Proof. nra. Qed.

Lemma repelDistSq_positive (dx dy : Q) : 0 < repelDistSq dx dy.
Proof.
  unfold repelDistSq. destruct (Qeq_bool _ 0) eqn:E; [lra|].
  apply Qeq_bool_neq in E. pose proof (squares_nonneg dx dy). lra.
Qed.

Lemma springDist_nonzero (f : Q -> Q) (dx dy : Q) : ~ springDist f dx dy == 0.
Proof.
  unfold springDist, or1. destruct (Qeq_bool _ 0) eqn:E; [lra|].
  by apply Qeq_bool_neq in E.
Qed.

Lemma divide_two a : divide a 2 = a / 2.
Proof. apply divide_nonzero. lra. Qed.

Lemma forRange_ext {S : Type} lo hi (body body' : nat -> S -> S) (s : S) :
  (forall i a, body i a = body' i a) -> forRange lo hi body s = forRange lo hi body' s.
Proof.
  intros H. unfold forRange. generalize (seq lo (hi - lo)). intros l. revert s.
  induction l as [|i l IH]; intros s; simpl; [done|]. by rewrite H, IH.
Qed.

Lemma repelPair_guarded i j ns :
  repelPair divide sqrt' draggedNodeId i j ns = repelPair Qdiv Math_sqrt draggedNodeId i j ns.
Proof.
  unfold repelPair. destruct (ns !! i) as [u|]; [|done]. destruct (ns !! j) as [v|]; [|done].
  set (dx := ConceptNode.x u - ConceptNode.x v).
  set (dy := ConceptNode.y u - ConceptNode.y v).
  pose proof (repelDistSq_positive dx dy) as Hpos.
  rewrite (sqrt'_nonneg (repelDistSq dx dy)) by lra.
  rewrite (divide_nonzero _ (repelDistSq dx dy)) by lra.
  rewrite !(divide_nonzero _ (Math_sqrt (repelDistSq dx dy))) by by apply sqrt_positive.
  done.
Qed.

Lemma centerPull_guarded i ns :
  centerPull divide width height draggedNodeId i ns
  = centerPull Qdiv width height draggedNodeId i ns.
Proof. unfold centerPull, center. by rewrite !divide_two. Qed.

Lemma repulsion_guarded ns :
  repulsion divide sqrt' width height draggedNodeId ns
  = repulsion Qdiv Math_sqrt width height draggedNodeId ns.
Proof.
  unfold repulsion. apply forRange_ext. intros i a.
  rewrite centerPull_guarded. f_equal. apply forRange_ext. intros j b.
  apply repelPair_guarded.
Qed.

Lemma springLink_guarded ns link :
  springLink divide sqrt' draggedNodeId ns link
  = springLink Qdiv Math_sqrt draggedNodeId ns link.
Proof.
  unfold springLink.
  destruct (list_find _ ns) as [[si source]|]; [|done].
  destruct (list_find _ ns) as [[ti target]|]; [|done].
  set (dx := ConceptNode.x target - ConceptNode.x source).
  set (dy := ConceptNode.y target - ConceptNode.y source).
  assert (Hd : springDist sqrt' dx dy = springDist Math_sqrt dx dy).
  { unfold springDist. by rewrite sqrt'_nonneg by apply squares_nonneg. }
  rewrite Hd.
  rewrite !(divide_nonzero _ (springDist Math_sqrt dx dy)) by apply springDist_nonzero.
  done.
Qed.

Lemma attraction_guarded ns :
  attraction divide sqrt' links draggedNodeId ns
  = attraction Qdiv Math_sqrt links draggedNodeId ns.
Proof.
  unfold attraction. revert ns. induction links as [|l ls IH]; intros ns; simpl; [done|].
  by rewrite springLink_guarded, IH.
Qed.

Lemma collidePair_guarded i j ns :
  collidePair divide draggedNodeId i j ns = collidePair Qdiv draggedNodeId i j ns.
Proof.
  unfold collidePair. destruct (ns !! i) as [u|]; [|done]. destruct (ns !! j) as [v|]; [|done].
  by rewrite !divide_two.
Qed.

Lemma collisions_guarded ns :
  collisions divide draggedNodeId ns = collisions Qdiv draggedNodeId ns.
Proof.
  unfold collisions. apply forRange_ext. intros _ a.
  unfold collisionPass. apply forRange_ext. intros i b.
  apply forRange_ext. intros j c. apply collidePair_guarded.
Qed.

Lemma getIntersection_guarded from target targetWidth targetHeight :
  0 < targetWidth + 4 -> 0 < targetHeight + 4 ->
  getIntersection divide from target targetWidth targetHeight
  = getIntersection Qdiv from target targetWidth targetHeight.
Proof.
  intros Hw Hh. unfold getIntersection. rewrite !divide_two.
  set (dx := Point.x target - Point.x from).
  set (dy := Point.y target - Point.y from).
  destruct (_ && _); [done|].
  destruct (Qltb (Math_abs dy * (targetWidth + 4)) (Math_abs dx * (targetHeight + 4))) eqn:E.
  - assert (Hdx : ~ dx == 0).
    { intros H0. apply Qltb_lt in E. unfold Math_abs in E.
      assert (Hz : Qabs dx == 0) by by rewrite H0.
      rewrite Hz in E. pose proof (Qabs_nonneg dy) as Hn.
      revert E Hn. generalize (Qabs dy). intros a E Hn. nra. }
    by rewrite (divide_nonzero dy dx Hdx).
  - destruct (Qeq_bool dx 0) eqn:E0; [done|]. simpl.
    apply Qeq_bool_neq in E0. rewrite (divide_nonzero dy dx E0).
    assert (Hm : ~ dy / dx == 0).
    { intros Hm. assert (Hdy : dy == 0).
      { rewrite <- (Qmult_div_r dy dx E0), Hm. ring. }
      apply Qltb_ge in E. unfold Math_abs in E.
      assert (Hz : Qabs dy == 0) by by rewrite Hdy.
      rewrite Hz in E.
      assert (Hpos : 0 < Qabs dx).
      { apply Qabs_case; intros; destruct (Qeq_dec dx 0); try done; lra. }
      revert E Hpos. generalize (Qabs dx). intros a E Hpos. nra. }
    by rewrite !(divide_nonzero _ (dy / dx) Hm).
Qed.

(** C8. Take for [Math.sqrt] any function with non-zero roots of positive
    numbers.  Whatever a quotient by 0 and the root of a negative number are
    taken to be, the result of a tick is the one computed with the quotients
    and roots of exact arithmetic, and so is the result of [getIntersection]
    for a footprint of positive width and height: no value of a division by
    0 reaches the state.  The guards are: the squared distance of a pair of nodes at
    the same place is replaced by 1, and is never 0 after that; the length of
    a link with a root of 0 is replaced by 1, and is never 0 after that; and
    [getIntersection] returns the target centre as it is when the centres
    differ by less than 1 on both axes. *)
Theorem divisions_are_guarded (prevNodes : list ConceptNode.t) :
  simulate divide sqrt' links width height draggedNodeId dragPos prevNodes
  = simulate Qdiv Math_sqrt links width height draggedNodeId dragPos prevNodes
  /\ (forall from target targetWidth targetHeight,
        0 < targetWidth + 4 -> 0 < targetHeight + 4 ->
        getIntersection divide from target targetWidth targetHeight
        = getIntersection Qdiv from target targetWidth targetHeight)
  /\ (forall dx dy, dx * dx + dy * dy == 0 -> repelDistSq dx dy = 1)
  /\ (forall dx dy, ~ repelDistSq dx dy == 0
                    /\ ~ Math_sqrt (repelDistSq dx dy) == 0)
  /\ (forall dx dy, Math_sqrt (dx * dx + dy * dy) == 0 -> springDist Math_sqrt dx dy = 1)
  /\ (forall dx dy, ~ springDist Math_sqrt dx dy == 0)
  /\ (forall from target targetWidth targetHeight,
        Qabs (Point.x target - Point.x from) < 1 ->
        Qabs (Point.y target - Point.y from) < 1 ->
        getIntersection Qdiv from target targetWidth targetHeight = target).
Proof.
  split; [|split; [|split; [|split; [|split; [|split]]]]].
  - unfold simulate. by rewrite repulsion_guarded, attraction_guarded, collisions_guarded.
  - apply getIntersection_guarded.
  - intros dx dy H. unfold repelDistSq. apply Qeq_bool_iff in H. by rewrite H.
  - intros dx dy. pose proof (repelDistSq_positive dx dy). split; [lra|by apply sqrt_positive].
  - intros dx dy H. unfold springDist, or1. apply Qeq_bool_iff in H. by rewrite H.
  - intros dx dy. apply springDist_nonzero.
  - intros from target targetWidth targetHeight Hx Hy. unfold getIntersection, Math_abs.
    apply Qltb_lt in Hx, Hy. by rewrite Hx, Hy.
Qed.

End GuardFacts.


(** ** ForceLayoutEngine: facts about the seeding *)

Section SeedFacts.
Variables Math_cos Math_sin : Q -> Q.
Variable Math_PI : Q.
Variable random : nat -> Q.
Variable links : list ConceptLink.t.
Variables width height : Q.

Local Abbreviation seed := (seedNode Math_cos Math_sin Math_PI random links width height).

(** C6, as amended.  A node of the map that the layout does not hold yet is
    pushed with velocity zero.  If the first link of the map that touches it
    leads to a node the layout holds, it is placed at the angle
    2 * pi * random() on the ring of radius 80 around the current position of
    that node, and one draw is used.  If no link touches it, it is placed at
    the viewport centre plus (random() - 0.5) * 100 on each axis, from two
    successive draws, which is at most 50 from the centre on each axis for
    draws between 0 and 1. *)
Theorem new_node_spawn (st : SeedState) (n : ConceptNode.t) :
  list_find (fun en => ConceptNode.id en = ConceptNode.id n) (next st) = None ->
  (forall connectedLink peer,
     find (touches (ConceptNode.label n)) links = Some connectedLink ->
     find (fun p => String.eqb (ConceptNode.label p)
                      (peerLabelOf (ConceptNode.label n) connectedLink)) (next st)
       = Some peer ->
     let angle := random (draws st) * Math_PI * 2 in
     let m := ConceptNode.mk (ConceptNode.id n) (ConceptNode.label n)
                (ConceptNode.x peer + Math_cos angle * 80)
                (ConceptNode.y peer + Math_sin angle * 80) (Some 0) (Some 0) in
     seed st n = mkSeed (next st ++ [m]) true (S (draws st))
     /\ (Math_cos angle * Math_cos angle + Math_sin angle * Math_sin angle == 1 ->
         onRing peer 80 m))
  /\ (find (touches (ConceptNode.label n)) links = None ->
      let m := ConceptNode.mk (ConceptNode.id n) (ConceptNode.label n)
                 (width / 2 + (random (draws st) - 0.5) * 100)
                 (height / 2 + (random (S (draws st)) - 0.5) * 100) (Some 0) (Some 0) in
      seed st n = mkSeed (next st ++ [m]) true (S (S (draws st)))
      /\ (0 <= random (draws st) <= 1 -> Qabs (ConceptNode.x m - width / 2) <= 50)
      /\ (0 <= random (S (draws st)) <= 1 -> Qabs (ConceptNode.y m - height / 2) <= 50)).
Proof.
  intros Hnew. split.
  - intros connectedLink peer Hlink Hpeer. cbv zeta. split.
    + unfold seedNode. rewrite Hnew. unfold spawnPosition. rewrite Hlink.
      fold (peerLabelOf (ConceptNode.label n) connectedLink). by rewrite Hpeer.
    + intros Hunit. unfold onRing. cbn [ConceptNode.x ConceptNode.y].
      set (c := Math_cos _) in *. set (s := Math_sin _) in *.
      transitivity (80 * 80 * (c * c + s * s)); [ring|]. rewrite Hunit. ring.
  - intros Hlink. cbv zeta. split; [|split].
    + unfold seedNode. rewrite Hnew. unfold spawnPosition. by rewrite Hlink.
    + intros Hr. cbn [ConceptNode.x]. apply Qabs_Qle_condition. rewrite !Qhalf. lra.
    + intros Hr. cbn [ConceptNode.y]. apply Qabs_Qle_condition. rewrite !Qhalf. lra.
Qed.

End SeedFacts.


(** ** The layout on the sample inputs *)

(** Two footprints 120 wide with centres 300 apart are left where they are. *)
Example distant_pair_not_moved :
  collisions Qdiv None [nodeAt "A" 100 100; nodeAt "B" 400 100]
  = [nodeAt "A" 100 100; nodeAt "B" 400 100].
Proof. reflexivity. Qed.

(** A first node without links is seeded at the centre plus the jitter of the
    draws 1/2 and 1/3. *)
Example first_node_near_centre :
  exists n,
    seedNodes sampleCos sampleSin samplePI sampleRandom [] 800 600 []
      [mapNode "Photosynthesis"] = [n]
    /\ ConceptNode.x n == 400 /\ ConceptNode.y n == 850 / 3.
Proof. eexists. split; [vm_compute; reflexivity|]. split; reflexivity. Qed.

(** C1, as stated, fails: a dragged node with the pointer at the origin is
    placed at the origin, outside the margin of an 800 by 600 viewport; and in
    a viewport 100 wide a free node is clamped to x = 60, beyond 100 - 60. *)
Lemma pinned_node_or_narrow_viewport_leaves_margin :
  ~ Forall (insideMargin 800 600)
      (simulate Qdiv sqrtApprox [] 800 600 (Some "A"%string) (Some (Point.mk 0 0))
         [nodeAt "A" 100 100; nodeAt "B" 400 300])
  /\ ~ Forall (insideMargin 100 600)
         (simulate Qdiv sqrtApprox [] 100 600 None None [nodeAt "A" 50 300]).
Proof.
  split.
  - intros H. apply Forall_cons in H as [[H _] _]. vm_compute in H. by apply H.
  - intros H. apply Forall_cons in H as [(_ & H & _) _]. vm_compute in H. by apply H.
Qed.

Lemma unpinned_nodes_inside_margin_witness :
  exists n',
    simulate Qdiv sqrtApprox [] 800 600 (Some "A"%string) (Some (Point.mk 0 0))
      [nodeAt "A" 100 100; nodeAt "B" 400 300] !! 1%nat = Some n'
    /\ insideMargin 800 600 n'.
Proof.
  eexists. split; [vm_compute; reflexivity|].
  apply (unpinned_nodes_inside_margin Qdiv sqrtApprox [] 800 600 (Some "A"%string)
           (Some (Point.mk 0 0)) [nodeAt "A" 100 100; nodeAt "B" 400 300]).
  - lra.
  - lra.
  - apply list_elem_of_lookup. exists 1%nat. vm_compute. reflexivity.
  - vm_compute. reflexivity.
Defined.

(** C2, as stated, fails: two footprints 120 wide that start 50 apart on one
    line are moved apart vertically, by 74; their centres end less than the
    required 150 apart on each axis, and in the plane. *)
Lemma close_pair_ends_closer_than_required :
  exists u' v',
    collisions Qdiv None closePair = [u'; v']
    /\ minWidth u' v' == 150
    /\ Qabs (ConceptNode.x u' - ConceptNode.x v') == 50
    /\ Qabs (ConceptNode.y u' - ConceptNode.y v') == 74
    /\ ~ (minWidth u' v' <= Qabs (ConceptNode.x u' - ConceptNode.x v')
          \/ minWidth u' v' <= Qabs (ConceptNode.y u' - ConceptNode.y v'))
    /\ ~ centresApart (minWidth u' v') u' v'.
Proof.
  eexists _, _. split; [vm_compute; reflexivity|].
  split; [reflexivity|]. split; [reflexivity|]. split; [reflexivity|]. split.
  - intros [H|H]; vm_compute in H; by apply H.
  - intros H. vm_compute in H. by apply H.
Qed.

Lemma collisions_leave_pair_apart_witness :
  exists u' v',
    collisions Qdiv None closePair = [u'; v']
    /\ ConceptNode.label u' = "A"%string /\ ConceptNode.label v' = "B"%string
    /\ (minWidth (nodeAt "A" 100 100) (nodeAt "B" 150 100)
          <= Qabs (ConceptNode.x u' - ConceptNode.x v')
        \/ 74 <= Qabs (ConceptNode.y u' - ConceptNode.y v')).
Proof.
  exact (collisions_leave_pair_apart None (nodeAt "A" 100 100) (nodeAt "B" 150 100)
           eq_refl eq_refl).
Defined.

(** C6, as stated, fails.  The new node "B" has a link to the seeded node
    "A", but its first link leads to "C", which is not seeded yet: "B" is
    placed at the centre of the viewport, not on the ring around "A".  And
    the new nodes "B" and "C", whose only neighbour "D" is not seeded yet,
    are both placed at the centre, on the same point, without any draw. *)
Lemma first_link_to_unseeded_peer_spawns_at_centre :
  (exists a b c,
     seedNodes sampleCos sampleSin samplePI sampleRandom laterLinkToSeeded 800 600
       [nodeAt "A" 100 100] [mapNode "A"; mapNode "B"; mapNode "C"] = [a; b; c]
     /\ a = nodeAt "A" 100 100
     /\ ConceptNode.x b == 400 /\ ConceptNode.y b == 300
     /\ ~ onRing a 80 b)
  /\ (exists b c d,
        seedNodes sampleCos sampleSin samplePI sampleRandom bothLinkedToLater 800 600
          [] [mapNode "B"; mapNode "C"; mapNode "D"] = [b; c; d]
        /\ ConceptNode.x b = ConceptNode.x c /\ ConceptNode.y b = ConceptNode.y c
        /\ ConceptNode.x b == 400 /\ ConceptNode.y b == 300).
Proof.
  split.
  - eexists _, _, _. split; [vm_compute; reflexivity|].
    split; [reflexivity|]. split; [reflexivity|]. split; [reflexivity|].
    intros H. vm_compute in H. discriminate.
  - eexists _, _, _. split; [vm_compute; reflexivity|].
    repeat split; reflexivity.
Qed.

Lemma new_node_spawn_witness :
  exists m,
    seedNode sampleCos sampleSin samplePI sampleRandom [usesLink] 800 600
      (mkSeed [nodeAt "Photosynthesis" 400 300] false 0) (mapNode "Chlorophyll")
    = mkSeed [nodeAt "Photosynthesis" 400 300; m] true 1
    /\ onRing (nodeAt "Photosynthesis" 400 300) 80 m.
Proof.
  eexists.
  destruct (proj1 (new_node_spawn sampleCos sampleSin samplePI sampleRandom [usesLink] 800 600
                     (mkSeed [nodeAt "Photosynthesis" 400 300] false 0)
                     (mapNode "Chlorophyll") eq_refl)
              usesLink (nodeAt "Photosynthesis" 400 300) eq_refl eq_refl) as [Hseed Hring].
  split; [exact Hseed|]. apply Hring. reflexivity.
Defined.



Lemma dragged_without_pointer_is_integrated_witness :
  attraction Qdiv sqrtApprox stackedLinks (Some "A"%string)
    (repulsion Qdiv sqrtApprox 800 600 (Some "A"%string) stackedNodes) !! 0%nat
  = Some (nodeAt "A" 400 300).
Proof.
  exact (proj1 (dragged_without_pointer_is_integrated Qdiv sqrtApprox stackedLinks 800 600
                  (Some "A"%string) None stackedNodes 0 (nodeAt "A" 400 300)
                  eq_refl eq_refl eq_refl)).
Defined.

Lemma sqrtApprox_positive (q : Q) : 0 < q -> ~ sqrtApprox q == 0.
Proof.
  intros Hq. unfold sqrtApprox.
  destruct (Qle_bool q 0) eqn:E; [apply Qle_bool_iff in E; lra|].
  set (m := Z.max 1 _). assert (Hm : (1 <= m)%Z) by (subst m; lia).
  assert (Hpos : 0 < inject_Z m) by (unfold Qlt; simpl; lia).
  intros H0. assert (Hz : inject_Z m == 0).
  { rewrite <- (Qmult_div_r (inject_Z m) 1000000) by lra. rewrite H0. ring. }
  lra.
Qed.

Lemma sampleDivide_nonzero (a b : Q) : ~ b == 0 -> sampleDivide a b = a / b.
Proof.
  intros Hb. unfold sampleDivide. destruct (Qeq_bool b 0) eqn:E; [|done].
  by apply Qeq_bool_iff in E.
Qed.

Lemma sampleSqrt_nonneg (q : Q) : 0 <= q -> sampleSqrt q = sqrtApprox q.
Proof.
  intros Hq. unfold sampleSqrt. destruct (Qltb q 0) eqn:E; [|done].
  apply Qltb_lt in E. lra.
Qed.

Lemma divisions_are_guarded_witness :
  simulate sampleDivide sampleSqrt stackedLinks 800 600 None None stackedNodes
  = simulate Qdiv sqrtApprox stackedLinks 800 600 None None stackedNodes.
Proof.
  exact (proj1 (divisions_are_guarded sqrtApprox sqrtApprox_positive
                  sampleDivide sampleDivide_nonzero sampleSqrt sampleSqrt_nonneg
                  stackedLinks 800 600 None None stackedNodes)).
Defined.


(** ** GraphModel: further properties of the merge *)

Section MergeFacts.
Variable toLowerCase : string -> string.

Local Abbreviation merge := (generateConceptMapUpdate toLowerCase).
Local Abbreviation same := (sameLabel toLowerCase).

Lemma addNodes_bounded cs : forall ns,
  exists added,
    fold_left (addNode toLowerCase) cs ns = ns ++ added
    /\ (length added <= length cs)%nat.
Proof.
  induction cs as [|c cs IH]; intros ns; simpl.
  - exists []. by rewrite app_nil_r.
  - destruct (IH (addNode toLowerCase ns c)) as (added & -> & Hlen).
    rewrite addNode_resolve. destruct (resolve _ _ _).
    + exists added. split; [done|lia].
    + exists (nodeOf c :: added). split; [by rewrite <- app_assoc|simpl; lia].
Qed.

Lemma addLinks_bounded ns cs : forall ls,
  exists added,
    fold_left (addLink toLowerCase ns) cs ls = ls ++ added
    /\ (length added <= length cs)%nat.
Proof.
  induction cs as [|c cs IH]; intros ls; simpl.
  - exists []. by rewrite app_nil_r.
  - destruct (IH (addLink toLowerCase ns ls c)) as (added & -> & Hlen).
    destruct (addLink_cases toLowerCase ns ls c) as [->|(s & t & _ & _ & _ & ->)].
    + exists added. split; [done|lia].
    + eexists (_ :: added). split; [by rewrite <- app_assoc|simpl; lia].
Qed.

(** X1. A merge only appends: the nodes and the links of the current map
    stay where they are, as they are, and at most one node per candidate
    node and one link per candidate link come after them. *)
Theorem merge_only_appends (data : Update.t) (cur : ConceptMap.t) :
  exists addedNodes addedLinks,
    ConceptMap.nodes (merge data cur) = ConceptMap.nodes cur ++ addedNodes
    /\ ConceptMap.links (merge data cur) = ConceptMap.links cur ++ addedLinks
    /\ (length addedNodes <= length (candidateNodes data))%nat
    /\ (length addedLinks <= length (candidateLinks data))%nat.
Proof.
  destruct (addNodes_bounded (candidateNodes data) (ConceptMap.nodes cur))
    as (addedNodes & En & Hn).
  destruct (addLinks_bounded (ConceptMap.nodes (merge data cur)) (candidateLinks data)
              (ConceptMap.links cur)) as (addedLinks & El & Hl).
  exists addedNodes, addedLinks.
  by rewrite (merge_nodes toLowerCase), (merge_links toLowerCase), En, El.
Qed.

Lemma addNodes_noop cs ns :
  (forall c, c ∈ cs -> is_Some (resolve toLowerCase ns (Update.label c))) ->
  fold_left (addNode toLowerCase) cs ns = ns.
Proof.
  induction cs as [|c cs IH]; intros H; simpl; [done|].
  rewrite addNode_resolve. destruct (H c) as [n ->]; [left|].
  apply IH. intros c' Hc'. apply H. by right.
Qed.

Lemma candidate_resolves cs ns c :
  c ∈ cs ->
  is_Some (resolve toLowerCase (fold_left (addNode toLowerCase) cs ns) (Update.label c)).
Proof.
  intros Hc. rewrite resolve_addNodes. destruct (resolve toLowerCase ns _); [eauto|].
  destruct (find_is_Some (fun c' => same (Update.label c') (Update.label c)) cs c Hc)
    as [c' ->]; [by apply sameLabel_true|]. simpl. eauto.
Qed.

Lemma addLink_known ns ls c s t el :
  resolve toLowerCase ns (ConceptLink.source c) = Some s ->
  resolve toLowerCase ns (ConceptLink.target c) = Some t ->
  el ∈ ls ->
  ConceptLink.source el = ConceptNode.label s ->
  ConceptLink.target el = ConceptNode.label t ->
  addLink toLowerCase ns ls c = ls.
Proof.
  intros Hs Ht Hel Hsrc Htgt. rewrite addLink_resolve, Hs, Ht.
  destruct (find _ ls) eqn:E; [done|]. exfalso.
  rewrite find_None_iff in E. specialize (E el Hel). simpl in E.
  rewrite Hsrc, Htgt, !String.eqb_refl in E. discriminate.
Qed.

Lemma addLinks_noop ns cs ls :
  (forall c, c ∈ cs -> addLink toLowerCase ns ls c = ls) ->
  fold_left (addLink toLowerCase ns) cs ls = ls.
Proof.
  induction cs as [|c cs IH]; intros H; simpl; [done|].
  rewrite (H c) by left. apply IH. intros c' Hc'. apply H. by right.
Qed.

(** X2. Merging a reply a second time changes nothing: the merge is
    idempotent, for every map and every reply. *)
Theorem merge_idempotent (data : Update.t) (cur : ConceptMap.t) :
  merge data (merge data cur) = merge data cur.
Proof.
  assert (Hn : ConceptMap.nodes (merge data (merge data cur))
               = ConceptMap.nodes (merge data cur)).
  { rewrite (merge_nodes toLowerCase data (merge data cur)).
    apply addNodes_noop. intros c Hc. rewrite (merge_nodes toLowerCase data cur).
    by apply candidate_resolves. }
  assert (Hl : ConceptMap.links (merge data (merge data cur))
               = ConceptMap.links (merge data cur)).
  { rewrite (merge_links toLowerCase data (merge data cur)), Hn.
    apply addLinks_noop. intros c Hc.
    destruct (resolve toLowerCase (ConceptMap.nodes (merge data cur)) (ConceptLink.source c))
      as [s|] eqn:Hs; [|by rewrite addLink_resolve, Hs].
    destruct (resolve toLowerCase (ConceptMap.nodes (merge data cur)) (ConceptLink.target c))
      as [t|] eqn:Ht; [|by rewrite addLink_resolve, Hs, Ht].
    destruct (addLinks_stored toLowerCase _ (candidateLinks data) (ConceptMap.links cur)
                c s t Hc Hs Ht) as (el & Hel & Hsrc & Htgt).
    rewrite <- (merge_links toLowerCase) in Hel.
    by apply (addLink_known _ _ c s t el). }
  destruct (merge data (merge data cur)), (merge data cur). simpl in *. congruence.
Qed.

(** X3. A candidate link is not lost when its ends are known: if each end
    matches, up to case, a node of the map or a candidate node of the same
    reply, the merged map holds a link for its ordered pair, also when the
    two nodes are new in this reply. *)
Theorem link_between_known_labels_is_stored (data : Update.t) (cur : ConceptMap.t)
    (c : ConceptLink.t) :
  c ∈ candidateLinks data ->
  labelKnown toLowerCase data cur (ConceptLink.source c) ->
  labelKnown toLowerCase data cur (ConceptLink.target c) ->
  exists el,
    el ∈ ConceptMap.links (merge data cur)
    /\ samePair toLowerCase el c = true
    /\ (exists n, n ∈ ConceptMap.nodes (merge data cur)
                  /\ ConceptLink.source el = ConceptNode.label n)
    /\ (exists n, n ∈ ConceptMap.nodes (merge data cur)
                  /\ ConceptLink.target el = ConceptNode.label n).
Proof.
  intros Hc Hsrc Htgt.
  assert (Hres : forall label, labelKnown toLowerCase data cur label ->
            is_Some (resolve toLowerCase (ConceptMap.nodes (merge data cur)) label)).
  { intros label H. rewrite (merge_nodes toLowerCase), resolve_addNodes.
    destruct (resolve toLowerCase (ConceptMap.nodes cur) label) as [n|] eqn:E; [eauto|].
    destruct H as [(n & Hn & Hsame)|(cn & Hcn & Hsame)].
    - rewrite resolve_None in E. apply sameLabel_true in Hsame. by destruct (E n Hn).
    - destruct (find_is_Some (fun c' => same (Update.label c') label) _ cn Hcn Hsame)
        as [c' ->]. simpl. eauto. }
  destruct (Hres _ Hsrc) as [s Hs]. destruct (Hres _ Htgt) as [t Ht].
  destruct (addLinks_stored toLowerCase _ (candidateLinks data) (ConceptMap.links cur)
              c s t Hc Hs Ht) as (el & Hel & Hes & Het).
  rewrite <- (merge_links toLowerCase) in Hel.
  apply resolve_Some in Hs as [Hsn Hsl]. apply resolve_Some in Ht as [Htn Htl].
  exists el. split; [done|]. split; [|split; eauto].
  unfold samePair. rewrite Hes, Het. apply andb_true_iff. split; by apply sameLabel_true.
Qed.

End MergeFacts.

Lemma merge_only_appends_witness :
  exists addedNodes addedLinks,
    ConceptMap.nodes (generateConceptMapUpdate asciiLowerCase lightReaction
                        (conceptMapAfter asciiLowerCase photosynthesisUpdates))
    = ConceptMap.nodes (conceptMapAfter asciiLowerCase photosynthesisUpdates) ++ addedNodes
    /\ ConceptMap.links (generateConceptMapUpdate asciiLowerCase lightReaction
                           (conceptMapAfter asciiLowerCase photosynthesisUpdates))
       = ConceptMap.links (conceptMapAfter asciiLowerCase photosynthesisUpdates) ++ addedLinks
    /\ (length addedNodes <= 2)%nat /\ (length addedLinks <= 1)%nat.
Proof.
  exact (merge_only_appends asciiLowerCase lightReaction
           (conceptMapAfter asciiLowerCase photosynthesisUpdates)).
Defined.

Lemma link_between_known_labels_is_stored_witness :
  exists el,
    el ∈ ConceptMap.links (generateConceptMapUpdate asciiLowerCase lightReaction emptyMap)
    /\ samePair asciiLowerCase el (ConceptLink.mk "light" "GLUCOSE" (Some "drives")) = true
    /\ (exists n, n ∈ ConceptMap.nodes (generateConceptMapUpdate asciiLowerCase lightReaction emptyMap)
                  /\ ConceptLink.source el = ConceptNode.label n)
    /\ (exists n, n ∈ ConceptMap.nodes (generateConceptMapUpdate asciiLowerCase lightReaction emptyMap)
                  /\ ConceptLink.target el = ConceptNode.label n).
Proof.
  apply (link_between_known_labels_is_stored asciiLowerCase lightReaction emptyMap).
  - apply list_elem_of_In. vm_compute. by left.
  - right. exists (Update.mkNode "Light"). split; [|reflexivity].
    apply list_elem_of_In. vm_compute. by left.
  - right. exists (Update.mkNode "Glucose"). split; [|reflexivity].
    apply list_elem_of_In. vm_compute. right. by left.
Defined.

(** ** Drag state: facts about the handlers *)

(** X4. From the initial state and through any sequence of mouse events, a
    pointer position is held only while a node is marked dragged; mouse up
    and mouse leave clear both; and when the container is mounted at every
    event, a node is marked dragged only with a pointer position, so that a
    dragged node without a pointer position needs a mouse down without
    container. *)
Theorem pointer_held_only_while_dragging (events : list MouseEvent) :
  (is_Some (DragState.dragPos (dragStateAfter events)) ->
   is_Some (DragState.draggedNodeId (dragStateAfter events)))
  /\ dragStateAfter (events ++ [MouseUp]) = DragState.mk None None
  /\ dragStateAfter (events ++ [MouseLeave]) = DragState.mk None None
  /\ (Forall (fun e => match e with
                       | MouseDown container _ _ _ => is_Some container
                       | MouseMove container _ _ => is_Some container
                       | _ => True
                       end) events ->
      is_Some (DragState.draggedNodeId (dragStateAfter events)) ->
      is_Some (DragState.dragPos (dragStateAfter events))).
Proof.
  split; [|split; [|split]].
  - induction events as [|e events IH] using rev_ind; [by intros [? ?]|].
    unfold dragStateAfter in *. rewrite fold_left_app. simpl.
    destruct e as [[rect|] cx cy nodeId|[rect|] cx cy| |]; simpl; eauto.
    + unfold handleMouseMove. destruct (truthy _) eqn:E; [|done].
      intros _. destruct (DragState.draggedNodeId _); [eauto|discriminate].
    + by intros [? ?].
    + by intros [? ?].
  - unfold dragStateAfter. by rewrite fold_left_app.
  - unfold dragStateAfter. by rewrite fold_left_app.
  - induction events as [|e events IH] using rev_ind; [by intros _ [? ?]|].
    intros Hall. apply Forall_app in Hall as [Hall He].
    rewrite Forall_singleton in He.
    unfold dragStateAfter in *. rewrite fold_left_app. simpl.
    destruct e as [[rect|] cx cy nodeId|[rect|] cx cy| |]; simpl.
    + intros _. eauto.
    + simpl in He. destruct He as [? He]. discriminate.
    + unfold handleMouseMove. destruct (truthy _) eqn:E; simpl; [intros _; eauto|].
      by apply IH.
    + simpl in He. destruct He as [? He]. discriminate.
    + by intros [? ?].
    + by intros [? ?].
Qed.

Lemma pointer_held_only_while_dragging_witness :
  is_Some (DragState.dragPos
             (dragStateAfter [MouseDown (Some (Rect.mk 350 70)) 500 200 "A";
                              MouseMove (Some (Rect.mk 350 70)) 520 210]))
  /\ DragState.draggedNodeId
       (dragStateAfter [MouseDown (Some (Rect.mk 350 70)) 500 200 "A";
                        MouseMove (Some (Rect.mk 350 70)) 520 210]) = Some "A"%string.
Proof.
  split; [|reflexivity].
  apply (proj2 (proj2 (proj2 (pointer_held_only_while_dragging
                  [MouseDown (Some (Rect.mk 350 70)) 500 200 "A";
                   MouseMove (Some (Rect.mk 350 70)) 520 210])))).
  - repeat constructor; simpl; eauto.
  - simpl. eauto.
Defined.

(** ** ForceLayoutEngine: further properties of one tick *)

Section TickInvariants.
Variable divide : Q -> Q -> Q.
Variable Math_sqrt : Q -> Q.
Variable links : list ConceptLink.t.
Variables width height : Q.
Variable draggedNodeId : option string.
Variable dragPos : option Point.t.

Local Abbreviation tick :=
  (simulate divide Math_sqrt links width height draggedNodeId dragPos).

(** X5. A tick keeps the node list: the result has the same length, and
    each entry has the id and the label of the entry at the same place
    before; no node is added, dropped, moved in the list or renamed. *)
Theorem tick_keeps_node_list (prevNodes : list ConceptNode.t) :
  length (tick prevNodes) = length prevNodes
  /\ forall i n, prevNodes !! i = Some n ->
       exists n', tick prevNodes !! i = Some n'
                  /\ ConceptNode.id n' = ConceptNode.id n
                  /\ ConceptNode.label n' = ConceptNode.label n.
Proof.
  pose proof (forces_velocityOnly divide Math_sqrt links width height draggedNodeId prevNodes)
    as Hf.
  pose proof (collisions_unmovedIfDragged divide draggedNodeId
                (attraction divide Math_sqrt links draggedNodeId
                   (repulsion divide Math_sqrt width height draggedNodeId prevNodes))) as Hc.
  split.
  - unfold simulate. rewrite length_fmap.
    by rewrite <- (Forall2_length _ _ _ Hc), <- (Forall2_length _ _ _ Hf).
  - intros i n Hi.
    destruct (Forall2_lookup_l _ _ _ i n Hf Hi) as (f & Hfi & Hid & Hlab & _).
    destruct (Forall2_lookup_l _ _ _ i f Hc Hfi) as (c & Hci & Hid' & Hlab' & _).
    exists (updatePosition width height draggedNodeId dragPos c).
    unfold simulate. rewrite list_lookup_fmap, Hci. split; [done|].
    destruct (updatePosition_id width height draggedNodeId dragPos c) as [-> ->].
    split; congruence.
Qed.

Lemma dampedVelocity_bounds (v : option Q) :
  - 8 <= dampedVelocity v /\ dampedVelocity v <= 8
  /\ (dampedVelocity v = 0 \/ 0.05 <= Qabs (dampedVelocity v)).
Proof.
  unfold dampedVelocity.
  destruct (clamp_inside (- 8) 8 (or0 v * 0.65)) as [Hlo Hhi]; [lra|].
  destruct (Qltb _ 0.05) eqn:E.
  - split; [lra|]. split; [lra|]. by left.
  - split; [done|]. split; [done|]. right. by apply Qltb_ge in E.
Qed.

(** X6. After a tick every node has a velocity on both axes, each component
    within [-8, 8], and either 0 or at least 0.05 in size: no slow drift is
    kept. *)
Theorem tick_bounds_velocity (prevNodes : list ConceptNode.t) (n' : ConceptNode.t) :
  n' ∈ tick prevNodes ->
  exists vx vy,
    ConceptNode.vx n' = Some vx /\ ConceptNode.vy n' = Some vy
    /\ - 8 <= vx <= 8 /\ - 8 <= vy <= 8
    /\ (vx = 0 \/ 0.05 <= Qabs vx) /\ (vy = 0 \/ 0.05 <= Qabs vy).
Proof.
  intros Hn'. unfold simulate in Hn'. apply list_elem_of_fmap in Hn' as (n & -> & _).
  assert (Hint : exists vx vy,
            ConceptNode.vx (integrate width height n) = Some vx
            /\ ConceptNode.vy (integrate width height n) = Some vy
            /\ - 8 <= vx <= 8 /\ - 8 <= vy <= 8
            /\ (vx = 0 \/ 0.05 <= Qabs vx) /\ (vy = 0 \/ 0.05 <= Qabs vy)).
  { exists (dampedVelocity (ConceptNode.vx n)), (dampedVelocity (ConceptNode.vy n)).
    destruct (dampedVelocity_bounds (ConceptNode.vx n)) as (? & ? & ?).
    destruct (dampedVelocity_bounds (ConceptNode.vy n)) as (? & ? & ?).
    repeat split; done. }
  unfold updatePosition. destruct dragPos as [p|]; [|done].
  destruct (isDragged draggedNodeId n); [|done].
  exists 0, 0. simpl. repeat split; try lra; by left.
Qed.

End TickInvariants.

Section PairFacts.
Variable draggedNodeId : option string.

Local Abbreviation dragged := (isDragged draggedNodeId).

Lemma collidePair_centroid (u v : ConceptNode.t) :
  dragged u = false -> dragged v = false ->
  exists u' v',
    collidePair Qdiv draggedNodeId 0 1 [u; v] = [u'; v']
    /\ ConceptNode.x u' + ConceptNode.x v' == ConceptNode.x u + ConceptNode.x v
    /\ ConceptNode.y u' + ConceptNode.y v' == ConceptNode.y u + ConceptNode.y v.
Proof.
  intros Hu Hv. rewrite (collidePair_free_pair draggedNodeId u v Hu Hv). cbv zeta.
  destruct (_ && _); [|exists u, v; by repeat split].
  destruct (Qltb _ _).
  - eexists _, _. split; [reflexivity|].
    cbn [ConceptNode.x ConceptNode.y setVx setX]. split; [ring|reflexivity].
  - eexists _, _. split; [reflexivity|].
    cbn [ConceptNode.x ConceptNode.y setVy setY]. split; [reflexivity|ring].
Qed.

(** X7. The collision phase of a tick on two free nodes splits the
    correction evenly: the sum of the two positions, and so the midpoint of
    the pair, is the same after the three passes on each axis; and a pair
    whose padded footprints are apart is returned as it is, velocities
    included. *)
Theorem collisions_keep_midpoint (u v : ConceptNode.t) :
  dragged u = false -> dragged v = false ->
  exists u' v',
    collisions Qdiv draggedNodeId [u; v] = [u'; v']
    /\ ConceptNode.x u' + ConceptNode.x v' == ConceptNode.x u + ConceptNode.x v
    /\ ConceptNode.y u' + ConceptNode.y v' == ConceptNode.y u + ConceptNode.y v
    /\ (apart u v -> u' = u /\ v' = v).
Proof.
  intros Hu Hv.
  destruct (collidePair_centroid u v Hu Hv) as (u' & v' & E & Hx & Hy).
  destruct (collidePair_two draggedNodeId u v Hu Hv) as (u2 & v2 & E2 & _ & _ & Hap).
  rewrite E in E2. injection E2 as <- <-.
  exists u', v'.
  change (collisions Qdiv draggedNodeId [u; v])
    with (collisionPass Qdiv draggedNodeId
            (collisionPass Qdiv draggedNodeId (collisionPass Qdiv draggedNodeId [u; v]))).
  rewrite (collisionPass_two draggedNodeId u v), E.
  rewrite (collisionPass_two draggedNodeId u' v'), (collidePair_apart draggedNodeId u' v' Hap).
  rewrite (collisionPass_two draggedNodeId u' v'), (collidePair_apart draggedNodeId u' v' Hap).
  split; [done|]. split; [done|]. split; [done|].
  intros Hap0. rewrite (collidePair_apart draggedNodeId u v Hap0) in E.
  by injection E as <- <-.
Qed.

End PairFacts.

Section RestFacts.
Variable Math_sqrt : Q -> Q.
Variables width height : Q.
Variable draggedNodeId : option string.
Variable dragPos : option Point.t.

Lemma or0_eq (q : Q) : or0 (Some q) == q.
Proof.
  unfold or0. destruct (Qeq_bool q 0) eqn:E; [|reflexivity].
  apply Qeq_bool_iff in E. by rewrite E.
Qed.

Lemma clamp_identity lo hi v : lo <= v -> v <= hi -> Math_max lo (Math_min hi v) == v.
Proof.
  intros Hlo Hhi. unfold Math_max, Math_min.
  destruct (Qltb v hi) eqn:E1.
  - destruct (Qltb lo v) eqn:E2; [reflexivity|]. apply Qltb_ge in E2. lra.
  - apply Qltb_ge in E1. destruct (Qltb lo hi) eqn:E2; [lra|]. apply Qltb_ge in E2. lra.
Qed.

(** The velocity after the final step of a node that carried the pull [c]
    towards the centre only, for a pull of at most 0.075. *)
Lemma small_pull_snapped (v0 : option Q) (c : Q) :
  or0 v0 == 0 -> - 0.075 <= c <= 0.075 ->
  dampedVelocity (Some (or0 v0 + c)) = 0.
Proof.
  intros Hv Hc. unfold dampedVelocity.
  pose proof (or0_eq (or0 v0 + c)) as Hor.
  set (q := or0 (Some (or0 v0 + c))) in *.
  assert (Hq : - 0.075 <= q <= 0.075) by (rewrite Hor, Hv; lra).
  assert (Hcl : Math_max (- 8) (Math_min 8 (q * 0.65)) == q * 0.65)
    by (apply clamp_identity; lra).
  destruct (Qltb _ 0.05) eqn:E; [done|].
  apply Qltb_ge in E. unfold Math_abs in E. rewrite Hcl in E.
  revert E. apply Qabs_case; intros; lra.
Qed.

(** X8. A lone free node without links comes to rest near the centre: with
    no velocity, inside the margin and at most 15 units from the centre of
    the viewport on each axis, a tick leaves it where it is, with velocity
    0.  The pull towards the centre is snapped away before it moves the
    node. *)
Theorem lone_node_rests_near_centre (n : ConceptNode.t) :
  isDragged draggedNodeId n = false ->
  or0 (ConceptNode.vx n) == 0 -> or0 (ConceptNode.vy n) == 0 ->
  Qabs (width / 2 - ConceptNode.x n) <= 15 ->
  Qabs (height / 2 - ConceptNode.y n) <= 15 ->
  60 <= ConceptNode.x n <= width - 60 ->
  60 <= ConceptNode.y n <= height - 60 ->
  exists n',
    simulate Qdiv Math_sqrt [] width height draggedNodeId dragPos [n] = [n']
    /\ ConceptNode.id n' = ConceptNode.id n /\ ConceptNode.label n' = ConceptNode.label n
    /\ ConceptNode.x n' == ConceptNode.x n /\ ConceptNode.y n' == ConceptNode.y n
    /\ ConceptNode.vx n' = Some 0 /\ ConceptNode.vy n' = Some 0.
Proof.
  intros Hfree Hvx Hvy Hx Hy Hmx Hmy.
  apply Qabs_Qle_condition in Hx, Hy.
  set (cx := (width / 2 - ConceptNode.x n) * 0.005).
  set (cy := (height / 2 - ConceptNode.y n) * 0.005).
  assert (Hsim : simulate Qdiv Math_sqrt [] width height draggedNodeId dragPos [n]
                 = [updatePosition width height draggedNodeId dragPos
                      (addVelocity n cx cy)]).
  { unfold simulate.
    assert (Hrep : repulsion Qdiv Math_sqrt width height draggedNodeId [n]
                   = [addVelocity n cx cy]).
    { change (repulsion Qdiv Math_sqrt width height draggedNodeId [n])
        with (centerPull Qdiv width height draggedNodeId 0 [n]).
      unfold centerPull. change ([n] !! 0%nat) with (Some n). cbv beta iota.
      by rewrite Hfree. }
    rewrite Hrep. reflexivity. }
  assert (Hup : updatePosition width height draggedNodeId dragPos (addVelocity n cx cy)
                = integrate width height (addVelocity n cx cy)).
  { unfold updatePosition. destruct dragPos; [|done].
    replace (isDragged draggedNodeId (addVelocity n cx cy)) with false; done. }
  rewrite Hsim, Hup. eexists. split; [reflexivity|].
  assert (Hdx : dampedVelocity (Some (or0 (ConceptNode.vx n) + cx)) = 0)
    by (apply small_pull_snapped; [done|subst cx; lra]).
  assert (Hdy : dampedVelocity (Some (or0 (ConceptNode.vy n) + cy)) = 0)
    by (apply small_pull_snapped; [done|subst cy; lra]).
  change (integrate width height (addVelocity n cx cy))
    with (ConceptNode.mk (ConceptNode.id n) (ConceptNode.label n)
            (Math_max 60 (Math_min (width - 60)
               (ConceptNode.x n + dampedVelocity (Some (or0 (ConceptNode.vx n) + cx)))))
            (Math_max 60 (Math_min (height - 60)
               (ConceptNode.y n + dampedVelocity (Some (or0 (ConceptNode.vy n) + cy)))))
            (Some (dampedVelocity (Some (or0 (ConceptNode.vx n) + cx))))
            (Some (dampedVelocity (Some (or0 (ConceptNode.vy n) + cy))))).
  rewrite Hdx, Hdy. cbn [ConceptNode.id ConceptNode.label ConceptNode.x ConceptNode.y
                         ConceptNode.vx ConceptNode.vy].
  split; [done|]. split; [done|].
  split; [|split; [|done]].
  - rewrite clamp_identity; lra.
  - rewrite clamp_identity; lra.
Qed.

End RestFacts.


(** ** ForceLayoutEngine: further properties of the seeding *)

Section SeedInvariants.
Variables Math_cos Math_sin : Q -> Q.
Variable Math_PI : Q.
Variable random : nat -> Q.
Variable links : list ConceptLink.t.
Variables width height : Q.

Local Abbreviation seed := (seedNode Math_cos Math_sin Math_PI random links width height).
Local Abbreviation seedAll := (seedNodes Math_cos Math_sin Math_PI random links width height).

Lemma setLabel_same (e : ConceptNode.t) : setLabel e (ConceptNode.label e) = e.
Proof. by destruct e. Qed.

(** The array after one step: an entry found by id gets the label of the
    node, a node that is not found is pushed. *)
Lemma seedNode_next st n :
  (exists i e,
     list_find (fun en => ConceptNode.id en = ConceptNode.id n) (next st) = Some (i, e)
     /\ next (seed st n) = <[i := setLabel e (ConceptNode.label n)]> (next st))
  \/ (list_find (fun en => ConceptNode.id en = ConceptNode.id n) (next st) = None
      /\ exists m, next (seed st n) = next st ++ [m]
                   /\ ConceptNode.id m = ConceptNode.id n
                   /\ ConceptNode.label m = ConceptNode.label n
                   /\ ConceptNode.vx m = Some 0 /\ ConceptNode.vy m = Some 0).
Proof.
  unfold seedNode.
  destruct (list_find _ (next st)) as [[i e]|] eqn:E.
  - left. exists i, e. split; [done|].
    destruct (String.eqb_spec (ConceptNode.label e) (ConceptNode.label n)) as [Hl|Hl]; simpl.
    + rewrite <- Hl, setLabel_same. apply list_find_Some in E as (E & _).
      by rewrite list_insert_id.
    + done.
  - right. split; [done|].
    destruct (spawnPosition _ _ _ _ _ _ _ _ _ _) as [[initX initY] draws'].
    eexists. split; [reflexivity|]. done.
Qed.

Lemma seedNode_flag st n : hasChanges (seed st n) = false -> seed st n = st.
Proof.
  unfold seedNode. destruct (list_find _ (next st)) as [[i e]|].
  - destruct (negb _); [discriminate|done].
  - destruct (spawnPosition _ _ _ _ _ _ _ _ _ _) as [[initX initY] draws']. discriminate.
Qed.

Lemma seedNode_flag_stays st n : hasChanges st = true -> hasChanges (seed st n) = true.
Proof.
  intros H. unfold seedNode. destruct (list_find _ (next st)) as [[i e]|].
  - by destruct (negb _).
  - by destruct (spawnPosition _ _ _ _ _ _ _ _ _ _) as [[initX initY] draws'].
Qed.

Lemma seed_fold_flag nodes : forall st,
  hasChanges (fold_left seed nodes st) = false -> fold_left seed nodes st = st.
Proof.
  induction nodes as [|n nodes IH]; intros st H; simpl in *; [done|].
  destruct (hasChanges (seed st n)) eqn:E.
  - exfalso. clear IH. revert H. generalize (seed st n) E. clear.
    induction nodes as [|m nodes IH]; intros st' E H; simpl in *; [congruence|].
    apply (IH (seed st' m)); [by apply seedNode_flag_stays|done].
  - rewrite (seedNode_flag st n E) in *. by apply IH.
Qed.

(** The updater returns the array it built, also when nothing changed. *)
Lemma seedNodes_next prev nodes :
  seedAll prev nodes = next (fold_left seed nodes (mkSeed prev false 0)).
Proof.
  unfold seedNodes. destruct (hasChanges _) eqn:E; [done|].
  by rewrite (seed_fold_flag nodes _ E).
Qed.

Lemma seedNode_keeps st n i a :
  next st !! i = Some a ->
  exists b, next (seed st n) !! i = Some b /\ sameButLabel a b.
Proof.
  intros Hi.
  destruct (seedNode_next st n) as [(j & e & Hfind & ->)|(_ & m & -> & _)].
  - apply list_find_Some in Hfind as (Hj & _ & _).
    destruct (decide (j = i)) as [->|Hne].
    + rewrite Hi in Hj. injection Hj as ->.
      exists (setLabel e (ConceptNode.label n)).
      split; [apply list_lookup_insert_eq; by eapply lookup_lt_Some|done].
    + exists a. by rewrite list_lookup_insert_ne.
  - exists a. split; [|done]. by apply lookup_app_l_Some.
Qed.

Lemma sameButLabel_trans a b c : sameButLabel a b -> sameButLabel b c -> sameButLabel a c.
Proof. unfold sameButLabel. intros (? & ? & ? & ? & ?) (? & ? & ? & ? & ?). repeat split; congruence. Qed.

Lemma seed_fold_keeps nodes : forall st i a,
  next st !! i = Some a ->
  exists b, next (fold_left seed nodes st) !! i = Some b /\ sameButLabel a b.
Proof.
  induction nodes as [|n nodes IH]; intros st i a Hi; simpl.
  - exists a. by split.
  - destruct (seedNode_keeps st n i a Hi) as (b & Hb & Hab).
    destruct (IH _ i b Hb) as (c & Hc & Hbc). exists c. split; [done|].
    by eapply sameButLabel_trans.
Qed.

Lemma seed_fold_new nodes : forall st i b,
  next (fold_left seed nodes st) !! i = Some b -> (length (next st) <= i)%nat ->
  ConceptNode.vx b = Some 0 /\ ConceptNode.vy b = Some 0
  /\ exists n, n ∈ nodes /\ ConceptNode.id b = ConceptNode.id n.
Proof.
  induction nodes as [|n nodes IH]; intros st i b Hb Hi; simpl in *.
  - apply lookup_lt_Some in Hb. lia.
  - destruct (decide (length (next (seed st n)) <= i)%nat) as [Hle|Hgt].
    + destruct (IH _ i b Hb Hle) as (? & ? & m & Hm & ?).
      split; [done|]. split; [done|]. exists m. split; [by right|done].
    + destruct (seedNode_next st n) as [(j & e & _ & E)|(_ & m & E & Hid & _ & Hvx & Hvy)].
      * rewrite E, length_insert in Hgt. lia.
      * rewrite E, length_app in Hgt. simpl in Hgt.
        assert (Hi' : i = length (next st)) by lia.
        assert (Hm : next (seed st n) !! i = Some m).
        { rewrite E, Hi'. by rewrite lookup_app_r, Nat.sub_diag. }
        destruct (seed_fold_keeps nodes _ i m Hm) as (b' & Hb' & Hid' & _ & _ & Hvx' & Hvy').
        rewrite Hb in Hb'. injection Hb' as <-.
        split; [congruence|]. split; [congruence|]. exists n. split; [left|congruence].
Qed.

(** X9. Seeding never moves a node the layout holds: every entry of the
    animated list keeps its place, its id, its position and its velocity
    (its label alone may be refreshed from the map), and every entry that
    comes after them is a node of the map, pushed with velocity 0. *)
Theorem seeding_keeps_layout (prev nodes : list ConceptNode.t) :
  (forall i a, prev !! i = Some a ->
     exists b, seedAll prev nodes !! i = Some b /\ sameButLabel a b)
  /\ (forall i b, seedAll prev nodes !! i = Some b -> (length prev <= i)%nat ->
        ConceptNode.vx b = Some 0 /\ ConceptNode.vy b = Some 0
        /\ exists n, n ∈ nodes /\ ConceptNode.id b = ConceptNode.id n).
Proof.
  rewrite seedNodes_next. split.
  - intros i a Hi. by apply seed_fold_keeps.
  - intros i b Hb Hi. by apply (seed_fold_new nodes (mkSeed prev false 0) i b).
Qed.

(** Looking a node up by id after an entry was replaced by one with the
    same id. *)
Lemma find_by_id_insert (layout : list ConceptNode.t) k i e e' j f :
  layout !! i = Some e -> ConceptNode.id e' = ConceptNode.id e ->
  list_find (fun en => ConceptNode.id en = k) layout = Some (j, f) ->
  list_find (fun en => ConceptNode.id en = k) (<[i := e']> layout)
  = Some (j, if decide (j = i) then e' else f).
Proof.
  intros Hi Hid Hfind. apply list_find_Some in Hfind as (Hj & Hk & Hmin).
  apply list_find_Some. split; [|split].
  - destruct (decide (j = i)) as [->|Hne].
    + apply list_lookup_insert_eq. by eapply lookup_lt_Some.
    + by rewrite list_lookup_insert_ne.
  - destruct (decide (j = i)) as [->|Hne]; [|done].
    rewrite Hi in Hj. injection Hj as ->. congruence.
  - intros j' y Hy Hlt. destruct (decide (j' = i)) as [->|Hne].
    + rewrite list_lookup_insert_eq in Hy by (by eapply lookup_lt_Some).
      injection Hy as <-. rewrite Hid. by apply (Hmin i e).
    + rewrite list_lookup_insert_ne in Hy by done. by apply (Hmin j' y).
Qed.

Lemma seedNode_settles st n : settled (next (seed st n)) n.
Proof.
  destruct (seedNode_next st n) as [(i & e & Hfind & ->)|(Hnone & m & -> & Hid & Hl & _)].
  - exists i, (setLabel e (ConceptNode.label n)). split; [|done].
    pose proof Hfind as Hfind'. apply list_find_Some in Hfind' as (Hi & _).
    rewrite (find_by_id_insert _ _ i e (setLabel e (ConceptNode.label n)) i e Hi eq_refl Hfind).
    by rewrite decide_True.
  - exists (0 + length (next st))%nat, m. split; [|done].
    rewrite list_find_app_r by done. simpl. by rewrite decide_True.
Qed.

Lemma seedNode_keeps_settled st n m :
  ConceptNode.id m <> ConceptNode.id n -> settled (next st) m -> settled (next (seed st n)) m.
Proof.
  intros Hne (j & f & Hfind & Hl).
  destruct (seedNode_next st n) as [(i & e & Hfindn & ->)|(_ & new & -> & _)].
  - pose proof Hfindn as Hn. apply list_find_Some in Hn as (Hi & Hide & _).
    exists j, f. split; [|done].
    rewrite (find_by_id_insert _ _ i e (setLabel e (ConceptNode.label n)) j f Hi eq_refl Hfind).
    destruct (decide (j = i)) as [->|]; [|done].
    apply list_find_Some in Hfind as (Hj & Hidf & _).
    rewrite Hi in Hj. injection Hj as ->. congruence.
  - exists j, f. split; [|done]. by apply list_find_app_l.
Qed.

Lemma seed_fold_keeps_settled nodes m : forall st,
  (forall n, n ∈ nodes -> ConceptNode.id m <> ConceptNode.id n) ->
  settled (next st) m -> settled (next (fold_left seed nodes st)) m.
Proof.
  induction nodes as [|n nodes IH]; intros st Hne Hm; simpl; [done|].
  apply IH; [intros n' Hn'; apply Hne; by right|].
  apply seedNode_keeps_settled; [apply Hne; left|done].
Qed.

Lemma seed_fold_settles nodes : forall st n,
  NoDup (map ConceptNode.id nodes) -> n ∈ nodes ->
  settled (next (fold_left seed nodes st)) n.
Proof.
  induction nodes as [|a nodes IH]; intros st n Hnd Hn; [inversion Hn|].
  simpl in Hnd. apply NoDup_cons in Hnd as [Ha Hnd]. simpl.
  apply elem_of_cons in Hn as [->|Hn]; [|by apply IH].
  apply seed_fold_keeps_settled; [|apply seedNode_settles].
  intros n' Hn' Heq. apply Ha. rewrite Heq. apply list_elem_of_fmap. eauto.
Qed.

Lemma seedNode_noop st n : settled (next st) n -> seed st n = st.
Proof.
  intros (i & e & Hfind & Hl). unfold seedNode. rewrite Hfind, Hl.
  by rewrite String.eqb_refl.
Qed.

Lemma seed_fold_noop nodes st :
  (forall n, n ∈ nodes -> settled (next st) n) -> fold_left seed nodes st = st.
Proof.
  induction nodes as [|n nodes IH]; intros H; simpl; [done|].
  rewrite (seedNode_noop st n) by (apply H; left).
  apply IH. intros n' Hn'. apply H. by right.
Qed.

(** X10. After seeding, the layout holds every node of the map: for a map
    whose ids are distinct, each node has an entry with its id and its
    label, the first entry with that id. *)
Theorem seeding_holds_every_node (prev nodes : list ConceptNode.t) (n : ConceptNode.t) :
  NoDup (map ConceptNode.id nodes) -> n ∈ nodes ->
  exists i e,
    seedAll prev nodes !! i = Some e
    /\ ConceptNode.id e = ConceptNode.id n /\ ConceptNode.label e = ConceptNode.label n
    /\ settled (seedAll prev nodes) n.
Proof.
  intros Hnd Hn. rewrite seedNodes_next.
  pose proof (seed_fold_settles nodes (mkSeed prev false 0) n Hnd Hn) as Hs.
  destruct Hs as (i & e & Hfind & Hl). exists i, e.
  pose proof Hfind as Hf. apply list_find_Some in Hf as (Hi & Hid & _).
  split; [done|]. split; [done|]. split; [done|]. by exists i, e.
Qed.

End SeedInvariants.

(** X11. Running the seeding again on its own result, with the same nodes
    of distinct ids, returns the layout as it is, whatever the links, the
    viewport and the random draws of the second run: a resize or a new link
    alone respawns and moves nothing. *)
Theorem seeding_again_changes_nothing
    (cos1 sin1 cos2 sin2 : Q -> Q) (pi1 pi2 : Q) (random1 random2 : nat -> Q)
    (links1 links2 : list ConceptLink.t) (width1 height1 width2 height2 : Q)
    (prev nodes : list ConceptNode.t) :
  NoDup (map ConceptNode.id nodes) ->
  seedNodes cos2 sin2 pi2 random2 links2 width2 height2
    (seedNodes cos1 sin1 pi1 random1 links1 width1 height1 prev nodes) nodes
  = seedNodes cos1 sin1 pi1 random1 links1 width1 height1 prev nodes.
Proof.
  intros Hnd.
  set (layout := seedNodes cos1 sin1 pi1 random1 links1 width1 height1 prev nodes).
  unfold seedNodes at 1.
  rewrite (seed_fold_noop cos2 sin2 pi2 random2 links2 width2 height2 nodes
             (mkSeed layout false 0)); [done|].
  intros n Hn. simpl. subst layout. rewrite seedNodes_next.
  by apply seed_fold_settles.
Qed.

(** ** Merge, seeding, ticks and drawing together *)

Lemma Forall2_labels (R : ConceptNode.t -> ConceptNode.t -> Prop) l l' :
  (forall a b, R a b -> ConceptNode.label b = ConceptNode.label a) ->
  Forall2 R l l' -> map ConceptNode.label l' = map ConceptNode.label l.
Proof.
  intros HR H. induction H as [|a b l l' Hab H IH]; [done|].
  simpl. by rewrite IH, (HR a b Hab).
Qed.

Lemma simulate_labels divide Math_sqrt links width height draggedNodeId dragPos prevNodes :
  map ConceptNode.label
      (simulate divide Math_sqrt links width height draggedNodeId dragPos prevNodes)
  = map ConceptNode.label prevNodes.
Proof.
  pose proof (forces_velocityOnly divide Math_sqrt links width height draggedNodeId prevNodes)
    as Hf.
  pose proof (collisions_unmovedIfDragged divide draggedNodeId
                (attraction divide Math_sqrt links draggedNodeId
                   (repulsion divide Math_sqrt width height draggedNodeId prevNodes))) as Hc.
  apply Forall2_labels in Hf; [|by intros a b (_ & ? & _)].
  apply Forall2_labels in Hc; [|by intros a b (_ & ? & _)].
  unfold simulate. rewrite <- Hf, <- Hc.
  generalize (collisions divide draggedNodeId
                (attraction divide Math_sqrt links draggedNodeId
                   (repulsion divide Math_sqrt width height draggedNodeId prevNodes))).
  intros l. induction l as [|c l IH]; [done|].
  simpl in *. rewrite IH. f_equal.
  by destruct (updatePosition_id width height draggedNodeId dragPos c) as [_ ->].
Qed.

Lemma layoutAfter_labels divide Math_sqrt links width height frames : forall layout,
  map ConceptNode.label (layoutAfter divide Math_sqrt links width height frames layout)
  = map ConceptNode.label layout.
Proof.
  unfold layoutAfter. induction frames as [|f frames IH]; intros layout; simpl; [done|].
  by rewrite IH, simulate_labels.
Qed.

Lemma linkLine_is_Some divide layout l :
  ConceptLink.source l ∈ map ConceptNode.label layout ->
  ConceptLink.target l ∈ map ConceptNode.label layout ->
  is_Some (linkLine divide layout l).
Proof.
  intros Hs Ht.
  apply list_elem_of_fmap in Hs as (s & Hs & Hsin).
  apply list_elem_of_fmap in Ht as (t & Ht & Htin).
  unfold linkLine.
  destruct (find_is_Some
              (fun n => String.eqb (ConceptNode.label n) (ConceptLink.source l)) layout s Hsin)
    as [s' ->]; [rewrite Hs; apply String.eqb_refl|].
  destruct (find_is_Some
              (fun n => String.eqb (ConceptNode.label n) (ConceptLink.target l)) layout t Htin)
    as [t' ->]; [rewrite Ht; apply String.eqb_refl|].
  eauto.
Qed.

(** X12. Merge, seeding, ticks and drawing fit together: for the map after
    any sequence of merges, seeded into any layout and animated for any
    number of frames under any drag states, the drawing callback finds both
    ends of every link of the map, so no stored link is skipped. *)
Theorem every_link_is_drawn
    (toLowerCase : string -> string) (Math_cos Math_sin : Q -> Q) (Math_PI : Q)
    (random : nat -> Q) (divide : Q -> Q -> Q) (Math_sqrt : Q -> Q) (width height : Q)
    (updates : list Update.t) (prev : list ConceptNode.t)
    (frames : list (option string * option Point.t)) (l : ConceptLink.t) :
  let conceptMap := conceptMapAfter toLowerCase updates in
  let seeded := seedNodes Math_cos Math_sin Math_PI random (ConceptMap.links conceptMap)
                  width height prev (ConceptMap.nodes conceptMap) in
  let animatedNodes :=
    layoutAfter divide Math_sqrt (ConceptMap.links conceptMap) width height frames seeded in
  l ∈ ConceptMap.links conceptMap -> is_Some (linkLine divide animatedNodes l).
Proof.
  intros conceptMap seeded animatedNodes Hl.
  destruct (after_wellFormed toLowerCase updates) as [Hlabels Hids Hends _].
  fold conceptMap in Hlabels, Hids, Hends.
  assert (Hnd : NoDup (map ConceptNode.id (ConceptMap.nodes conceptMap))).
  { assert (E : map ConceptNode.id (ConceptMap.nodes conceptMap)
                = map ConceptNode.label (ConceptMap.nodes conceptMap)).
    { clear -Hids. induction Hids as [|n ns Hn _ IH]; [done|]. simpl. by rewrite Hn, IH. }
    rewrite E. clear -Hlabels.
    change (map (fun n => toLowerCase (ConceptNode.label n)) (ConceptMap.nodes conceptMap))
      with ((fun n => toLowerCase (ConceptNode.label n)) <$> ConceptMap.nodes conceptMap)
      in Hlabels.
    rewrite (list_fmap_compose ConceptNode.label toLowerCase) in Hlabels.
    by apply NoDup_fmap_1 in Hlabels. }
  assert (Hheld : forall s, s ∈ map ConceptNode.label (ConceptMap.nodes conceptMap) ->
                            s ∈ map ConceptNode.label animatedNodes).
  { intros s Hs. apply list_elem_of_fmap in Hs as (n & -> & Hn).
    unfold animatedNodes. rewrite layoutAfter_labels. unfold seeded.
    rewrite seedNodes_next.
    destruct (seed_fold_settles Math_cos Math_sin Math_PI random (ConceptMap.links conceptMap)
                width height (ConceptMap.nodes conceptMap) (mkSeed prev false 0) n Hnd Hn)
      as (i & e & Hfind & Hlab).
    apply list_find_Some in Hfind as (Hi & _).
    apply list_elem_of_fmap. exists e. split; [done|]. by eapply list_elem_of_lookup_2. }
  rewrite Forall_forall in Hends. destruct (Hends l Hl) as [Hs Ht].
  apply linkLine_is_Some; by apply Hheld.
Qed.

(** ** parseJSON: cleaning and extraction *)

Section ParseFacts.
Variable isSpace : ascii -> bool.

Local Abbreviation backtick := ("`"%char).

Lemma fence_chars : fence = [backtick; backtick; backtick].
Proof. reflexivity. Qed.

Lemma jsonFence_chars : jsonFence = fence ++ String.list_ascii_of_string "json".
Proof. reflexivity. Qed.

Lemma dropSpaces_length text : (length (dropSpaces isSpace text) <= length text)%nat.
Proof.
  induction text as [|c text IH]; simpl; [done|].
  destruct (isSpace c); simpl; lia.
Qed.

Lemma dropSpaces_suffix text : dropSpaces isSpace text `suffix_of` text.
Proof.
  induction text as [|c text IH]; simpl; [done|].
  destruct (isSpace c); [by apply suffix_cons_r|done].
Qed.

Lemma dropSpaces_spaces ws text :
  Forall (fun c => isSpace c = true) ws ->
  dropSpaces isSpace (ws ++ text) = dropSpaces isSpace text.
Proof. induction 1 as [|c ws Hc _ IH]; simpl; [done|]. by rewrite Hc. Qed.

Lemma startsWith_spec pat text :
  startsWith pat text = true <-> exists rest, text = pat ++ rest.
Proof.
  revert text. induction pat as [|p pat IH]; intros text; simpl.
  - split; [eauto|done].
  - destruct text as [|c text].
    + split; [done|]. by intros (rest & ?).
    + rewrite andb_true_iff, IH. split.
      * intros (Hpc & rest & ->). apply Ascii.eqb_eq in Hpc as ->. eauto.
      * intros (rest & E). injection E as -> ->. split; [apply Ascii.eqb_refl|eauto].
Qed.

Lemma startsWith_length pat text :
  startsWith pat text = true -> (length pat <= length text)%nat.
Proof. intros (rest & ->)%startsWith_spec. rewrite length_app. lia. Qed.

(** The fuel of [removeAll] is enough: more fuel gives the same text. *)
Lemma removeMatches_fuel pat : pat <> [] -> forall f f' text,
  (length text <= f)%nat -> (length text <= f')%nat ->
  removeMatches isSpace f pat text = removeMatches isSpace f' pat text.
Proof.
  intros Hpat.
  assert (Hnil : forall f, removeMatches isSpace f pat [] = []).
  { intros [|f]; simpl; [done|]. by destruct pat. }
  induction f as [|f IH]; intros f' text Hf Hf'.
  - destruct text; [|simpl in Hf; lia]. by rewrite !Hnil.
  - destruct f' as [|f'].
    + destruct text; [|simpl in Hf'; lia]. by rewrite !Hnil.
    + simpl. destruct (startsWith pat text) eqn:E.
      * apply startsWith_length in E.
        assert (0 < length pat)%nat by (destruct pat; [done|simpl; lia]).
        pose proof (dropSpaces_length (drop (length pat) text)) as Hd.
        rewrite length_drop in Hd. apply IH; lia.
      * destruct text as [|c rest]; [done|]. simpl in Hf, Hf'. f_equal. apply IH; lia.
Qed.

Lemma removeAll_nil pat : removeAll isSpace pat [] = [].
Proof. done. Qed.

Lemma removeAll_match pat text :
  pat <> [] -> startsWith pat text = true ->
  removeAll isSpace pat text
  = removeAll isSpace pat (dropSpaces isSpace (drop (length pat) text)).
Proof.
  intros Hpat E. unfold removeAll.
  pose proof (startsWith_length _ _ E) as Hlen.
  assert (0 < length pat)%nat by (destruct pat; [done|simpl; lia]).
  destruct (length text) as [|n] eqn:En; [lia|]. simpl. rewrite E.
  pose proof (dropSpaces_length (drop (length pat) text)) as Hd.
  rewrite length_drop in Hd. apply removeMatches_fuel; [done|lia|lia].
Qed.

Lemma removeAll_skip pat c rest :
  startsWith pat (c :: rest) = false ->
  removeAll isSpace pat (c :: rest) = c :: removeAll isSpace pat rest.
Proof. intros E. unfold removeAll. cbn [length removeMatches]. by rewrite E. Qed.

(** A cleaned text can only begin with the first character of the pattern
    where the text did. *)
Lemma removeAll_head p pat text r :
  removeAll isSpace (p :: pat) text = p :: r -> exists rest, text = p :: rest.
Proof.
  destruct text as [|c rest]; [done|].
  destruct (startsWith (p :: pat) (c :: rest)) eqn:E.
  - intros _. simpl in E. apply andb_true_iff in E as [->%Ascii.eqb_eq _]. eauto.
  - rewrite (removeAll_skip _ _ _ E). intros [= -> _]. eauto.
Qed.

Lemma startsWith_fence text :
  startsWith fence text = true
  <-> exists rest, text = backtick :: backtick :: backtick :: rest.
Proof. rewrite startsWith_spec, fence_chars. done. Qed.

Lemma removeAll_fence_free_aux n : forall text,
  (length text <= n)%nat -> occursIn fence (removeAll isSpace fence text) = false.
Proof.
  induction n as [|n IH]; intros text Hn.
  - destruct text; [done|simpl in Hn; lia].
  - destruct text as [|c rest]; [done|].
    destruct (startsWith fence (c :: rest)) eqn:E.
    + rewrite removeAll_match by done.
      apply IH. pose proof (dropSpaces_length (drop (length fence) (c :: rest))) as Hd.
      rewrite length_drop in Hd. simpl in *. lia.
    + rewrite (removeAll_skip _ _ _ E).
      cbn [occursIn]. rewrite (IH rest) by (simpl in Hn; lia). rewrite orb_false_r.
      destruct (startsWith fence (c :: removeAll isSpace fence rest)) eqn:E'; [|done].
      exfalso. apply startsWith_fence in E' as (r & E').
      injection E' as -> E'.
      destruct (removeAll_head _ _ _ _ E') as (rest1 & ->).
      destruct (startsWith fence (backtick :: rest1)) eqn:E1.
      { apply startsWith_fence in E1 as (r1 & [= ->]). discriminate E. }
      rewrite (removeAll_skip _ _ _ E1) in E'. injection E' as E'.
      destruct (removeAll_head _ _ _ _ E') as (rest2 & ->). discriminate E.
Qed.

(** No fence is left after the second replacement. *)
Lemma removeAll_fence_free text : occursIn fence (removeAll isSpace fence text) = false.
Proof. by apply (removeAll_fence_free_aux (length text)). Qed.

Lemma startsWith_take pat n text :
  startsWith pat (take n text) = true -> startsWith pat text = true.
Proof.
  rewrite !startsWith_spec. intros (rest & E).
  exists (rest ++ drop n text). by rewrite app_assoc, <- E, take_drop.
Qed.

Lemma occursIn_take pat n : forall text,
  occursIn pat text = false -> occursIn pat (take n text) = false.
Proof.
  induction n as [|n IH]; intros text H.
  - rewrite take_0. destruct text; [done|]. simpl in *.
    apply orb_false_iff in H as [H _]. destruct pat; [done|done].
  - destruct text as [|c rest]; [done|]. cbn [occursIn] in H.
    apply orb_false_iff in H as [H1 H2].
    change (take (S n) (c :: rest)) with (c :: take n rest). cbn [occursIn].
    rewrite (IH rest H2), orb_false_r.
    destruct (startsWith pat (c :: take n rest)) eqn:E; [|done].
    apply (startsWith_take pat (S n) (c :: rest)) in E. congruence.
Qed.

Lemma occursIn_drop pat n : forall text,
  occursIn pat text = false -> occursIn pat (drop n text) = false.
Proof.
  induction n as [|n IH]; intros text H; [by rewrite drop_0|].
  destruct text as [|c rest]; [done|]. cbn [occursIn] in H.
  apply orb_false_iff in H as [_ H]. by apply IH.
Qed.

(** The extraction returns a contiguous piece of the text. *)
Lemma extractJSON_piece clean :
  exists a b, extractJSON clean = take a (drop b clean).
Proof.
  unfold extractJSON.
  destruct (if _ : bool then _ else _) as [start end_].
  destruct (_ && _ && _).
  - unfold substring. eauto.
  - exists (length clean), 0%nat. by rewrite drop_0, firstn_all.
Qed.

(** X13. What the second attempt of [parseJSON] parses never holds a code
    fence: when the reply is not JSON as it is, the value returned is the
    one parsed from the cleaned text, or the fallback, and the cleaned text
    has no three backticks in a row, whatever the reply was. *)
Theorem second_attempt_has_no_fence (J : Type) (JSON_parse : list ascii -> option J)
    (c : ascii) (rest : list ascii) (fallback : J) :
  parseJSON J JSON_parse isSpace (Some (c :: rest)) fallback
  = match JSON_parse (c :: rest) with
    | Some v => v
    | None => default fallback (JSON_parse (cleaned isSpace (c :: rest)))
    end
  /\ occursIn fence (cleaned isSpace (c :: rest)) = false.
Proof.
  split.
  - unfold parseJSON, cleaned. destruct (JSON_parse (c :: rest)); [done|].
    by destruct (JSON_parse _).
  - unfold cleaned.
    destruct (extractJSON_piece
                (removeAll isSpace fence (removeAll isSpace jsonFence (c :: rest))))
      as (a & b & ->).
    apply occursIn_take, occursIn_drop, removeAll_fence_free.
Qed.

(** *** Extraction of the object or array *)

Lemma indexOfFrom_skip c pre rest i :
  c ∉ pre -> indexOfFrom c (pre ++ rest) i = indexOfFrom c rest (i + Z.of_nat (length pre))%Z.
Proof.
  revert i. induction pre as [|d pre IH]; intros i Hc.
  - simpl. f_equal. lia.
  - apply not_elem_of_cons in Hc as [Hd Hc]. cbn [app indexOfFrom length].
    destruct (Ascii.eqb_spec d c) as [->|_]; [done|].
    rewrite IH by done. f_equal. lia.
Qed.

Lemma indexOfFrom_here c rest i : indexOfFrom c (c :: rest) i = i.
Proof. simpl. by rewrite Ascii.eqb_refl. Qed.

Lemma indexOfFrom_range c text : forall i,
  indexOfFrom c text i = (-1)%Z \/ (i <= indexOfFrom c text i)%Z.
Proof.
  induction text as [|d text IH]; intros i; simpl; [by left|].
  destruct (Ascii.eqb d c); [right; lia|].
  destruct (IH (i + 1)%Z) as [->|H]; [by left|right; lia].
Qed.

Lemma lastIndexOfFrom_app c a b : forall i found,
  lastIndexOfFrom c (a ++ b) i found
  = lastIndexOfFrom c b (i + Z.of_nat (length a))%Z (lastIndexOfFrom c a i found).
Proof.
  induction a as [|d a IH]; intros i found.
  - simpl. f_equal. lia.
  - cbn [app lastIndexOfFrom length]. rewrite IH. f_equal. lia.
Qed.

Lemma lastIndexOfFrom_absent c text : forall i found,
  c ∉ text -> lastIndexOfFrom c text i found = found.
Proof.
  induction text as [|d text IH]; intros i found Hc; [done|].
  apply not_elem_of_cons in Hc as [Hd Hc]. simpl.
  destruct (Ascii.eqb_spec d c) as [->|_]; [done|]. by apply IH.
Qed.

Lemma lastIndexOf_last c a post :
  c ∉ post -> lastIndexOf c (a ++ c :: post) = Z.of_nat (length a).
Proof.
  intros Hc. unfold lastIndexOf. rewrite lastIndexOfFrom_app. simpl.
  rewrite Ascii.eqb_refl. by apply lastIndexOfFrom_absent.
Qed.

Lemma substring_piece pre j post :
  substring (pre ++ j ++ post) (Z.of_nat (length pre)) (Z.of_nat (length pre + length j)) = j.
Proof.
  unfold substring. rewrite !length_app.
  replace (Z.max 0 (Z.min (Z.of_nat (length pre))
                      (Z.of_nat (length pre + (length j + length post)))))
    with (Z.of_nat (length pre)) by lia.
  replace (Z.max 0 (Z.min (Z.of_nat (length pre + length j))
                      (Z.of_nat (length pre + (length j + length post)))))
    with (Z.of_nat (length pre + length j)) by lia.
  replace (Z.to_nat (Z.min (Z.of_nat (length pre)) (Z.of_nat (length pre + length j))))
    with (length pre) by lia.
  replace (Z.to_nat (Z.max (Z.of_nat (length pre)) (Z.of_nat (length pre + length j))
                     - Z.min (Z.of_nat (length pre)) (Z.of_nat (length pre + length j))))
    with (length j) by lia.
  by rewrite drop_app_length, take_app_length.
Qed.

(** The opening and the closing character of an object or of an array. *)
Lemma extractJSON_cut pre o body c post :
  (o = "{"%char /\ c = "}"%char) \/ (o = "["%char /\ c = "]"%char) ->
  "{"%char ∉ pre -> "["%char ∉ pre -> c ∉ post ->
  extractJSON (pre ++ (o :: body ++ [c]) ++ post) = o :: body ++ [c].
Proof.
  intros Hoc Hbrace Hbracket Hpost.
  set (j := o :: body ++ [c]). set (text := pre ++ j ++ post).
  assert (Hlast : lastIndexOf c text = Z.of_nat (length pre + length body + 1)).
  { unfold text, j.
    replace (pre ++ (o :: body ++ [c]) ++ post) with ((pre ++ o :: body) ++ c :: post)
      by (by rewrite <- !app_assoc, <- !app_comm_cons, <- !app_assoc).
    rewrite lastIndexOf_last by done. rewrite length_app. simpl. f_equal. lia. }
  assert (Hj : length j = (length body + 2)%nat).
  { unfold j. simpl. rewrite length_app. simpl. lia. }
  assert (Hfirst : indexOf o text = Z.of_nat (length pre)).
  { unfold indexOf, text, j.
    rewrite indexOfFrom_skip by (by destruct Hoc as [[-> _]|[-> _]]).
    rewrite <- app_comm_cons, indexOfFrom_here. lia. }
  assert (Hother : forall d, d <> o -> d ∉ pre ->
            indexOf d text = (-1)%Z \/ (Z.of_nat (length pre) < indexOf d text)%Z).
  { intros d Hd Hpre. unfold indexOf, text, j. rewrite indexOfFrom_skip by done.
    cbn [app indexOfFrom]. destruct (Ascii.eqb_spec o d) as [<-|_]; [done|].
    destruct (indexOfFrom_range d ((body ++ [c]) ++ post) (0 + Z.of_nat (length pre) + 1)%Z)
      as [->|H]; [by left|right; lia]. }
  assert (Hsub : substring text (Z.of_nat (length pre)) (Z.of_nat (length pre + length j)) = j)
    by apply substring_piece.
  assert (Hbr : forall d, d <> o -> d ∉ pre ->
            (indexOf d text =? -1)%Z = true
            \/ ((indexOf d text =? -1)%Z = false
                /\ (Z.of_nat (length pre) <? indexOf d text)%Z = true
                /\ (indexOf d text <? Z.of_nat (length pre))%Z = false)).
  { intros d Hd Hpre. destruct (Hother d Hd Hpre) as [->|H]; [by left|right].
    split; [apply Z.eqb_neq; lia|]. split; [apply Z.ltb_lt; lia|apply Z.ltb_ge; lia]. }
  assert (Hstart : (Z.of_nat (length pre) =? -1)%Z = false) by (apply Z.eqb_neq; lia).
  assert (Hend : (Z.of_nat (length pre + length body + 1) + 1 =? 0)%Z = false)
    by (apply Z.eqb_neq; lia).
  assert (Hlt : (Z.of_nat (length pre) <? Z.of_nat (length pre + length body + 1) + 1)%Z = true)
    by (apply Z.ltb_lt; lia).
  assert (Hgoal : substring text (Z.of_nat (length pre))
                    (Z.of_nat (length pre + length body + 1) + 1) = j).
  { etransitivity; [|exact Hsub]. f_equal. rewrite Hj. lia. }
  unfold extractJSON. fold text.
  destruct Hoc as [[Ho Hc]|[Ho Hc]].
  - rewrite <- Ho, <- Hc, Hfirst, Hlast, Hstart.
    destruct (Hbr "["%char) as [E|(E & E' & _)]; [by rewrite Ho|done| |].
    + rewrite E. cbn [negb andb orb]. rewrite Hstart, Hend, Hlt. exact Hgoal.
    + rewrite E, E'. cbn [negb andb orb]. rewrite Hstart, Hend, Hlt. exact Hgoal.
  - rewrite <- Ho, <- Hc, Hfirst, Hlast, Hstart.
    destruct (Hbr "{"%char) as [E|(E & _ & E')]; [by rewrite Ho|done| |].
    + rewrite E. cbn [negb andb orb]. rewrite Hstart, Hend, Hlt. exact Hgoal.
    + rewrite E, E'. cbn [negb andb orb]. rewrite Hstart, Hend, Hlt. exact Hgoal.
Qed.

(** *** Cleaning of a fenced reply *)

Lemma jsonFence_list :
  jsonFence = [backtick; backtick; backtick; "j"; "s"; "o"; "n"]%char.
Proof. reflexivity. Qed.

Lemma removeAll_pass p pat a b :
  p ∉ a -> removeAll isSpace (p :: pat) (a ++ b) = a ++ removeAll isSpace (p :: pat) b.
Proof.
  induction a as [|c a IH]; intros Hp; [done|].
  apply not_elem_of_cons in Hp as [Hc Hp]. cbn [app].
  rewrite removeAll_skip; [by rewrite IH|].
  simpl. by destruct (Ascii.eqb_spec p c).
Qed.

Lemma removeAll_clean p pat text :
  p ∉ text -> removeAll isSpace (p :: pat) text = text.
Proof.
  intros H. rewrite <- (app_nil_r text) at 1.
  by rewrite removeAll_pass, removeAll_nil, app_nil_r.
Qed.

Lemma pass_fence a b :
  backtick ∉ a -> removeAll isSpace fence (a ++ b) = a ++ removeAll isSpace fence b.
Proof. rewrite fence_chars. apply removeAll_pass. Qed.

Lemma pass_jsonFence a b :
  backtick ∉ a -> removeAll isSpace jsonFence (a ++ b) = a ++ removeAll isSpace jsonFence b.
Proof. rewrite jsonFence_list. apply removeAll_pass. Qed.

Lemma clean_fence text : backtick ∉ text -> removeAll isSpace fence text = text.
Proof. rewrite fence_chars. apply removeAll_clean. Qed.

Lemma clean_jsonFence text : backtick ∉ text -> removeAll isSpace jsonFence text = text.
Proof. rewrite jsonFence_list. apply removeAll_clean. Qed.

Lemma suffix_not_elem (x : ascii) (l1 l2 : list ascii) :
  l1 `suffix_of` l2 -> x ∉ l2 -> x ∉ l1.
Proof. intros Hs H Hx. apply H. by eapply elem_of_suffix. Qed.

(** The three backticks of a fence that is not the fence of the first
    replacement are kept by it. *)
Lemma jsonFence_skip X :
  startsWith jsonFence (fence ++ X) = false -> (forall r, X <> backtick :: r) ->
  removeAll isSpace jsonFence (fence ++ X) = fence ++ removeAll isSpace jsonFence X.
Proof.
  intros E HX. rewrite fence_chars in *. cbn [app] in *.
  assert (Hhead : forall pat, startsWith (backtick :: pat) X = false).
  { intros pat. destruct X as [|x X]; [done|]. cbn [startsWith].
    destruct (Ascii.eqb_spec backtick x) as [<-|]; [by destruct (HX X)|done]. }
  rewrite removeAll_skip by done.
  assert (Hcons : forall p pat c text,
            startsWith (p :: pat) (c :: text) = Ascii.eqb p c && startsWith pat text)
    by done.
  rewrite removeAll_skip
    by (rewrite jsonFence_list, !Hcons, !Ascii.eqb_refl; apply Hhead).
  rewrite removeAll_skip
    by (rewrite jsonFence_list, !Hcons, !Ascii.eqb_refl; apply Hhead).
  done.
Qed.

(** The first replacement on a closing fence: the fence stays, or goes
    together with a [json] written right after it. *)
Lemma jsonFence_close post :
  backtick ∉ post ->
  exists f post',
    removeAll isSpace jsonFence (fence ++ post) = f ++ post'
    /\ (f = [] \/ f = fence) /\ post' `suffix_of` post.
Proof.
  intros Hp. destruct (startsWith jsonFence (fence ++ post)) eqn:E.
  - exists [], (dropSpaces isSpace (drop (length jsonFence) (fence ++ post))).
    assert (Hs : dropSpaces isSpace (drop (length jsonFence) (fence ++ post))
                 `suffix_of` post).
    { etransitivity; [apply dropSpaces_suffix|].
      change (drop (length jsonFence) (fence ++ post)) with (drop 4 post).
      apply suffix_drop. }
    split; [|split; [by left|done]].
    rewrite removeAll_match by done.
    apply clean_jsonFence. by eapply suffix_not_elem.
  - exists fence, post. split; [|split; [by right|done]].
    rewrite jsonFence_skip; [|done|].
    + f_equal. by apply clean_jsonFence.
    + intros r ->. apply Hp. left.
Qed.

Lemma fence_close f post :
  (f = [] \/ f = fence) -> backtick ∉ post ->
  exists post', removeAll isSpace fence (f ++ post) = post' /\ post' `suffix_of` post.
Proof.
  intros [->| ->] Hp.
  - exists post. split; [|done]. by apply clean_fence.
  - exists (dropSpaces isSpace post). split; [|apply dropSpaces_suffix].
    rewrite removeAll_match; [|done|apply startsWith_spec; eauto].
    rewrite drop_app_length.
    apply clean_fence. eapply suffix_not_elem; [apply dropSpaces_suffix|done].
Qed.

Lemma fence_open pat ws o rest :
  pat <> [] -> Forall (fun s => isSpace s = true) ws -> isSpace o = false ->
  removeAll isSpace pat (pat ++ ws ++ o :: rest) = removeAll isSpace pat (o :: rest).
Proof.
  intros Hpat Hws Ho. rewrite removeAll_match; [|done|apply startsWith_spec; eauto].
  rewrite drop_app_length, dropSpaces_spaces by done. simpl. by rewrite Ho.
Qed.

Lemma cleaning_fenced pre lang ws o rest mid post :
  lang = [] \/ lang = String.list_ascii_of_string "json" ->
  isSpace backtick = false -> isSpace "j" = false -> isSpace o = false ->
  o <> "j"%char ->
  Forall (fun s => isSpace s = true) ws ->
  backtick ∉ pre -> backtick ∉ o :: rest -> backtick ∉ mid -> backtick ∉ post ->
  exists post',
    post' `suffix_of` post
    /\ removeAll isSpace fence
         (removeAll isSpace jsonFence
            (pre ++ fence ++ lang ++ ws ++ (o :: rest) ++ mid ++ fence ++ post))
       = pre ++ (o :: rest) ++ mid ++ post'.
Proof.
  intros Hlang Hbt Hj Ho Hoj Hws Hpre Hjson Hmid Hpost.
  assert (Hwsbt : backtick ∉ ws).
  { intros Hin. rewrite Forall_forall in Hws. apply Hws in Hin. congruence. }
  destruct (jsonFence_close post Hpost) as (f & post1 & Hclose & Hf & Hs1).
  assert (Hpost1 : backtick ∉ post1) by (by eapply suffix_not_elem).
  destruct (fence_close f post1 Hf Hpost1) as (post2 & Hclose2 & Hs2).
  exists post2. split; [by etransitivity|].
  assert (Hbody : backtick ∉ (o :: rest) ++ mid) by (by apply not_elem_of_app).
  rewrite pass_jsonFence by done.
  destruct Hlang as [-> | ->].
  - rewrite app_nil_l.
    rewrite jsonFence_skip.
    + replace (ws ++ (o :: rest) ++ mid ++ fence ++ post)
        with ((ws ++ (o :: rest) ++ mid) ++ fence ++ post) by (by rewrite <- !app_assoc).
      rewrite pass_jsonFence by (by apply not_elem_of_app).
      rewrite Hclose, pass_fence by done.
      replace (fence ++ (ws ++ (o :: rest) ++ mid) ++ f ++ post1)
        with (fence ++ ws ++ o :: (rest ++ mid ++ f ++ post1))
        by (by rewrite <- !app_assoc).
      rewrite fence_open by done.
      replace (o :: rest ++ mid ++ f ++ post1) with (((o :: rest) ++ mid) ++ f ++ post1)
        by (by rewrite <- !app_assoc).
      rewrite pass_fence by done. rewrite Hclose2. by rewrite <- !app_assoc.
    + apply not_true_iff_false. intros (r & E)%startsWith_spec.
      rewrite jsonFence_chars in E. rewrite <- app_assoc in E.
      apply app_inv_head in E.
      destruct ws as [|w ws].
      * simpl in E. injection E as E _. congruence.
      * simpl in E. injection E as E _. apply Forall_cons in Hws as [Hw _]. congruence.
    + intros r E. destruct ws as [|w ws].
      * simpl in E. injection E as E _. apply Hjson. rewrite E. left.
      * simpl in E. injection E as E _. apply Hwsbt. rewrite E. left.
  - replace (fence ++ String.list_ascii_of_string "json" ++ ws ++ (o :: rest) ++ mid
               ++ fence ++ post)
      with (jsonFence ++ ws ++ o :: (rest ++ mid ++ fence ++ post))
      by (by rewrite jsonFence_chars, <- !app_assoc).
    rewrite fence_open by done.
    replace (o :: rest ++ mid ++ fence ++ post) with (((o :: rest) ++ mid) ++ fence ++ post)
      by (by rewrite <- !app_assoc).
    rewrite pass_jsonFence by done.
    rewrite Hclose, pass_fence by done.
    rewrite pass_fence by done. rewrite Hclose2. by rewrite <- !app_assoc.
Qed.

Lemma parseJSON_second (J : Type) (JSON_parse : list ascii -> option J) c rest fallback :
  JSON_parse (c :: rest) = None ->
  parseJSON J JSON_parse isSpace (Some (c :: rest)) fallback
  = default fallback (JSON_parse (cleaned isSpace (c :: rest))).
Proof.
  intros E. unfold parseJSON, cleaned. rewrite E. by destruct (JSON_parse _).
Qed.

(** X14. An object or array inside prose is recovered: for a reply without
    backticks in which the value, from its opening to its closing character,
    is preceded by text without an opening brace or bracket and followed by
    text without that closing character, the cleaned text is the value, and
    [parseJSON] returns what [JSON.parse] makes of the value (the fallback
    if it throws) when the reply as a whole does not parse. *)
Theorem value_is_cut_out_of_prose (J : Type) (JSON_parse : list ascii -> option J)
    (fallback : J) (pre body post : list ascii) (o c : ascii) :
  let value := o :: body ++ [c] in
  let text := pre ++ value ++ post in
  (o = "{"%char /\ c = "}"%char) \/ (o = "["%char /\ c = "]"%char) ->
  backtick ∉ text ->
  "{"%char ∉ pre -> "["%char ∉ pre -> c ∉ post ->
  cleaned isSpace text = value
  /\ (JSON_parse text = None ->
      parseJSON J JSON_parse isSpace (Some text) fallback
      = default fallback (JSON_parse value)).
Proof.
  intros value text Hoc Hbt Hbrace Hbracket Hpost.
  assert (Hclean : cleaned isSpace text = value).
  { unfold cleaned. rewrite clean_jsonFence, clean_fence by done.
    by apply extractJSON_cut. }
  split; [done|]. intros Hfail.
  destruct text as [|t text'] eqn:E.
  - subst text. by destruct pre.
  - by rewrite parseJSON_second, Hclean.
Qed.

(** X15. A fenced reply is recovered: when the value stands in a code
    fence, opened by three backticks with or without [json] and white space
    and closed by three backticks, with prose before and after, no other
    backtick and no stray delimiter as above, the cleaned text is the value
    and [parseJSON] returns what [JSON.parse] makes of it.  The class [\s]
    holds neither the backtick, nor [j], nor the opening character. *)
Theorem fenced_value_is_recovered (J : Type) (JSON_parse : list ascii -> option J)
    (fallback : J) (pre lang ws body mid post : list ascii) (o c : ascii) :
  let value := o :: body ++ [c] in
  let text := pre ++ fence ++ lang ++ ws ++ value ++ mid ++ fence ++ post in
  lang = [] \/ lang = String.list_ascii_of_string "json" ->
  (o = "{"%char /\ c = "}"%char) \/ (o = "["%char /\ c = "]"%char) ->
  isSpace backtick = false -> isSpace "j" = false -> isSpace o = false ->
  Forall (fun s => isSpace s = true) ws ->
  backtick ∉ pre ++ body ++ mid ++ post ->
  "{"%char ∉ pre -> "["%char ∉ pre -> c ∉ mid ++ post ->
  cleaned isSpace text = value
  /\ (JSON_parse text = None ->
      parseJSON J JSON_parse isSpace (Some text) fallback
      = default fallback (JSON_parse value)).
Proof.
  intros value text Hlang Hoc Hbt Hj Ho Hws Hfree Hbrace Hbracket Hclose.
  apply not_elem_of_app in Hfree as [Hpre Hfree].
  apply not_elem_of_app in Hfree as [Hbody Hfree].
  apply not_elem_of_app in Hfree as [Hmid Hpost].
  apply not_elem_of_app in Hclose as [Hcmid Hcpost].
  assert (Hoj : o <> "j"%char) by (by destruct Hoc as [[-> _]|[-> _]]).
  assert (Hvalue : backtick ∉ value).
  { unfold value. apply not_elem_of_cons. split; [by destruct Hoc as [[-> _]|[-> _]]|].
    apply not_elem_of_app. split; [done|]. apply not_elem_of_cons.
    split; [by destruct Hoc as [[_ ->]|[_ ->]]|apply not_elem_of_nil]. }
  destruct (cleaning_fenced pre lang ws o (body ++ [c]) mid post
              Hlang Hbt Hj Ho Hoj Hws Hpre Hvalue Hmid Hpost) as (post' & Hs & Hclean).
  assert (Hcleaned : cleaned isSpace text = value).
  { unfold cleaned, text, value. rewrite Hclean.
    rewrite (app_assoc _ mid post'). rewrite <- (app_assoc _ mid post').
    apply extractJSON_cut; try done.
    apply not_elem_of_app. split; [done|]. by eapply suffix_not_elem. }
  split; [done|]. intros Hfail.
  destruct text as [|t text'] eqn:E.
  - subst text. by destruct pre.
  - by rewrite parseJSON_second, Hcleaned.
Qed.

End ParseFacts.

(** ** Geometry of the link ends *)

Section BorderFacts.

Lemma Qabs_cases (a : Q) : (0 <= a /\ Qabs a == a) \/ (a < 0 /\ Qabs a == - a).
Proof.
  destruct (Qlt_le_dec a 0) as [H|H].
  - right. split; [done|]. apply Qabs_neg. lra.
  - left. split; [done|]. by apply Qabs_pos.
Qed.

(** The hit on the side that the larger scaled offset [a] selects: [u] is
    the extent of the rectangle along [a], [v] the extent across. *)
Lemma side_hit (a b u v ju jv : Q) :
  0 < u -> 0 < v -> ~ a == 0 -> Qabs b * u <= Qabs a * v ->
  ju == (if Qltb 0 a then - u / 2 else u / 2) -> jv * a == b * ju ->
  Qabs ju == u / 2 /\ Qabs jv <= v / 2 /\ ju * a <= 0 /\ jv * b <= 0.
Proof.
  intros Hu Hv Ha Hle Hju Hjv.
  destruct (Qltb 0 a) eqn:E; [apply Qltb_lt in E|apply Qltb_ge in E];
  rewrite !Qhalf in *;
  destruct (Qabs_cases a) as [[Ha0 Ea]|[Ha0 Ea]];
  destruct (Qabs_cases b) as [[Hb0 Eb]|[Hb0 Eb]];
  destruct (Qabs_cases ju) as [[Hj0 Ej]|[Hj0 Ej]];
  destruct (Qabs_cases jv) as [[Hv0 Ev]|[Hv0 Ev]];
  rewrite ?Ea, ?Eb, ?Ej, ?Ev in *; clear Ea Eb Ej Ev;
  try (exfalso; lra).
  all: repeat split; try lra; try nra.
Qed.

(** X16. The end of a drawn link lies on the border of the padded
    footprint of the node it points at: for centres at least 1 apart on
    some axis, the point returned is on the line through the two centres,
    on the side of the target that faces [from], within the rectangle of
    width [targetWidth + 4] and height [targetHeight + 4] around the target
    and on one of its edges. *)
Theorem link_end_on_border (from target : Point.t) (targetWidth targetHeight : Q) :
  let w := targetWidth + 4 in
  let h := targetHeight + 4 in
  let dx := Point.x target - Point.x from in
  let dy := Point.y target - Point.y from in
  let p := getIntersection Qdiv from target targetWidth targetHeight in
  let ix := Point.x p - Point.x target in
  let iy := Point.y p - Point.y target in
  0 < w -> 0 < h -> 1 <= Qabs dx \/ 1 <= Qabs dy ->
  (Qabs ix <= w / 2 /\ Qabs iy <= h / 2 /\ (Qabs ix == w / 2 \/ Qabs iy == h / 2))
  /\ ix * dy == iy * dx
  /\ ix * dx <= 0 /\ iy * dy <= 0.
Proof.
  intros w h dx dy p ix iy Hw Hh Hfar.
  assert (Hp : exists jx jy,
            ix == jx /\ iy == jy
            /\ ((Qabs dy * w < Qabs dx * h
                 /\ jx == (if Qltb 0 dx then - w / 2 else w / 2)
                 /\ jy == dy / dx * jx)
                \/ (Qabs dx * h <= Qabs dy * w
                    /\ jy == (if Qltb 0 dy then - h / 2 else h / 2)
                    /\ jx == (if negb (Qeq_bool dx 0) then jy / (dy / dx) else 0)))).
  { unfold ix, iy, p, getIntersection. fold dx dy w h. unfold Math_abs.
    assert (Hnear : Qltb (Qabs dx) 1 && Qltb (Qabs dy) 1 = false).
    { apply andb_false_iff. destruct Hfar as [H|H]; [left|right];
        (destruct (Qltb _ 1) eqn:E; [apply Qltb_lt in E; lra|done]). }
    rewrite Hnear.
    destruct (Qltb (Qabs dy * w) (Qabs dx * h)) eqn:E.
    - apply Qltb_lt in E. do 2 eexists. cbn [Point.x Point.y].
      split; [|split; [|left; split; [done|split; reflexivity]]]; ring.
    - apply Qltb_ge in E. do 2 eexists. cbn [Point.x Point.y].
      split; [|split; [|right; split; [done|split; reflexivity]]]; ring. }
  destruct Hp as (jx & jy & Hix & Hiy & Hcase).
  rewrite Hix, Hiy. clear Hix Hiy. clearbody dx dy w h. clear p ix iy.
  destruct Hcase as [(Hside & Hjx & Hjy)|(Hside & Hjy & Hjx)].
  - assert (Hdx : ~ dx == 0).
    { intros H0. rewrite H0 in Hside. change (Qabs 0) with 0 in Hside.
      pose proof (Qabs_nonneg dy). nra. }
    assert (Hcross : jy * dx == dy * jx) by (rewrite Hjy; by field).
    destruct (side_hit dx dy w h jx jy Hw Hh Hdx) as (H1 & H2 & H3 & H4);
      [lra|done|done|].
    split; [split; [lra|split; [done|by left]]|]. split; [lra|done].
  - assert (Hdy : ~ dy == 0).
    { intros H0. rewrite H0 in Hside, Hfar. change (Qabs 0) with 0 in Hside, Hfar.
      pose proof (Qabs_nonneg dx). destruct Hfar as [Hfar|Hfar]; [nra|lra]. }
    assert (Hcross : jx * dy == dx * jy).
    { destruct (Qeq_bool dx 0) eqn:E0; simpl in Hjx.
      - apply Qeq_bool_iff in E0. rewrite Hjx, E0. ring.
      - apply Qeq_bool_neq in E0. rewrite Hjx. by field. }
    destruct (side_hit dy dx h w jy jx Hh Hw Hdy) as (H1 & H2 & H3 & H4);
      [done|done|done|].
    split; [split; [done|split; [lra|by right]]|]. split; [lra|done].
Qed.

End BorderFacts.

(** ** A reply that cannot be read *)

(** X17. A reply that cannot be read changes nothing: when the text of the
    reply is missing or empty, or neither it nor its cleaned text is JSON,
    [parseJSON] yields the fallback and the merge returns the current map as
    it is. *)
Theorem unreadable_reply_keeps_map (toLowerCase : string -> string)
    (JSON_parse : list ascii -> option Update.t) (isSpace : ascii -> bool)
    (text : option (list ascii)) (currentMap : ConceptMap.t) :
  unreadable JSON_parse isSpace text ->
  parseJSON Update.t JSON_parse isSpace text emptyUpdate = emptyUpdate
  /\ conceptMapFromReply toLowerCase JSON_parse isSpace text currentMap = currentMap.
Proof.
  intros H.
  assert (E : parseJSON Update.t JSON_parse isSpace text emptyUpdate = emptyUpdate).
  { destruct text as [[|c rest]|]; [done| |done].
    destruct H as [H1 H2]. unfold parseJSON. rewrite H1.
    unfold cleaned in H2. by rewrite H2. }
  split; [done|]. unfold conceptMapFromReply. rewrite E. by destruct currentMap.
Qed.

(** ** Memory bank *)

Section MemoryFacts.

Lemma includes_elem l s : includes l s = true <-> s ∈ l.
Proof.
  unfold includes. rewrite existsb_exists. split.
  - intros (e & He & ->%String.eqb_eq). by apply list_elem_of_In.
  - intros H. exists s. split; [by apply list_elem_of_In|apply String.eqb_refl].
Qed.

Lemma addMisconception_remembered concept store :
  remembered (addMisconception concept store)
  = if includes (remembered store) concept
    then remembered store else remembered store ++ [concept].
Proof. unfold remembered, addMisconception. by destruct (includes _ concept). Qed.

Lemma addMisconception_strengths concept store :
  StudentMemory.strengths (getMemory (addMisconception concept store))
  = StudentMemory.strengths (getMemory store).
Proof. unfold addMisconception. by destruct (includes _ concept). Qed.

Lemma addMisconception_known concept store :
  concept ∈ remembered store -> addMisconception concept store = store.
Proof.
  intros H%includes_elem. unfold addMisconception. unfold remembered in H. by rewrite H.
Qed.

Lemma record_grows areas : forall store,
  NoDup (remembered store) ->
  exists added,
    remembered (fold_left (fun store concept => addMisconception concept store) areas store)
    = remembered store ++ added
    /\ NoDup (remembered store ++ added)
    /\ (forall c, c ∈ added -> c ∈ areas)
    /\ (forall c, c ∈ areas -> c ∈ remembered store ++ added).
Proof.
  induction areas as [|a areas IH]; intros store Hnd; simpl.
  - exists []. rewrite app_nil_r. repeat split; [done| |]; intros c Hc; inversion Hc.
  - pose proof (addMisconception_remembered a store) as Ea.
    destruct (includes (remembered store) a) eqn:Ei.
    + destruct (IH (addMisconception a store)) as (added & E & Hn & Hin & Hall);
        [by rewrite Ea|].
      rewrite Ea in *. exists added. split; [done|]. split; [done|]. split.
      * intros c Hc. right. by apply Hin.
      * intros c [->|Hc]%elem_of_cons; [|by apply Hall].
        apply elem_of_app. left. by apply includes_elem.
    + assert (Ha : a ∉ remembered store).
      { intros H%includes_elem. congruence. }
      destruct (IH (addMisconception a store)) as (added & E & Hn & Hin & Hall).
      { rewrite Ea. apply NoDup_app. split; [done|]. split.
        - intros c Hc ->%list_elem_of_singleton. done.
        - apply NoDup_singleton. }
      rewrite Ea in *. exists (a :: added). rewrite <- app_assoc in *.
      split; [done|]. split; [done|]. split.
      * intros c [->|Hc]%elem_of_cons; [left|right; by apply Hin].
      * intros c [->|Hc]%elem_of_cons; [|by apply Hall].
        apply elem_of_app. right. left.
Qed.

Lemma record_strengths areas : forall store,
  StudentMemory.strengths
    (getMemory (fold_left (fun store concept => addMisconception concept store) areas store))
  = StudentMemory.strengths (getMemory store).
Proof.
  induction areas as [|a areas IH]; intros store; simpl; [done|].
  by rewrite IH, addMisconception_strengths.
Qed.

Lemma record_known areas store :
  (forall c, c ∈ areas -> c ∈ remembered store) ->
  fold_left (fun store concept => addMisconception concept store) areas store = store.
Proof.
  induction areas as [|a areas IH]; intros H; simpl; [done|].
  rewrite addMisconception_known by (apply H; left).
  apply IH. intros c Hc. apply H. by right.
Qed.

(** X18. The memory bank keeps each misconception once: when an exam result
    is recorded into a store without repeated entries, the entries held
    before stay in place and in order, the areas for improvement that were
    not held are appended, each once, every area is held afterwards, the
    strengths are not touched, and recording the same areas again leaves the
    store as it is. *)
Theorem memory_bank_keeps_each_concept_once (areas : list string) (store : MemoryStore) :
  NoDup (remembered store) ->
  let store' := recordAreas (Some areas) store in
  (exists added,
      remembered store' = remembered store ++ added
      /\ (forall c, c ∈ added -> c ∈ areas /\ c ∉ remembered store))
  /\ NoDup (remembered store')
  /\ (forall c, c ∈ areas -> c ∈ remembered store')
  /\ StudentMemory.strengths (getMemory store') = StudentMemory.strengths (getMemory store)
  /\ recordAreas (Some areas) store' = store'.
Proof.
  intros Hnd store'.
  destruct (record_grows areas store Hnd) as (added & E & Hn & Hin & Hall).
  change (fold_left _ areas store) with store' in E.
  split; [|split; [|split; [|split]]].
  - exists added. split; [done|]. intros c Hc. split; [by apply Hin|].
    intros Hold. apply NoDup_app in Hn as (_ & Hdisj & _). by apply (Hdisj c).
  - by rewrite E.
  - intros c Hc. rewrite E. by apply Hall.
  - apply record_strengths.
  - apply (record_known areas store'). intros c Hc. rewrite E. by apply Hall.
Qed.

End MemoryFacts.

(** ** The further properties on sample inputs *)

Lemma tick_keeps_node_list_witness :
  exists n',
    simulate Qdiv sqrtApprox [] 800 600 None None restingPair !! 0%nat = Some n'
    /\ ConceptNode.id n' = ConceptNode.id (nodeAt "A" 100 100)
    /\ ConceptNode.label n' = ConceptNode.label (nodeAt "A" 100 100).
Proof.
  apply (proj2 (tick_keeps_node_list Qdiv sqrtApprox [] 800 600 None None restingPair)
           0%nat (nodeAt "A" 100 100)).
  reflexivity.
Defined.

Lemma tick_bounds_velocity_witness :
  exists n',
    n' ∈ simulate Qdiv sqrtApprox [] 800 600 None None restingPair
    /\ exists vx vy,
         ConceptNode.vx n' = Some vx /\ ConceptNode.vy n' = Some vy
         /\ - 8 <= vx <= 8 /\ - 8 <= vy <= 8
         /\ (vx = 0 \/ 0.05 <= Qabs vx) /\ (vy = 0 \/ 0.05 <= Qabs vy).
Proof.
  assert (H : exists n' rest,
            simulate Qdiv sqrtApprox [] 800 600 None None restingPair = n' :: rest)
    by (vm_compute; eauto).
  destruct H as (n' & rest & E). exists n'.
  assert (Hin : n' ∈ simulate Qdiv sqrtApprox [] 800 600 None None restingPair)
    by (rewrite E; left).
  split; [done|].
  exact (tick_bounds_velocity Qdiv sqrtApprox [] 800 600 None None restingPair n' Hin).
Defined.

Lemma collisions_keep_midpoint_witness :
  exists u' v',
    collisions Qdiv None closePair = [u'; v']
    /\ ConceptNode.x u' + ConceptNode.x v' == 100 + 150
    /\ ConceptNode.y u' + ConceptNode.y v' == 100 + 100.
Proof.
  destruct (collisions_keep_midpoint None (nodeAt "A" 100 100) (nodeAt "B" 150 100)
              eq_refl eq_refl) as (u' & v' & E & Hx & Hy & _).
  exists u', v'. split; [exact E|]. split; [exact Hx|exact Hy].
Defined.

Lemma lone_node_rests_near_centre_witness :
  exists n',
    simulate Qdiv sqrtApprox [] 800 600 None None [nodeAt "A" 410 295] = [n']
    /\ ConceptNode.x n' == 410 /\ ConceptNode.y n' == 295
    /\ ConceptNode.vx n' = Some 0 /\ ConceptNode.vy n' = Some 0.
Proof.
  destruct (lone_node_rests_near_centre sqrtApprox 800 600 None None (nodeAt "A" 410 295))
    as (n' & E & _ & _ & Hx & Hy & Hvx & Hvy).
  - reflexivity.
  - reflexivity.
  - reflexivity.
  - vm_compute. discriminate.
  - vm_compute. discriminate.
  - split; vm_compute; discriminate.
  - split; vm_compute; discriminate.
  - exists n'. split; [exact E|]. split; [exact Hx|]. split; [exact Hy|]. by split.
Defined.

Lemma seeding_keeps_layout_witness :
  exists b,
    seedNodes sampleCos sampleSin samplePI sampleRandom [ConceptLink.mk "A" "B" None] 800 600
      [nodeAt "A" 100 100] [mapNode "A"; mapNode "B"] !! 0%nat = Some b
    /\ sameButLabel (nodeAt "A" 100 100) b.
Proof.
  apply (proj1 (seeding_keeps_layout sampleCos sampleSin samplePI sampleRandom
                  [ConceptLink.mk "A" "B" None] 800 600
                  [nodeAt "A" 100 100] [mapNode "A"; mapNode "B"]) 0%nat (nodeAt "A" 100 100)).
  reflexivity.
Defined.

Lemma seeding_holds_every_node_witness :
  exists i e,
    seedNodes sampleCos sampleSin samplePI sampleRandom [ConceptLink.mk "A" "B" None] 800 600
      [nodeAt "A" 100 100] [mapNode "A"; mapNode "B"] !! i = Some e
    /\ ConceptNode.id e = ConceptNode.id (mapNode "B")
    /\ ConceptNode.label e = ConceptNode.label (mapNode "B")
    /\ settled (seedNodes sampleCos sampleSin samplePI sampleRandom
                  [ConceptLink.mk "A" "B" None] 800 600
                  [nodeAt "A" 100 100] [mapNode "A"; mapNode "B"]) (mapNode "B").
Proof.
  apply (seeding_holds_every_node sampleCos sampleSin samplePI sampleRandom
           [ConceptLink.mk "A" "B" None] 800 600
           [nodeAt "A" 100 100] [mapNode "A"; mapNode "B"] (mapNode "B")).
  - apply (bool_decide_unpack _). vm_compute. exact I.
  - right. left.
Defined.

Lemma seeding_again_changes_nothing_witness :
  seedNodes sampleCos sampleSin samplePI sampleRandom [] 1024 768
    (seedNodes sampleCos sampleSin samplePI sampleRandom [ConceptLink.mk "A" "B" None] 800 600
       [nodeAt "A" 100 100] [mapNode "A"; mapNode "B"])
    [mapNode "A"; mapNode "B"]
  = seedNodes sampleCos sampleSin samplePI sampleRandom [ConceptLink.mk "A" "B" None] 800 600
      [nodeAt "A" 100 100] [mapNode "A"; mapNode "B"].
Proof.
  apply (seeding_again_changes_nothing sampleCos sampleSin sampleCos sampleSin
           samplePI samplePI sampleRandom sampleRandom
           [ConceptLink.mk "A" "B" None] [] 800 600 1024 768
           [nodeAt "A" 100 100] [mapNode "A"; mapNode "B"]).
  apply (bool_decide_unpack _). vm_compute. exact I.
Defined.

Lemma every_link_is_drawn_witness :
  is_Some
    (linkLine Qdiv
       (layoutAfter Qdiv sqrtApprox
          (ConceptMap.links (conceptMapAfter asciiLowerCase photosynthesisUpdates)) 800 600
          [(None, None); (Some "Chlorophyll"%string, Some (Point.mk 500 200))]
          (seedNodes sampleCos sampleSin samplePI sampleRandom
             (ConceptMap.links (conceptMapAfter asciiLowerCase photosynthesisUpdates)) 800 600
             [] (ConceptMap.nodes (conceptMapAfter asciiLowerCase photosynthesisUpdates))))
       usesLink).
Proof.
  apply (every_link_is_drawn asciiLowerCase sampleCos sampleSin samplePI sampleRandom
           Qdiv sqrtApprox 800 600 photosynthesisUpdates []
           [(None, None); (Some "Chlorophyll"%string, Some (Point.mk 500 200))] usesLink).
  apply list_elem_of_In. vm_compute. by left.
Defined.

Lemma value_is_cut_out_of_prose_witness :
  cleaned asciiSpace (String.list_ascii_of_string "Map: {} end")
  = String.list_ascii_of_string "{}"
  /\ parseJSON Update.t sampleParse asciiSpace
       (Some (String.list_ascii_of_string "Map: {} end")) emptyUpdate
     = Update.mk None None.
Proof.
  destruct (value_is_cut_out_of_prose asciiSpace Update.t sampleParse emptyUpdate
              (String.list_ascii_of_string "Map: ") []
              (String.list_ascii_of_string " end") "{" "}") as [Hclean Hparse].
  - by left.
  - apply (bool_decide_unpack _). vm_compute. exact I.
  - apply (bool_decide_unpack _). vm_compute. exact I.
  - apply (bool_decide_unpack _). vm_compute. exact I.
  - apply (bool_decide_unpack _). vm_compute. exact I.
  - split; [exact Hclean|]. exact (Hparse eq_refl).
Defined.

Lemma fenced_value_is_recovered_witness :
  cleaned asciiSpace
    (String.list_ascii_of_string "Sure: " ++ fence ++ String.list_ascii_of_string "json"
       ++ ["010"%char] ++ String.list_ascii_of_string "{}" ++ ["010"%char] ++ fence
       ++ String.list_ascii_of_string " Done.")
  = String.list_ascii_of_string "{}"
  /\ parseJSON Update.t sampleParse asciiSpace
       (Some (String.list_ascii_of_string "Sure: " ++ fence
                ++ String.list_ascii_of_string "json"
                ++ ["010"%char] ++ String.list_ascii_of_string "{}" ++ ["010"%char] ++ fence
                ++ String.list_ascii_of_string " Done.")) emptyUpdate
     = Update.mk None None.
Proof.
  destruct (fenced_value_is_recovered asciiSpace Update.t sampleParse emptyUpdate
              (String.list_ascii_of_string "Sure: ") (String.list_ascii_of_string "json")
              ["010"%char] [] ["010"%char]
              (String.list_ascii_of_string " Done.") "{" "}") as [Hclean Hparse].
  - by right.
  - by left.
  - reflexivity.
  - reflexivity.
  - reflexivity.
  - by repeat constructor.
  - apply (bool_decide_unpack _). vm_compute. exact I.
  - apply (bool_decide_unpack _). vm_compute. exact I.
  - apply (bool_decide_unpack _). vm_compute. exact I.
  - apply (bool_decide_unpack _). vm_compute. exact I.
  - split; [exact Hclean|]. exact (Hparse eq_refl).
Defined.

Lemma link_end_on_border_witness :
  Point.x (getIntersection Qdiv (Point.mk 0 0) (Point.mk 300 100) 120 44) == 238
  /\ Qabs (Point.y (getIntersection Qdiv (Point.mk 0 0) (Point.mk 300 100) 120 44) - 100)
     <= (44 + 4) / 2.
Proof.
  destruct (link_end_on_border (Point.mk 0 0) (Point.mk 300 100) 120 44)
    as ((_ & Hy & _) & _).
  - reflexivity.
  - reflexivity.
  - left. vm_compute. discriminate.
  - split; [reflexivity|exact Hy].
Defined.

Lemma unreadable_reply_keeps_map_witness :
  conceptMapFromReply asciiLowerCase sampleParse asciiSpace
    (Some (String.list_ascii_of_string "I cannot answer that."))
    (conceptMapAfter asciiLowerCase photosynthesisUpdates)
  = conceptMapAfter asciiLowerCase photosynthesisUpdates.
Proof.
  apply (unreadable_reply_keeps_map asciiLowerCase sampleParse asciiSpace
           (Some (String.list_ascii_of_string "I cannot answer that."))
           (conceptMapAfter asciiLowerCase photosynthesisUpdates)).
  split; reflexivity.
Defined.

Lemma memory_bank_keeps_each_concept_once_witness :
  NoDup (remembered (recordAreas (Some ["Meiosis"; "Mitosis"; "Meiosis"]%string)
                       (Some (StudentMemory.mk ["Mitosis"%string] []))))
  /\ "Meiosis"%string ∈ remembered (recordAreas (Some ["Meiosis"; "Mitosis"; "Meiosis"]%string)
                                      (Some (StudentMemory.mk ["Mitosis"%string] []))).
Proof.
  destruct (memory_bank_keeps_each_concept_once ["Meiosis"; "Mitosis"; "Meiosis"]%string
              (Some (StudentMemory.mk ["Mitosis"%string] []))) as (_ & Hn & Hall & _).
  - apply (bool_decide_unpack _). vm_compute. exact I.
  - split; [exact Hn|]. apply Hall. left.
Defined.
